(** * Resumable upload pipeline of the Google-to-Silo sync agent

    A shallow embedding of

    - [state_manager.py]: the SQLite ledger ([synced_files], [upload_queue]),
    - [silo_client.py]: the retrying, rate-limited upload client,

    and the properties of both that the specification states.

    Modelling conventions.
    - A table is the list of its rows in rowid order, each row a pair of its
      rowid and its columns; [AUTOINCREMENT] is the counter kept next to it.
    - A Python [dict] with string keys is a [gmap string pyval].
    - [datetime.utcnow().isoformat()] is an argument ([now]) of the
      operation that reads the clock.
    - A connection buffers its writes until [commit]; the durable database
      changes at commits only, and a crash loses what was not committed.
    - Python floats ([time.time()], back-off durations) are exact rationals
      ([Q]): rounding and overflow are not modelled. *)

From stdpp Require Import gmap strings list pretty sorting.
From Stdlib Require Import Ascii ZArith QArith Qminmax Qpower Qabs Sorted Lia Lqa.

#[local] Open Scope Z_scope.
#[local] Open Scope string_scope.

(** ** Python values and results *)

(** The values a [file_info] dictionary holds, as far as the ledger looks at
    them: [None], integers, strings, and anything nested (lists, dicts),
    which [json.dumps] serialises but SQLite cannot bind as a parameter. *)
Inductive pyval :=
| PNone
| PInt (n : Z)
| PStr (s : string)
| PNested.

#[global] Instance pyval_eq_dec : EqDecision pyval.
Proof. solve_decision. Defined.

(** Exceptions a ledger operation can raise. *)
Inductive db_error :=
| BindingError (column : string)       (* unsupported parameter type *)
| IntegrityError (constraint : string) (* NOT NULL constraint failed *)
| OperationalError (msg : string).     (* database is locked *)

Inductive res (A : Type) :=
| Ok (a : A)
| Raise (e : db_error).
Arguments Ok {A} a.
Arguments Raise {A} e.

#[global] Instance res_ret : MRet res := λ A a, Ok a.
#[global] Instance res_bind : MBind res := λ A B k m,
  match m with
  | Ok a => k a
  | Raise e => Raise e
  end.

#[global] Instance Q_eq_dec : EqDecision Q.
Proof. solve_decision. Defined.

#[global] Instance Qlt_decision (a b : Q) : Decision (a < b)%Q.
Proof. unfold Qlt; apply _. Defined.

#[global] Instance Qle_decision (a b : Q) : Decision (a <= b)%Q.
Proof. unfold Qle; apply _. Defined.

(** [d.get(key, default)] *)
Definition dict_get (d : gmap string pyval) (key : string) (dflt : pyval) : pyval :=
  default dflt (d !! key).

(** Truth value of an [Optional[str]]: [None] and the empty string are falsy. *)
Definition truthy (o : option string) : bool :=
  match o with
  | Some s => negb (String.eqb s "")
  | None => false
  end.

Module Ledger.

(** ** Schema ([StateManager._init_db]) *)

(** Columns of [synced_files] other than the rowid [id]. [metadata] holds
    the text [json.dumps(file_info)], represented by the dictionary it
    encodes. *)
Record synced_cols := SyncedCols {
  sf_google_id : string;
  sf_service : string;
  sf_file_name : pyval;
  sf_file_path : pyval;
  sf_mime_type : pyval;
  sf_file_size : pyval;
  sf_modified_time : pyval;
  sf_silo_file_id : option string;
  sf_checksum : pyval;
  sf_bucket : option string;
  sf_synced_at : string;
  sf_metadata : option (gmap string pyval)
}.

(** Columns of [upload_queue] other than the rowid [id]. *)
Record queue_cols := QueueCols {
  uq_google_id : string;
  uq_service : string;
  uq_file_name : pyval;
  uq_file_path : pyval;
  uq_mime_type : pyval;
  uq_file_size : pyval;
  uq_download_url : option string;
  uq_bucket : string;
  uq_status : string;
  uq_retry_count : Z;
  uq_last_error : option string;
  uq_created_at : string;
  uq_last_attempt_at : option string;
  uq_metadata : option (gmap string pyval)
}.

(** The two tables the claims are about, each with its [AUTOINCREMENT]
    counter (the largest rowid ever handed out). *)
Record db := Db {
  synced_files : list (Z * synced_cols);
  synced_seq : Z;
  upload_queue : list (Z * queue_cols);
  queue_seq : Z
}.

Definition empty_db : db := Db [] 0 [] 0.

(** ** Statements *)

Inductive stmt :=
| InsertOrReplaceSynced (r : synced_cols)
| InsertOrReplaceQueue (r : queue_cols)
| DeleteQueueById (queue_id : Z)
| UpdateQueueStatus (status : string) (error_message : option string)
                    (last_attempt_at : string) (queue_id : Z).

(** A parameter of a type that SQLite cannot bind. *)
Definition unbindable (v : pyval) : bool :=
  match v with PNested => true | _ => false end.

Definition check_bind (column : string) (v : pyval) : res unit :=
  if unbindable v then Raise (BindingError column) else Ok tt.

Definition check_not_null (column : string) (v : pyval) : res unit :=
  match v with PNone => Raise (IntegrityError column) | _ => Ok tt end.

(** [synced_files] has [google_id TEXT NOT NULL UNIQUE] and
    [UNIQUE(google_id, service)]: a new row conflicts with an old one when
    either constraint would be broken. *)
Definition synced_conflict (r old : synced_cols) : Prop :=
  sf_google_id old = sf_google_id r
  ∨ (sf_google_id old = sf_google_id r ∧ sf_service old = sf_service r).

(** [upload_queue] has [UNIQUE(google_id, service)] only. *)
Definition queue_conflict (r old : queue_cols) : Prop :=
  uq_google_id old = uq_google_id r ∧ uq_service old = uq_service r.

#[global] Instance synced_conflict_dec r old : Decision (synced_conflict r old).
Proof. unfold synced_conflict; apply _. Defined.

#[global] Instance queue_conflict_dec r old : Decision (queue_conflict r old).
Proof. unfold queue_conflict; apply _. Defined.

Definition set_status (status : string) (error_message : option string)
    (last_attempt_at : string) (r : queue_cols) : queue_cols :=
  QueueCols (uq_google_id r) (uq_service r) (uq_file_name r) (uq_file_path r)
    (uq_mime_type r) (uq_file_size r) (uq_download_url r) (uq_bucket r)
    status (uq_retry_count r + 1) error_message (uq_created_at r)
    (Some last_attempt_at) (uq_metadata r).

(** [UPDATE upload_queue SET ... WHERE id = ?] on one row. *)
Definition touch (status : string) (error_message : option string)
    (last_attempt_at : string) (queue_id : Z) (row : Z * queue_cols)
    : Z * queue_cols :=
  if decide (row.1 = queue_id)
  then (row.1, set_status status error_message last_attempt_at row.2)
  else row.

(** One statement on a working copy of the database. [INSERT OR REPLACE]
    deletes every conflicting row and appends the new one under a fresh
    rowid. *)
Definition exec (s : stmt) (d : db) : res db :=
  match s with
  | InsertOrReplaceSynced r =>
      check_bind "file_name" (sf_file_name r);;
      check_bind "file_path" (sf_file_path r);;
      check_bind "mime_type" (sf_mime_type r);;
      check_bind "file_size" (sf_file_size r);;
      check_bind "modified_time" (sf_modified_time r);;
      check_bind "checksum" (sf_checksum r);;
      check_not_null "synced_files.file_name" (sf_file_name r);;
      Ok (Db (filter (λ row, ¬ synced_conflict r row.2) (synced_files d)
                ++ [(synced_seq d + 1, r)])
             (synced_seq d + 1) (upload_queue d) (queue_seq d))
  | InsertOrReplaceQueue r =>
      check_bind "file_name" (uq_file_name r);;
      check_bind "file_path" (uq_file_path r);;
      check_bind "mime_type" (uq_mime_type r);;
      check_bind "file_size" (uq_file_size r);;
      check_not_null "upload_queue.file_name" (uq_file_name r);;
      Ok (Db (synced_files d) (synced_seq d)
             (filter (λ row, ¬ queue_conflict r row.2) (upload_queue d)
                ++ [(queue_seq d + 1, r)])
             (queue_seq d + 1))
  | DeleteQueueById q =>
      Ok (Db (synced_files d) (synced_seq d)
             (filter (λ row, row.1 ≠ q) (upload_queue d))
             (queue_seq d))
  | UpdateQueueStatus status err at_ q =>
      Ok (Db (synced_files d) (synced_seq d)
             (touch status err at_ q <$> upload_queue d)
             (queue_seq d))
  end.

(** ** Connections, commits and crashes *)

(** What a method does to the database, one step at a time. Connections
    are numbered: a method uses connection [c], a method it calls opens
    connection [S c] ([_get_connection] connects anew on every call). *)
Inductive event :=
| Exec (c : nat) (s : stmt)   (* cursor.execute, a write on connection c *)
| Commit (c : nat)            (* conn.commit() *)
| Close (c : nat).            (* conn.close(), when the with block is left *)

(** The database file and the one write transaction SQLite allows at a
    time: the connection that holds it and its uncommitted working copy. *)
Record sys := Sys {
  durable : db;
  txn : option (nat * db)
}.

Definition step (ev : event) (s : sys) : res sys :=
  match ev with
  | Exec c st =>
      match txn s with
      | None => w ← exec st (durable s); Ok (Sys (durable s) (Some (c, w)))
      | Some (c', w) =>
          if decide (c' = c)
          then w' ← exec st w; Ok (Sys (durable s) (Some (c, w')))
          else Raise (OperationalError "database is locked")
      end
  | Commit c =>
      match txn s with
      | Some (c', w) => if decide (c' = c) then Ok (Sys w None) else Ok s
      | None => Ok s
      end
  | Close c =>
      match txn s with
      | Some (c', w) => if decide (c' = c) then Ok (Sys (durable s) None) else Ok s
      | None => Ok s
      end
  end.

(** Runs a method's events in order. An exception unwinds through every
    [with] block, so all connections are closed and the open transaction is
    rolled back; what was committed before stays. *)
Fixpoint run (evs : list event) (s : sys) : sys * option db_error :=
  match evs with
  | [] => (s, None)
  | ev :: evs' =>
      match step ev s with
      | Ok s' => run evs' s'
      | Raise e => (Sys (durable s) None, Some e)
      end
  end.

(** The database a method leaves, with the exception it raised, if any. *)
Definition call (evs : list event) (d : db) : db * option db_error :=
  let '(s, e) := run evs (Sys d None) in (durable s, e).

(** The database found after a crash that let only the first [k] events of
    the method happen: uncommitted work is lost. *)
Definition crash_after (k : nat) (evs : list event) (d : db) : db :=
  durable (run (take k evs) (Sys d None)).1.

(** ** Operations ([StateManager]) *)

Definition has_key (google_id service : string) (row : Z * synced_cols) : Prop :=
  sf_google_id row.2 = google_id ∧ sf_service row.2 = service.

#[global] Instance has_key_dec g s row : Decision (has_key g s row).
Proof. unfold has_key; apply _. Defined.

(** [SELECT COUNT( * ) FROM synced_files WHERE google_id = ? AND service = ?] *)
Definition synced_count (d : db) (google_id service : string) : nat :=
  length (filter (has_key google_id service) (synced_files d)).

Definition is_file_synced (d : db) (google_id service : string) : bool :=
  bool_decide (0 < synced_count d google_id service)%nat.

Definition synced_row_of (now google_id service : string)
    (file_info : gmap string pyval) (silo_file_id bucket : option string)
    : synced_cols :=
  SyncedCols google_id service
    (dict_get file_info "name" (PStr ""))
    (dict_get file_info "path" (PStr ""))
    (dict_get file_info "mimeType" (PStr ""))
    (dict_get file_info "size" (PInt 0))
    (dict_get file_info "modifiedTime" (PStr ""))
    silo_file_id
    (dict_get file_info "md5Checksum" (PStr ""))
    bucket now (Some file_info).

Definition mark_file_synced_events (c : nat) (now google_id service : string)
    (file_info : gmap string pyval) (silo_file_id bucket : option string)
    : list event :=
  [ Exec c (InsertOrReplaceSynced
              (synced_row_of now google_id service file_info silo_file_id bucket));
    Commit c; Close c ].

Definition mark_file_synced (now google_id service : string)
    (file_info : gmap string pyval) (silo_file_id bucket : option string)
    (d : db) : db * option db_error :=
  call (mark_file_synced_events 0 now google_id service file_info
          silo_file_id bucket) d.

(** The column list of the INSERT leaves out [retry_count], [last_error]
    and [last_attempt_at]: they take their defaults, [0], [NULL], [NULL]. *)
Definition queue_row_of (now google_id service : string)
    (file_info : gmap string pyval) (bucket : string)
    (download_url : option string) : queue_cols :=
  QueueCols google_id service
    (dict_get file_info "name" (PStr ""))
    (dict_get file_info "path" (PStr ""))
    (dict_get file_info "mimeType" (PStr ""))
    (dict_get file_info "size" (PInt 0))
    download_url bucket "pending" 0 None now None (Some file_info).

Definition add_to_upload_queue_events (c : nat) (now google_id service : string)
    (file_info : gmap string pyval) (bucket : string)
    (download_url : option string) : list event :=
  [ Exec c (InsertOrReplaceQueue
              (queue_row_of now google_id service file_info bucket download_url));
    Commit c; Close c ].

Definition add_to_upload_queue (now google_id service : string)
    (file_info : gmap string pyval) (bucket : string)
    (download_url : option string) (d : db) : db * option db_error :=
  call (add_to_upload_queue_events 0 now google_id service file_info bucket
          download_url) d.

Definition has_queue_key (google_id service : string) (row : Z * queue_cols) : Prop :=
  uq_google_id row.2 = google_id ∧ uq_service row.2 = service.

#[global] Instance has_queue_key_dec g s row : Decision (has_queue_key g s row).
Proof. unfold has_queue_key; apply _. Defined.

(** The queue rows of a [(google_id, service)] pair. *)
Definition queue_rows (d : db) (google_id service : string) : list (Z * queue_cols) :=
  filter (has_queue_key google_id service) (upload_queue d).

(** The synced records of a [(google_id, service)] pair. *)
Definition synced_rows (d : db) (google_id service : string) : list (Z * synced_cols) :=
  filter (has_key google_id service) (synced_files d).

(** [UNIQUE(google_id, service)] holds in [upload_queue]. *)
Definition queue_unique (d : db) : Prop :=
  NoDup ((λ row, (uq_google_id row.2, uq_service row.2)) <$> upload_queue d).

(** [WHERE status = 'pending' OR status = 'retrying'] *)
Definition is_pending (row : Z * queue_cols) : Prop :=
  uq_status row.2 = "pending" ∨ uq_status row.2 = "retrying".

#[global] Instance is_pending_dec row : Decision (is_pending row).
Proof. unfold is_pending; apply _. Defined.

(** [ORDER BY created_at ASC] on a TEXT column: bytewise comparison; rows
    with equal keys stay in rowid order. *)
Definition created_le (a b : Z * queue_cols) : bool :=
  String.leb (uq_created_at a.2) (uq_created_at b.2).

Definition created_before (a b : Z * queue_cols) : Prop :=
  created_le a b = true.

Fixpoint insert_by_created_at (r : Z * queue_cols) (l : list (Z * queue_cols))
    : list (Z * queue_cols) :=
  match l with
  | [] => [r]
  | x :: l' =>
      if created_le r x then r :: x :: l' else x :: insert_by_created_at r l'
  end.

Definition order_by_created_at (l : list (Z * queue_cols)) : list (Z * queue_cols) :=
  foldr insert_by_created_at [] l.

(** [LIMIT ?]: SQLite puts no upper bound on the number of rows when the
    limit is negative. *)
Definition sql_limit {A} (limit : Z) (l : list A) : list A :=
  if decide (limit < 0) then l else take (Z.to_nat limit) l.

Definition get_pending_uploads (limit : Z) (d : db) : list (Z * queue_cols) :=
  sql_limit limit (order_by_created_at (filter is_pending (upload_queue d))).

(** [SELECT * FROM upload_queue WHERE id = ?] followed by [fetchone()] *)
Definition select_queue_by_id (d : db) (queue_id : Z) : option (Z * queue_cols) :=
  head (filter (λ row, row.1 = queue_id) (upload_queue d)).

(** The SELECT is read on connection [c] before any write, so it sees the
    database as it is when the method starts. *)
Definition update_upload_status_events (c : nat) (now : string) (queue_id : Z)
    (status : string) (error_message silo_file_id : option string) (d : db)
    : list event :=
  if bool_decide (status = "completed") && truthy silo_file_id then
    match select_queue_by_id d queue_id with
    | Some item =>
        let file_info := default ∅ (uq_metadata item.2) in
        mark_file_synced_events (S c) now (uq_google_id item.2)
          (uq_service item.2) file_info silo_file_id (Some (uq_bucket item.2))
        ++ [ Exec c (DeleteQueueById queue_id); Commit c; Close c ]
    | None => [ Commit c; Close c ]
    end
  else
    [ Exec c (UpdateQueueStatus status error_message now queue_id);
      Commit c; Close c ].

Definition update_upload_status (now : string) (queue_id : Z) (status : string)
    (error_message silo_file_id : option string) (d : db)
    : db * option db_error :=
  call (update_upload_status_events 0 now queue_id status error_message
          silo_file_id d) d.

End Ledger.

Module Client.

(** ** Data ([silo_client.py]) *)

(** An instance of a subclass of [Exception] raised inside the [try] block,
    seen through what the handlers look at: whether it is a
    [requests.ConnectionError], whether it is a [requests.Timeout]
    ([requests.ConnectTimeout] is both), and [str(e)]. *)
Record py_exn := PyExn {
  is_connection_error : bool;
  is_timeout : bool;
  exn_text : string
}.

Record response := Response {
  status_code : Z;
  retry_after_header : option string;  (* headers.get('Retry-After') *)
  text : string
}.

(** The dataclass [UploadResult]; its [status_code] is
    [result_status_code] here, the name being taken by the response. *)
Record UploadResult := MkUploadResult {
  success : bool;
  file_id : pyval;
  file_name : option string;
  error_message : option string;
  result_status_code : option Z;
  retry_after : option Z
}.

(** The constructor arguments that the retry policy reads ([server_url],
    [bucket] and [timeout] only shape the request). *)
Record config := Config {
  max_retries : Z;
  initial_backoff : Q;
  max_backoff : Q
}.

(** [self.stats] *)
Record stats := Stats {
  uploads_attempted : Z;
  uploads_succeeded : Z;
  uploads_failed : Z;
  bytes_uploaded : Z;
  rate_limits_hit : Z
}.

(** The mutable part of the client together with the wall clock
    ([time.time()]), which [time.sleep] and the request move forward. *)
Record cstate := CState {
  clock : Q;
  _rate_limit_until : Q;
  cstats : stats
}.

(** What one pass through the loop body meets: the outcome of each
    operation of the outside world, should the pass get to it. *)
Record attempt := Attempt {
  at_seek : option py_exn;               (* file_stream.seek(0) raises *)
  at_elapsed : Q;                        (* time the request takes *)
  at_post : py_exn + response;           (* requests.post *)
  at_json : py_exn + gmap string pyval;  (* response.json() and the lookups *)
  at_tell : py_exn + Z;                  (* file_stream.seek(0, 2); tell() *)
  at_random : Q                          (* random.random() *)
}.

(** What the caller can observe of a call besides its result. *)
Inductive io_event :=
| EvSleep (seconds : Q)   (* time.sleep *)
| EvPost.                 (* requests.post: one network attempt *)

#[global] Instance io_event_eq_dec : EqDecision io_event.
Proof. solve_decision. Defined.

Definition network_attempts (tr : list io_event) : nat :=
  length (filter (λ ev, ev = EvPost) tr).

Definition sleeps (tr : list io_event) : list io_event :=
  filter (λ ev, ev ≠ EvPost) tr.

(** ** [int(str)] for the [Retry-After] header *)

Definition is_space (a : Ascii.ascii) : bool :=
  let n := Ascii.nat_of_ascii a in
  bool_decide (n = 32 ∨ (9 ≤ n ∧ n ≤ 13) ∨ (28 ≤ n ∧ n ≤ 31))%nat.

Definition digit_of (a : Ascii.ascii) : option Z :=
  let n := Ascii.nat_of_ascii a in
  if bool_decide (48 ≤ n ∧ n ≤ 57)%nat then Some (Z.of_nat n - 48) else None.

Fixpoint lstrip (l : list Ascii.ascii) : list Ascii.ascii :=
  match l with
  | a :: l' => if is_space a then lstrip l' else l
  | [] => []
  end.

Definition strip (l : list Ascii.ascii) : list Ascii.ascii :=
  reverse (lstrip (reverse (lstrip l))).

(** Digits with single underscores between them; [acc] is the value read so
    far and [after_digit] tells whether the previous character was a digit. *)
Fixpoint digits (l : list Ascii.ascii) (acc : Z) (after_digit : bool) : option Z :=
  match l with
  | [] => if after_digit then Some acc else None
  | a :: l' =>
      match digit_of a with
      | Some dgt => digits l' (10 * acc + dgt) true
      | None =>
          if Ascii.eqb a "_"%char && after_digit then digits l' acc false else None
      end
  end.

(** [int(s)] for ASCII text: [None] stands for [ValueError]. *)
Definition py_int (s : string) : option Z :=
  match strip (String.list_ascii_of_string s) with
  | "-"%char :: l => Z.opp <$> digits l 0 false
  | "+"%char :: l => digits l 0 false
  | l => digits l 0 false
  end.

Definition value_error (s : string) : py_exn :=
  PyExn false false ("invalid literal for int() with base 10: '" +:+ s +:+ "'").

(** [int(response.headers.get('Retry-After', 60))] *)
Definition retry_after_seconds (resp : response) : py_exn + Z :=
  match retry_after_header resp with
  | None => inr 60
  | Some h =>
      match py_int h with
      | Some n => inr n
      | None => inl (value_error h)
      end
  end.

(** ** Back-off and rate limiting *)

Definition _calculate_backoff (cfg : config) (retry_count : Z) (random : Q) : Q :=
  let backoff := Qmin (initial_backoff cfg * 2 ^ retry_count) (max_backoff cfg) in
  let jitter := (backoff * (2 # 10) * (2 * random - 1))%Q in
  Qmax (1 # 10) (backoff + jitter).



Definition _is_rate_limited (st : cstate) : bool :=
  bool_decide (clock st < _rate_limit_until st)%Q.

Definition bump_rate_limits_hit (s : stats) : stats :=
  Stats (uploads_attempted s) (uploads_succeeded s) (uploads_failed s)
    (bytes_uploaded s) (rate_limits_hit s + 1).

Definition bump_failed (s : stats) : stats :=
  Stats (uploads_attempted s) (uploads_succeeded s) (uploads_failed s + 1)
    (bytes_uploaded s) (rate_limits_hit s).

Definition bump_attempted (s : stats) : stats :=
  Stats (uploads_attempted s + 1) (uploads_succeeded s) (uploads_failed s)
    (bytes_uploaded s) (rate_limits_hit s).

Definition bump_succeeded (file_size : Z) (s : stats) : stats :=
  Stats (uploads_attempted s) (uploads_succeeded s + 1) (uploads_failed s)
    (bytes_uploaded s + file_size) (rate_limits_hit s).

Definition with_stats (f : stats → stats) (st : cstate) : cstate :=
  CState (clock st) (_rate_limit_until st) (f (cstats st)).

Definition _set_rate_limit (retry_after : Z) (st : cstate) : cstate :=
  CState (clock st) (clock st + inject_Z retry_after)
    (bump_rate_limits_hit (cstats st)).

Definition sleep (seconds : Q) (st : cstate) : cstate :=
  CState (clock st + seconds) (_rate_limit_until st) (cstats st).

Definition _wait_if_rate_limited (st : cstate) : cstate * list io_event :=
  if _is_rate_limited st then
    let wait_time := Qmax 0 (_rate_limit_until st - clock st) in
    if bool_decide (0 < wait_time)%Q
    then (sleep wait_time st, [EvSleep wait_time])
    else (st, [])
  else (st, []).

(** ** [upload_file] *)

(** How a pass through the loop body ends. *)
Inductive flow :=
| Return (r : UploadResult)
| Continue (retry_count : Z).

Definition failed_result (name msg : string) (code retry : option Z)
    : UploadResult :=
  MkUploadResult false PNone (Some name) (Some msg) code retry.

Definition py_truthy (v : pyval) : bool :=
  match v with
  | PNone => false
  | PInt n => negb (Z.eqb n 0)
  | PStr s => negb (String.eqb s "")
  | PNested => true
  end.

(** [a or b] *)
Definition py_or (a b : pyval) : pyval := if py_truthy a then a else b.

Definition server_error (code : Z) : bool :=
  bool_decide (code = 500 ∨ code = 502 ∨ code = 503 ∨ code = 504).

(** The [try] block of the loop body: the state and the events up to the
    point where it is left, and how it is left: by an exception, by
    [return] or by [continue]. The form fields built from [metadata] have
    no influence on the control flow and are left out. *)
Definition try_body (cfg : config) (name : string) (w : attempt)
    (retry_count : Z) (st : cstate) : cstate * list io_event * (py_exn + flow) :=
  let '(st, evs) := _wait_if_rate_limited st in
  match at_seek w with
  | Some e => (st, evs, inl e)
  | None =>
      let st := sleep (at_elapsed w) st in
      let evs := (evs ++ [EvPost])%list in
      match at_post w with
      | inl e => (st, evs, inl e)
      | inr resp =>
          if decide (status_code resp = 200) then
            match at_json w with
            | inl e => (st, evs, inl e)
            | inr result_data =>
                let file_id := py_or (dict_get result_data "FileId" PNone)
                                     (dict_get result_data "fileId" PNone) in
                match at_tell w with
                | inl e => (st, evs, inl e)
                | inr file_size =>
                    (with_stats (bump_succeeded file_size) st, evs,
                     inr (Return (MkUploadResult true file_id (Some name) None
                                    (Some 200) None)))
                end
            end
          else if decide (status_code resp = 429) then
            match retry_after_seconds resp with
            | inl e => (st, evs, inl e)
            | inr seconds =>
                let st := _set_rate_limit seconds st in
                let retry_count := retry_count + 1 in
                if decide (retry_count > max_retries cfg) then
                  (with_stats bump_failed st, evs,
                   inr (Return (failed_result name
                                  "Max retries exceeded due to rate limiting"
                                  (Some 429) (Some seconds))))
                else (st, evs, inr (Continue retry_count))
            end
          else if server_error (status_code resp) then
            let backoff := _calculate_backoff cfg retry_count (at_random w) in
            let retry_count := retry_count + 1 in
            if decide (retry_count > max_retries cfg) then
              (with_stats bump_failed st, evs,
               inr (Return (failed_result name
                              ("Server error: " +:+ pretty (status_code resp))
                              (Some (status_code resp)) None)))
            else (sleep backoff st, (evs ++ [EvSleep backoff])%list,
                  inr (Continue retry_count))
          else
            let error_msg := "Upload failed with status "
                             +:+ pretty (status_code resp) +:+ ": "
                             +:+ String.substring 0 200 (text resp) in
            (with_stats bump_failed st, evs,
             inr (Return (failed_result name error_msg
                            (Some (status_code resp)) None)))
      end
  end.

(** The exception that leaves the [try] block on a pass that meets [w], if
    one does. *)
Definition raised (w : attempt) : option py_exn :=
  match at_seek w with
  | Some e => Some e
  | None =>
      match at_post w with
      | inl e => Some e
      | inr resp =>
          if decide (status_code resp = 200) then
            match at_json w, at_tell w with
            | inl e, _ => Some e
            | inr _, inl e => Some e
            | inr _, inr _ => None
            end
          else if decide (status_code resp = 429) then
            match retry_after_seconds resp with
            | inl e => Some e
            | inr _ => None
            end
          else None
      end
  end.

(** A pass that fails in a way the client retries: a 429 or 500/502/503/504
    response, a connection error or a timeout. *)
Definition retryable_failure (w : attempt) : bool :=
  match raised w with
  | Some e => is_connection_error e || is_timeout e
  | None =>
      match at_post w with
      | inr resp =>
          bool_decide (status_code resp = 429) || server_error (status_code resp)
      | inl _ => false
      end
  end.

(** The [except] clauses, tried in the order they are written. *)
Definition except_clauses (cfg : config) (name : string) (w : attempt)
    (retry_count : Z) (e : py_exn) (st : cstate) : cstate * list io_event * flow :=
  if is_connection_error e then
    let backoff := _calculate_backoff cfg retry_count (at_random w) in
    let retry_count := retry_count + 1 in
    if decide (retry_count > max_retries cfg) then
      (with_stats bump_failed st, [],
       Return (failed_result name ("Connection error: " +:+ exn_text e) None None))
    else (sleep backoff st, [EvSleep backoff], Continue retry_count)
  else if is_timeout e then
    let backoff := _calculate_backoff cfg retry_count (at_random w) in
    let retry_count := retry_count + 1 in
    if decide (retry_count > max_retries cfg) then
      (with_stats bump_failed st, [],
       Return (failed_result name ("Timeout error: " +:+ exn_text e) None None))
    else (sleep backoff st, [EvSleep backoff], Continue retry_count)
  else
    (with_stats bump_failed st, [],
     Return (failed_result name ("Unexpected error: " +:+ exn_text e) None None)).

(** One pass through the body of the [while] loop. *)
Definition loop_body (cfg : config) (name : string) (w : attempt)
    (retry_count : Z) (st : cstate) : cstate * list io_event * flow :=
  match try_body cfg name w retry_count st with
  | (st', evs, inr f) => (st', evs, f)
  | (st', evs, inl e) =>
      let '(st'', evs', f) := except_clauses cfg name w retry_count e st' in
      (st'', (evs ++ evs')%list, f)
  end.

(** [while retry_count <= self.max_retries], the [i]-th pass meeting
    [world i]. [None]: the fuel ran out before the loop ended. *)
Fixpoint upload_loop (fuel : nat) (cfg : config) (name : string)
    (world : nat → attempt) (i : nat) (retry_count : Z) (st : cstate)
    (tr : list io_event) : option (UploadResult * cstate * list io_event) :=
  if decide (retry_count <= max_retries cfg) then
    match fuel with
    | O => None
    | S fuel' =>
        match loop_body cfg name (world i) retry_count st with
        | (st', evs, Return r) => Some (r, st', (tr ++ evs)%list)
        | (st', evs, Continue retry_count') =>
            upload_loop fuel' cfg name world (S i) retry_count' st' (tr ++ evs)%list
        end
    end
  else
    Some (failed_result name "Max retries exceeded" None None,
          with_stats bump_failed st, tr).

Definition upload_file (cfg : config) (name : string) (world : nat → attempt)
    (st : cstate) : option (UploadResult * cstate * list io_event) :=
  upload_loop (Z.to_nat (max_retries cfg + 1)) cfg name world 0 0
    (with_stats bump_attempted st) [].

End Client.

(** * Concrete inputs *)

Module Examples.
Import Ledger.

Definition info_a : gmap string pyval :=
  {[ "name" := PStr "a.txt"; "mimeType" := PStr "text/plain"; "size" := PInt 3 ]}.

Definition info_b : gmap string pyval :=
  {[ "name" := PStr "b.txt"; "size" := PInt 5 ]}.

(** Two items queued one after the other. *)
Definition queued_two : db :=
  (add_to_upload_queue "2024-01-01T00:00:03" "B" "photos" info_b "files" None
     (add_to_upload_queue "2024-01-01T00:00:00" "A" "drive" info_a "files" None
        empty_db).1).1.


(** The defaults of [SiloUploadClient]. *)
Definition default_config : Client.config := Client.Config 5 1 300.

(** What a pass meets when the server answers with [resp]. *)
Definition answered (resp : Client.response) : Client.attempt :=
  Client.Attempt None 1 (inr resp) (inr {[ "fileId" := PStr "f1" ]}) (inr 10)
    (1 # 2).

Definition not_found : Client.attempt :=
  answered (Client.Response 404 None "no such bucket").

Definition slow_down : Client.attempt :=
  answered (Client.Response 429 (Some "7") "slow down").

(** A stream that cannot be rewound. *)
Definition unseekable : Client.attempt :=
  Client.Attempt
    (Some (Client.PyExn false false "underlying stream is not seekable"))
    0 (inr (Client.Response 200 None "")) (inr ∅) (inr 0) 0.

Definition fresh_client : Client.cstate :=
  Client.CState 1000 0 (Client.Stats 0 0 0 0 0).

(** One item queued at midnight. *)
Definition queued_once : db :=
  (add_to_upload_queue "2024-01-01T00:00:00" "A" "drive" info_a "files" None
     empty_db).1.

(** The same item after one failed upload of the queue pass. *)
Definition failed_once : db :=
  (update_upload_status "2024-01-01T00:00:05" 1 "failed" (Some "boom") None
     queued_once).1.

(** [failed_once] after the next sync pass queued the item again. *)
Definition queued_again : db :=
  (add_to_upload_queue "2024-01-01T00:00:09" "A" "drive" info_a "files" None
     failed_once).1.

(** An item marked synced, then marked again with other values, then
    marked under another service. *)
Definition marked_once : db :=
  (mark_file_synced "2024-01-01T00:00:01" "A" "drive" info_a (Some "s1") None
     empty_db).1.


Definition marked_photos : db :=
  (mark_file_synced "2024-01-01T00:00:03" "A" "photos" info_b (Some "s3")
     (Some "b3") marked_once).1.

End Examples.

(** * The rest of the ledger: constraints, sessions, statistics *)

Module LedgerMore.
Import Ledger.

(** ** The constraints of the schema as predicates *)

(** [google_id TEXT NOT NULL UNIQUE] of [synced_files]. *)
Definition synced_unique (d : db) : Prop :=
  NoDup ((λ row, sf_google_id row.2) <$> synced_files d).

(** [id INTEGER PRIMARY KEY AUTOINCREMENT]: rowids are distinct and none is
    above the counter. *)
Definition rowids_ok {A} (rows : list (Z * A)) (seq : Z) : Prop :=
  NoDup rows.*1 ∧ Forall (λ row, row.1 <= seq) rows.

Definition constraints_hold (d : db) : Prop :=
  queue_unique d ∧ synced_unique d
  ∧ rowids_ok (upload_queue d) (queue_seq d)
  ∧ rowids_ok (synced_files d) (synced_seq d).

(** ** Sync sessions *)

(** Columns of [sync_sessions] other than the rowid. The four counters hold
    what [stats.get] returned. *)
Record session_cols := SessionCols {
  ss_service : string;
  ss_started_at : string;
  ss_completed_at : option string;
  ss_status : string;
  ss_files_processed : pyval;
  ss_files_uploaded : pyval;
  ss_files_failed : pyval;
  ss_bytes_uploaded : pyval;
  ss_error_message : option string
}.

(** The table with its [AUTOINCREMENT] counter. *)
Record sessions := Sessions {
  sync_sessions : list (Z * session_cols);
  sessions_seq : Z
}.

Definition no_sessions : sessions := Sessions [] 0.

(** [INSERT INTO sync_sessions (service, started_at, status) VALUES
    (?, ?, 'running')]; returns [cursor.lastrowid]. The counters take their
    DEFAULT 0, the other columns are NULL. *)
Definition start_sync_session (now service : string) (t : sessions)
    : sessions * Z :=
  let id := sessions_seq t + 1 in
  (Sessions (sync_sessions t
               ++ [(id, SessionCols service now None "running" (PInt 0)
                          (PInt 0) (PInt 0) (PInt 0) None)])
            id,
   id).

Definition set_completed (now : string) (stats : gmap string pyval)
    (r : session_cols) : session_cols :=
  SessionCols (ss_service r) (ss_started_at r) (Some now) "completed"
    (dict_get stats "processed" (PInt 0))
    (dict_get stats "uploaded" (PInt 0))
    (dict_get stats "failed" (PInt 0))
    (dict_get stats "bytes_uploaded" (PInt 0))
    (ss_error_message r).

Definition update_where_id {A} (f : A → A) (id : Z) (row : Z * A) : Z * A :=
  if decide (row.1 = id) then (row.1, f row.2) else row.

(** [UPDATE sync_sessions SET completed_at = ?, status = 'completed',
    files_processed = ?, ... WHERE id = ?]. A counter that SQLite cannot
    bind raises before the statement runs. *)
Definition complete_sync_session (now : string) (session_id : Z)
    (stats : gmap string pyval) (t : sessions) : sessions * option db_error :=
  match
    check_bind "files_processed" (dict_get stats "processed" (PInt 0));;
    check_bind "files_uploaded" (dict_get stats "uploaded" (PInt 0));;
    check_bind "files_failed" (dict_get stats "failed" (PInt 0));;
    check_bind "bytes_uploaded" (dict_get stats "bytes_uploaded" (PInt 0))
  with
  | Raise e => (t, Some e)
  | Ok _ =>
      (Sessions (update_where_id (set_completed now stats) session_id
                   <$> sync_sessions t)
                (sessions_seq t),
       None)
  end.

Definition set_failed (now error_message : string) (r : session_cols)
    : session_cols :=
  SessionCols (ss_service r) (ss_started_at r) (Some now) "failed"
    (ss_files_processed r) (ss_files_uploaded r) (ss_files_failed r)
    (ss_bytes_uploaded r) (Some error_message).

(** [UPDATE sync_sessions SET completed_at = ?, status = 'failed',
    error_message = ? WHERE id = ?] *)
Definition fail_sync_session (now : string) (session_id : Z)
    (error_message : string) (t : sessions) : sessions :=
  Sessions (update_where_id (set_failed now error_message) session_id
              <$> sync_sessions t)
           (sessions_seq t).

(** ** Statistics *)

(** [ORDER BY started_at DESC]: bytewise comparison of the TEXT column; rows
    with equal keys are kept in rowid order. *)
Definition started_ge (a b : Z * session_cols) : bool :=
  String.leb (ss_started_at b.2) (ss_started_at a.2).

Definition started_not_before (a b : Z * session_cols) : Prop :=
  started_ge a b = true.

Fixpoint insert_by_started_at (r : Z * session_cols)
    (l : list (Z * session_cols)) : list (Z * session_cols) :=
  match l with
  | [] => [r]
  | x :: l' =>
      if started_ge r x then r :: x :: l' else x :: insert_by_started_at r l'
  end.

Definition order_by_started_at_desc (l : list (Z * session_cols))
    : list (Z * session_cols) :=
  foldr insert_by_started_at [] l.

(** The dictionary [get_sync_stats] returns. *)
Record sync_stats := SyncStats {
  st_synced_files : nat;
  st_pending_uploads : nat;
  st_failed_uploads : nat;
  st_recent_sessions : list (Z * session_cols)
}.

(** [if service:] takes the filtered queries for a non-empty string only. *)
Definition get_sync_stats (service : option string) (d : db) (t : sessions)
    : sync_stats :=
  if truthy service then
    let s := default "" service in
    SyncStats
      (length (filter (λ row, sf_service row.2 = s) (synced_files d)))
      (length (filter (λ row, uq_service row.2 = s ∧ uq_status row.2 = "pending")
                 (upload_queue d)))
      (length (filter (λ row, uq_service row.2 = s ∧ uq_status row.2 = "failed")
                 (upload_queue d)))
      (sql_limit 5 (order_by_started_at_desc
                      (filter (λ row, ss_service row.2 = s) (sync_sessions t))))
  else
    SyncStats
      (length (synced_files d))
      (length (filter (λ row, uq_status row.2 = "pending") (upload_queue d)))
      (length (filter (λ row, uq_status row.2 = "failed") (upload_queue d)))
      (sql_limit 5 (order_by_started_at_desc (sync_sessions t))).

End LedgerMore.

(** * More concrete inputs *)

Module MoreExamples.
Import Ledger LedgerMore.

(** The counters of a pass as the orchestrator keeps them. *)
Definition pass_stats : gmap string pyval :=
  {[ "processed" := PInt 3; "uploaded" := PInt 2; "skipped" := PInt 1;
     "bytes_uploaded" := PInt 10 ]}.

(** A session that was opened and completed. *)
Definition one_session : sessions :=
  (complete_sync_session "2024-01-01T00:10:00" 1 pass_stats
     (start_sync_session "2024-01-01T00:00:00" "drive" no_sessions).1).1.

End MoreExamples.

(** * The rest of the upload client *)

Module ClientMore.
Import Client.

(** The dictionary [get_stats] returns: a copy of [self.stats] and the
    success rate. *)
Record stats_view := StatsView {
  sv_stats : stats;
  success_rate : Q
}.

Definition get_stats (st : cstate) : stats_view :=
  StatsView (cstats st)
    (if decide (uploads_attempted (cstats st) > 0)
     then (inject_Z (uploads_succeeded (cstats st))
           / inject_Z (uploads_attempted (cstats st)))%Q
     else 0%Q).

(** The successful ones among the results of some calls. *)
Definition successes (rs : list UploadResult) : nat :=
  length (filter (λ r, success r = true) rs).

(** Calls of [upload_file] one after the other on the same client, each with
    its file name and with what its passes meet. *)
Fixpoint upload_files (cfg : config) (calls : list (string * (nat → attempt)))
    (st : cstate) : option (list UploadResult * cstate) :=
  match calls with
  | [] => Some ([], st)
  | (name, world) :: calls' =>
      match upload_file cfg name world st with
      | Some (r, st', _) =>
          match upload_files cfg calls' st' with
          | Some (rs, st'') => Some (r :: rs, st'')
          | None => None
          end
      | None => None
      end
  end.

(** A pass on which the stream rewinds and the request ends in a server
    error, a connection error or a timeout. *)
Definition transient_failure (w : attempt) : Prop :=
  at_seek w = None
  ∧ match at_post w with
    | inl e => is_connection_error e || is_timeout e = true
    | inr resp => server_error (status_code resp) = true
    end.

(** Requests and back-off sleeps of a call that fails [n] times before its
    last request. *)
Definition backoff_schedule (cfg : config) (world : nat → attempt) (n : nat)
    : list io_event :=
  (flat_map (λ i, [EvPost;
                   EvSleep (_calculate_backoff cfg (Z.of_nat i)
                              (at_random (world i)))])
     (seq 0 n)
   ++ [EvPost])%list.

End ClientMore.

(** * The queue pass of the orchestrator ([main.py]) *)

Module Orchestrator.
Import Ledger.

(** What downloading and uploading one queued item comes to, as far as the
    ledger is told: the [UploadResult] of [upload_file], or the text of an
    exception raised before there was one. *)
Inductive item_outcome :=
| Uploaded (success : bool) (file_id error_message : option string)
| Raised (text : string).

(** What the pass meets when it comes to one item: [self.running], the
    clock at the status update and at the one in the exception handler, and
    the outcome for the item. *)
Record item_env := ItemEnv {
  ie_running : bool;
  ie_now : string;
  ie_now_handler : string;
  ie_outcome : item_outcome
}.

Definition known_service (row : Z * queue_cols) : Prop :=
  uq_service row.2 = "drive" ∨ uq_service row.2 = "photos".

#[global] Instance known_service_dec row : Decision (known_service row).
Proof. unfold known_service; apply _. Defined.

Section Pass.

(** [str(e)] for an exception of the ledger. *)
Variable error_text : db_error → string.

(** The body of the [for] loop after the [self.running] check. An exception
    of the first status update is caught with the others and recorded by a
    second one. *)
Definition process_item (env : item_env) (item : Z * queue_cols) (d : db) : db :=
  if decide (known_service item) then
    match ie_outcome env with
    | Uploaded true file_id _ =>
        match update_upload_status (ie_now env) item.1 "completed" None
                file_id d with
        | (d', None) => d'
        | (d', Some e) =>
            (update_upload_status (ie_now_handler env) item.1 "failed"
               (Some (error_text e)) None d').1
        end
    | Uploaded false _ error_message =>
        (update_upload_status (ie_now env) item.1 "failed" error_message None
           d).1
    | Raised text =>
        (update_upload_status (ie_now_handler env) item.1 "failed" (Some text)
           None d).1
    end
  else d.

(** [for item in pending: if not self.running: break ...], the [i]-th
    item meeting [env i]. *)
Fixpoint process_items (env : nat → item_env) (i : nat)
    (pending : list (Z * queue_cols)) (d : db) : db :=
  match pending with
  | [] => d
  | item :: rest =>
      if ie_running (env i)
      then process_items env (S i) rest (process_item (env i) item d)
      else d
  end.

(** [get_pending_uploads()] is called with its default limit of 100. *)
Definition process_upload_queue (env : nat → item_env) (d : db) : db :=
  process_items env 0 (get_pending_uploads 100 d) d.

End Pass.

(** No row of this rowid is waiting for an upload. *)
Definition settled (queue_id : Z) (d : db) : Prop :=
  Forall (λ row, row.1 = queue_id → ¬ is_pending row) (upload_queue d).

End Orchestrator.

Module PassExamples.
Import Ledger Orchestrator.

(** The text of a ledger exception. *)
Definition error_text (e : db_error) : string :=
  match e with
  | BindingError column => "Error binding parameter " +:+ column
  | IntegrityError constraint => "NOT NULL constraint failed: " +:+ constraint
  | OperationalError msg => msg
  end.

(** A pass whose first upload succeeds and whose later downloads fail. *)
Definition first_uploaded (i : nat) : item_env :=
  ItemEnv true "2024-01-01T00:01:00" "2024-01-01T00:01:01"
    match i with
    | O => Uploaded true (Some "s1") None
    | S _ => Raised "download failed"
    end.

End PassExamples.

(** * The rate-limit table of the ledger *)

Module RateLimit.

(** A row of [rate_limit_state].  The TEXT columns that hold a time keep
    the naive [datetime] written into them, in microseconds: [isoformat]
    followed by [fromisoformat] gives a naive [datetime] back unchanged. *)
Record rate_cols := RateCols {
  rl_endpoint : string;
  rl_last_request_at : option Z;
  rl_request_count : Z;
  rl_window_start : option Z;
  rl_backoff_until : option Z
}.

Record rate_table := RateTable {
  rate_limit_state : list (Z * rate_cols);
  rate_seq : Z
}.

Definition no_limits : rate_table := RateTable [] 0.

Definition endpoint_conflict (endpoint : string) (row : Z * rate_cols) : Prop :=
  rl_endpoint row.2 = endpoint.

#[global] Instance endpoint_conflict_dec endpoint row :
  Decision (endpoint_conflict endpoint row).
Proof. unfold endpoint_conflict; apply _. Defined.

Section LocalTime.
(** [datetime.timestamp] of a naive [datetime] and [datetime.fromtimestamp]
    both go through the local time zone of the machine. *)
Variable timestamp : Z → Z.
Variable fromtimestamp : Z → Z.

(** [utcnow] and [utcnow'] are the two readings of [datetime.utcnow()], in
    the order of evaluation. *)
Definition set_rate_limit_backoff (utcnow utcnow' : Z) (endpoint : string)
    (backoff_seconds : Z) (t : rate_table) : rate_table :=
  let backoff_until := (timestamp utcnow + 1000000 * backoff_seconds)%Z in
  let backoff_until_iso := fromtimestamp backoff_until in
  RateTable
    (filter (λ row, ¬ endpoint_conflict endpoint row) (rate_limit_state t)
     ++ [((rate_seq t + 1)%Z,
          RateCols endpoint (Some utcnow') 0 None (Some backoff_until_iso))])%list
    (rate_seq t + 1)%Z.

End LocalTime.

Definition is_rate_limited (utcnow : Z) (endpoint : string) (t : rate_table)
    : bool :=
  match filter (endpoint_conflict endpoint) (rate_limit_state t) with
  | [] => false
  | row :: _ =>
      match rl_backoff_until row.2 with
      | None => false
      | Some backoff_until => bool_decide (utcnow < backoff_until)%Z
      end
  end.

Definition endpoint_unique (t : rate_table) : Prop :=
  NoDup (rl_endpoint ∘ snd <$> rate_limit_state t).

End RateLimit.

(** * Paths of Drive files *)

Module Drive.

(** What [files().get(...).execute()] returns: the keys 'name' and
    'parents' of the file resource, each present or not. *)
Record drive_file := DriveFile {
  df_name : option string;
  df_parents : option (list string)
}.

Inductive path_outcome :=
| Returned (path : string)
| IndexError.

Inductive walk_result :=
| WHttpError
| WIndexError
| WDone (path_parts : list string).

Definition max_depth : nat := 10.

Section Service.
(** The answer of the service to the request number [call] of this call of
    [get_file_path], for a file id; [None] is an [HttpError]. *)
Variable files_get : nat → string → option drive_file.

(** The [while] loop, with [left = max_depth - depth]; the second component
    lists the ids requested. *)
Fixpoint walk (left : nat) (call : nat) (current_file : drive_file)
    (path_parts : list string) : walk_result * list string :=
  match df_parents current_file, left with
  | Some parents, S left' =>
      match parents with
      | [] => (WIndexError, [])
      | parent_id :: _ =>
          match files_get call parent_id with
          | None => (WHttpError, [parent_id])
          | Some parent =>
              let r := walk left' (S call) parent
                         (default "Unknown" (df_name parent) :: path_parts) in
              (r.1, parent_id :: r.2)
          end
      end
  | _, _ => (WDone path_parts, [])
  end.

Definition get_file_path (file_id file_name : string)
    : path_outcome * list string :=
  match files_get 0 file_id with
  | None => (Returned file_name, [file_id])
  | Some current_file =>
      let r := walk max_depth 1 current_file [file_name] in
      (match r.1 with
       | WDone path_parts => Returned (String.concat "/" path_parts)
       | WHttpError => Returned file_name
       | WIndexError => IndexError
       end, file_id :: r.2)
  end.

End Service.

(** The folders above a file in a Drive that does not change, nearest
    first, each with the name [get_file_path] uses for it. *)
Inductive ancestors (drive : string → option drive_file)
    : drive_file → list string → Prop :=
| ancestors_top current_file :
    df_parents current_file = None → ancestors drive current_file []
| ancestors_up current_file parent_id others parent names :
    df_parents current_file = Some (parent_id :: others) →
    drive parent_id = Some parent →
    ancestors drive parent names →
    ancestors drive current_file (default "Unknown" (df_name parent) :: names).

End Drive.

Module DriveExamples.
Import Drive.

(** A file in folder [docs] of the root folder [My Drive]. *)
Definition small_drive (file_id : string) : option drive_file :=
  if decide (file_id = "f") then Some (DriveFile (Some "a.txt") (Some ["d"]))
  else if decide (file_id = "d") then Some (DriveFile (Some "docs") (Some ["r"]))
  else if decide (file_id = "r") then Some (DriveFile (Some "My Drive") None)
  else None.

End DriveExamples.

(** * The Drive pass of the orchestrator *)

Module DrivePass.
Import Ledger LedgerMore.

Definition workspace_prefix : string := "application/vnd.google-apps.".

(** ** [GoogleDriveSync.list_all_files] *)

(** An answer of [files().list(...).execute()]. *)
Record page := Page {
  pg_files : list (gmap string pyval);
  pg_nextPageToken : option string
}.

Inductive listing_end :=
| Exhausted
| ListingRaised (text : string)
| MorePages.

Section Listing.
(** The text of the AttributeError that [.startswith] raises on a value
    that is not a string. *)
Variable attribute_error : pyval → string.
(** The answer to the request number [call] with a page token; [inl] is
    the text of an [HttpError]. *)
Variable files_list : nat → option string → string + page.

(** The [for] loop over a page: the files yielded, and the text of the
    exception that ended the loop, if any. *)
Fixpoint yield_files (files : list (gmap string pyval))
    : list (gmap string pyval) * option string :=
  match files with
  | [] => ([], None)
  | file :: rest =>
      match dict_get file "mimeType" (PStr "") with
      | PStr mime_type =>
          if String.prefix workspace_prefix mime_type then yield_files rest
          else let r := yield_files rest in (file :: r.1, r.2)
      | v => ([], Some (attribute_error v))
      end
  end.

(** The generator run for at most [fuel] pages: what it yields, in order,
    and how it ends. *)
Fixpoint list_all_files (fuel : nat) (call : nat) (page_token : option string)
    : list (gmap string pyval) * listing_end :=
  match fuel with
  | O => ([], MorePages)
  | S fuel' =>
      match files_list call page_token with
      | inl text => ([], ListingRaised text)
      | inr results =>
          let y := yield_files (pg_files results) in
          match y.2 with
          | Some text => (y.1, ListingRaised text)
          | None =>
              if truthy (pg_nextPageToken results)
              then let r := list_all_files fuel' (S call)
                              (pg_nextPageToken results) in
                   ((y.1 ++ r.1)%list, r.2)
              else (y.1, Exhausted)
          end
      end
  end.

End Listing.

(** ** [GoogleWorkspaceExporter] *)

Definition EXPORT_FORMATS : list (string * (string * string)) :=
  [ ("application/vnd.google-apps.document",
     ("application/vnd.openxmlformats-officedocument.wordprocessingml.document",
      ".docx"));
    ("application/vnd.google-apps.spreadsheet",
     ("application/vnd.openxmlformats-officedocument.spreadsheetml.sheet",
      ".xlsx"));
    ("application/vnd.google-apps.presentation",
     ("application/vnd.openxmlformats-officedocument.presentationml.presentation",
      ".pptx"));
    ("application/vnd.google-apps.drawing", ("application/pdf", ".pdf")) ].

Definition can_export (mime_type : string) : bool :=
  bool_decide (mime_type ∈ EXPORT_FORMATS.*1).

(** ** [GoogleSiloSync.sync_google_drive] *)

Inductive outcome (A : Type) :=
| Returns (a : A)
| Raises (text : string).
Arguments Returns {A} a.
Arguments Raises {A} text.

(** The [stats] dictionary of a pass. *)
Record counters := Counters {
  c_processed : Z;
  c_uploaded : Z;
  c_failed : Z;
  c_skipped : Z;
  c_bytes_uploaded : Z
}.

Definition no_counts : counters := Counters 0 0 0 0 0.

Definition stats_dict (c : counters) : gmap string pyval :=
  {[ "processed" := PInt (c_processed c); "uploaded" := PInt (c_uploaded c);
     "failed" := PInt (c_failed c); "skipped" := PInt (c_skipped c);
     "bytes_uploaded" := PInt (c_bytes_uploaded c) ]}.

Definition bump_processed (c : counters) : counters :=
  Counters (c_processed c + 1) (c_uploaded c) (c_failed c) (c_skipped c)
    (c_bytes_uploaded c).

Definition bump_uploaded (c : counters) : counters :=
  Counters (c_processed c) (c_uploaded c + 1) (c_failed c) (c_skipped c)
    (c_bytes_uploaded c).

Definition bump_failed (c : counters) : counters :=
  Counters (c_processed c) (c_uploaded c) (c_failed c + 1) (c_skipped c)
    (c_bytes_uploaded c).

Definition bump_skipped (c : counters) : counters :=
  Counters (c_processed c) (c_uploaded c) (c_failed c) (c_skipped c + 1)
    (c_bytes_uploaded c).

Definition add_bytes (n : Z) (c : counters) : counters :=
  Counters (c_processed c) (c_uploaded c) (c_failed c) (c_skipped c)
    (c_bytes_uploaded c + n).

(** What the world outside the ledger does while one file is handled:
    the flag the signal handler clears, the calls to Drive and to the
    upload client ([success] and [file_id] of the result), the size the
    buffer tells, and the clock readings of the ledger writes of the [try]
    block and of its handler. *)
Record file_env := FileEnv {
  fe_running : bool;
  fe_export : outcome unit;
  fe_path : outcome string;
  fe_download : outcome unit;
  fe_upload : outcome (bool * option string);
  fe_tell : outcome Z;
  fe_now : string;
  fe_now_handler : string
}.

Record pass_result := PassResult {
  pr_db : db;
  pr_sessions : sessions;
  pr_stats : counters;
  pr_raised : option string
}.

Section Pass.
Variable error_text : db_error → string.
Variable attribute_error : pyval → string.
Variable bucket : string.
Variable export_workspace_files : bool.

(** The handler [except Exception] of a regular file. *)
Definition queue_for_retry (env : file_env) (file_id : string)
    (file : gmap string pyval) (c : counters) (d : db)
    : (counters * db) * option string :=
  let c := bump_failed c in
  match add_to_upload_queue (fe_now_handler env) file_id "drive" file bucket
          None d with
  | (d', None) => ((c, d'), None)
  | (d', Some e) => ((c, d'), Some (error_text e))
  end.

Definition sync_regular (env : file_env) (file_id : string)
    (file : gmap string pyval) (c : counters) (d : db)
    : (counters * db) * option string :=
  match fe_path env with
  | Raises _ => queue_for_retry env file_id file c d
  | Returns file_path =>
      let file := <["path" := PStr file_path]> file in
      match fe_download env with
      | Raises _ => queue_for_retry env file_id file c d
      | Returns _ =>
          match fe_upload env with
          | Raises _ => queue_for_retry env file_id file c d
          | Returns (true, silo_file_id) =>
              let c := bump_uploaded c in
              match fe_tell env with
              | Raises _ => queue_for_retry env file_id file c d
              | Returns size =>
                  let c := add_bytes size c in
                  match mark_file_synced (fe_now env) file_id "drive" file
                          silo_file_id (Some bucket) d with
                  | (d', None) => ((c, d'), None)
                  | (d', Some _) => queue_for_retry env file_id file c d'
                  end
              end
          | Returns (false, _) =>
              let c := bump_failed c in
              match add_to_upload_queue (fe_now env) file_id "drive" file
                      bucket None d with
              | (d', None) => ((c, d'), None)
              | (d', Some _) => queue_for_retry env file_id file c d'
              end
          end
      end
  end.

Definition sync_workspace (env : file_env) (file_id : string)
    (file : gmap string pyval) (mime_type : string) (c : counters) (d : db)
    : (counters * db) * option string :=
  if export_workspace_files && can_export mime_type then
    match fe_export env with
    | Raises _ => ((bump_failed c, d), None)
    | Returns _ =>
        match fe_upload env with
        | Raises _ => ((bump_failed c, d), None)
        | Returns (true, silo_file_id) =>
            let c := bump_uploaded c in
            match mark_file_synced (fe_now env) file_id "drive" file
                    silo_file_id (Some bucket) d with
            | (d', None) => ((c, d'), None)
            | (d', Some _) => ((bump_failed c, d'), None)
            end
        | Returns (false, _) => ((bump_failed c, d), None)
        end
    end
  else ((bump_skipped c, d), None).

(** The body of the [for] loop for a file and its 'id'; the third
    component is the text of an exception that leaves the loop. *)
Definition process_file (env : file_env) (item : string * gmap string pyval)
    (c : counters) (d : db) : (counters * db) * option string :=
  let c := bump_processed c in
  if is_file_synced d item.1 "drive" then ((bump_skipped c, d), None)
  else
    match dict_get item.2 "mimeType" PNone with
    | PStr mime_type =>
        if String.prefix workspace_prefix mime_type
        then sync_workspace env item.1 item.2 mime_type c d
        else sync_regular env item.1 item.2 c d
    | v => ((c, d), Some (attribute_error v))
    end.

(** The [for] loop over what the listing yields; [listing_raises] is the
    exception the listing ends with, if it does. *)
Fixpoint sync_files (env : nat → file_env) (i : nat)
    (files : list (string * gmap string pyval)) (listing_raises : option string)
    (c : counters) (d : db) : (counters * db) * option string :=
  match files with
  | [] => ((c, d), listing_raises)
  | item :: rest =>
      if fe_running (env i) then
        match process_file (env i) item c d with
        | (s, None) => sync_files env (S i) rest listing_raises s.1 s.2
        | (s, Some text) => (s, Some text)
        end
      else ((c, d), None)
  end.

(** The pass, from [start_sync_session] on. [files] pairs each file the
    listing yields with its 'id', a string for every file resource of
    Drive. *)
Definition sync_google_drive (now_start now_end now_fail : string)
    (env : nat → file_env) (files : list (string * gmap string pyval))
    (listing_raises : option string) (d : db) (t : sessions) : pass_result :=
  let started := start_sync_session now_start "drive" t in
  match sync_files env 0 files listing_raises no_counts d with
  | ((c, d'), None) =>
      match complete_sync_session now_end started.2 (stats_dict c) started.1
      with
      | (t', None) => PassResult d' t' c None
      | (t', Some e) =>
          PassResult d'
            (fail_sync_session now_fail started.2 (error_text e) t') c
            (Some (error_text e))
      end
  | ((c, d'), Some text) =>
      PassResult d' (fail_sync_session now_fail started.2 text started.1) c
        (Some text)
  end.

End Pass.

(** A file whose 'mimeType' sends it to the export branch. *)
Definition is_workspace (file : gmap string pyval) : bool :=
  match dict_get file "mimeType" PNone with
  | PStr mime_type => String.prefix workspace_prefix mime_type
  | _ => false
  end.

(** A file is kept when the ledger has it as synced or queued for retry. *)
Definition kept (d : db) (file_id : string) : Prop :=
  is_file_synced d file_id "drive" = true
  ∨ Exists (λ row, has_queue_key file_id "drive" row
                   ∧ uq_status row.2 = "pending") (upload_queue d).

End DrivePass.

Module DrivePassExamples.
Import Ledger DrivePass.

Definition photo : gmap string pyval :=
  {[ "id" := PStr "p1"; "name" := PStr "p.jpg"; "mimeType" := PStr "image/jpeg" ]}.

Definition notes : gmap string pyval :=
  {[ "id" := PStr "n1"; "name" := PStr "notes.txt";
     "mimeType" := PStr "text/plain" ]}.

Definition sheet : gmap string pyval :=
  {[ "id" := PStr "s1"; "name" := PStr "budget";
     "mimeType" := PStr "application/vnd.google-apps.spreadsheet" ]}.

(** The first file is uploaded, the download of every later one fails. *)
Definition first_goes_through (i : nat) : file_env :=
  FileEnv true (Returns tt) (Returns "My Drive/p.jpg")
    match i with O => Returns tt | S _ => Raises "download failed" end
    (Returns (true, Some "silo-1")) (Returns 2048)
    "2024-01-01T00:00:01" "2024-01-01T00:00:02".

(** One page with the three files. *)
Definition one_page (call : nat) (page_token : option string) : string + page :=
  inr (Page [photo; sheet; notes] None).

Definition attribute_error (v : pyval) : string :=
  "object has no attribute 'startswith'".

End DrivePassExamples.

(** * Properties of the ledger *)

Module LedgerSpec.
Import Ledger.

Lemma call_single c s d :
  call [Exec c s; Commit c; Close c] d =
  match exec s d with
  | Ok d' => (d', None)
  | Raise e => (d, Some e)
  end.
Proof.
  unfold call. cbn [run step txn durable]. unfold mbind, res_bind.
  destruct (exec s d) as [d'|e]; cbn; [|done].
  rewrite decide_True by done. cbn. done.
Qed.

Lemma exec_insert_synced r d d' :
  exec (InsertOrReplaceSynced r) d = Ok d' →
  d' = Db (filter (λ row, ¬ synced_conflict r row.2) (synced_files d)
             ++ [(synced_seq d + 1, r)])
          (synced_seq d + 1) (upload_queue d) (queue_seq d).
Proof.
  unfold exec, check_bind, check_not_null, mbind, res_bind.
  repeat case_match; intros [= <-]; done.
Qed.

Lemma exec_insert_queue r d d' :
  exec (InsertOrReplaceQueue r) d = Ok d' →
  d' = Db (synced_files d) (synced_seq d)
          (filter (λ row, ¬ queue_conflict r row.2) (upload_queue d)
             ++ [(queue_seq d + 1, r)])
          (queue_seq d + 1).
Proof.
  unfold exec, check_bind, check_not_null, mbind, res_bind.
  repeat case_match; intros [= <-]; done.
Qed.

Lemma mark_file_synced_ok now g s fi silo bucket d d' :
  mark_file_synced now g s fi silo bucket d = (d', None) →
  d' = Db (filter (λ row, ¬ synced_conflict
                              (synced_row_of now g s fi silo bucket) row.2)
                  (synced_files d)
             ++ [(synced_seq d + 1, synced_row_of now g s fi silo bucket)])
          (synced_seq d + 1) (upload_queue d) (queue_seq d).
Proof.
  unfold mark_file_synced, mark_file_synced_events. rewrite call_single.
  destruct (exec _ d) as [d''|e] eqn:E; [|done].
  intros [= <-]. by apply exec_insert_synced.
Qed.

Lemma add_to_upload_queue_ok now g s fi bucket url d d' :
  add_to_upload_queue now g s fi bucket url d = (d', None) →
  d' = Db (synced_files d) (synced_seq d)
          (filter (λ row, ¬ queue_conflict
                              (queue_row_of now g s fi bucket url) row.2)
                  (upload_queue d)
             ++ [(queue_seq d + 1, queue_row_of now g s fi bucket url)])
          (queue_seq d + 1).
Proof.
  unfold add_to_upload_queue, add_to_upload_queue_events. rewrite call_single.
  destruct (exec _ d) as [d''|e] eqn:E; [|done].
  intros [= <-]. by apply exec_insert_queue.
Qed.

Lemma filter_none {A} (P : A → Prop) `{∀ x, Decision (P x)} (l : list A) :
  (∀ x, x ∈ l → ¬ P x) → filter P l = [].
Proof.
  induction l as [|a l IH]; intros Hl; [done|].
  rewrite filter_cons_False by (apply Hl; left).
  apply IH. intros x Hx. apply Hl. by right.
Qed.

Lemma filter_one {A} (P : A → Prop) `{∀ x, Decision (P x)} (x : A) :
  filter P [x] = if decide (P x) then [x] else [].
Proof. exact (filter_singleton P x []). Qed.

(** After a successful [mark_file_synced] the new record is the only one of
    its [google_id], whatever was there before. *)
Lemma mark_file_synced_rows now g s fi silo bucket d d' :
  mark_file_synced now g s fi silo bucket d = (d', None) →
  filter (λ row, sf_google_id row.2 = g) (synced_files d')
  = [(synced_seq d + 1, synced_row_of now g s fi silo bucket)].
Proof.
  intros ->%mark_file_synced_ok. cbn [synced_files].
  rewrite filter_app, filter_one, decide_True by done.
  rewrite filter_none; [done|].
  intros row [Hc _]%list_elem_of_filter Hg. apply Hc. left. exact Hg.
Qed.



(** C9. [google_id] is UNIQUE on its own in [synced_files]: marking an id
    under a second service replaces the record of the first service. After
    [mark_file_synced(id, s1, ...)] and then [mark_file_synced(id, s2, ...)]
    with [s1 ≠ s2], the table holds exactly one record for [id]; it is synced
    for [s2] and no longer for [s1]. *)
Theorem mark_file_synced_other_service
    now1 now2 g s1 s2 fi1 fi2 silo1 silo2 bucket1 bucket2 d d1 d2 :
  s1 ≠ s2 →
  mark_file_synced now1 g s1 fi1 silo1 bucket1 d = (d1, None) →
  mark_file_synced now2 g s2 fi2 silo2 bucket2 d1 = (d2, None) →
  filter (λ row, sf_google_id row.2 = g) (synced_files d2)
  = [(synced_seq d1 + 1, synced_row_of now2 g s2 fi2 silo2 bucket2)]
  ∧ is_file_synced d1 g s1 = true
  ∧ is_file_synced d2 g s2 = true
  ∧ is_file_synced d2 g s1 = false.
Proof.
  intros Hne H1 H2.
  pose proof (mark_file_synced_rows _ _ _ _ _ _ _ _ H2) as Hrows.
  assert (∀ s, synced_rows d2 g s
               = filter (λ row, sf_service row.2 = s)
                   [(synced_seq d1 + 1,
                     synced_row_of now2 g s2 fi2 silo2 bucket2)]) as Hs.
  { intros s. unfold synced_rows.
    rewrite (list_filter_iff _ (λ row, sf_service row.2 = s
                                       ∧ sf_google_id row.2 = g))
      by (unfold has_key; tauto).
    by rewrite <- list_filter_filter, Hrows. }
  split; [exact Hrows|]. split; [|split].
  - unfold is_file_synced, synced_count.
    apply mark_file_synced_ok in H1 as ->. cbn [synced_files].
    rewrite filter_app, filter_one, decide_True by done.
    rewrite length_app. cbn. apply bool_decide_eq_true. lia.
  - unfold is_file_synced, synced_count. fold (synced_rows d2 g s2).
    rewrite Hs, filter_one, decide_True by done. done.
  - unfold is_file_synced, synced_count. fold (synced_rows d2 g s1).
    rewrite Hs, filter_one, decide_False by (cbn; congruence). done.
Qed.

Lemma mark_file_synced_other_service_witness :
  filter (λ row, sf_google_id row.2 = "A") (synced_files Examples.marked_photos)
  = [(synced_seq Examples.marked_once + 1,
      synced_row_of "2024-01-01T00:00:03" "A" "photos" Examples.info_b
        (Some "s3") (Some "b3"))]
  ∧ is_file_synced Examples.marked_once "A" "drive" = true
  ∧ is_file_synced Examples.marked_photos "A" "photos" = true
  ∧ is_file_synced Examples.marked_photos "A" "drive" = false.
Proof.
  apply (mark_file_synced_other_service "2024-01-01T00:00:01"
           "2024-01-01T00:00:03" "A" "drive" "photos" Examples.info_a
           Examples.info_b (Some "s1") (Some "s3") None (Some "b3") empty_db);
    [discriminate | vm_compute; reflexivity | vm_compute; reflexivity].
Defined.

(** C2, as stated, fails: an item that failed once (retry_count 1) and is
    queued again by [add_to_upload_queue] comes back with retry_count 0. *)
Lemma add_to_upload_queue_forgets_retry_count :
  (λ row, (row.1, uq_status row.2, uq_retry_count row.2))
    <$> queue_rows Examples.failed_once "A" "drive" = [(1, "failed", 1)]
  ∧ (λ row, (row.1, uq_status row.2, uq_retry_count row.2))
      <$> queue_rows Examples.queued_again "A" "drive" = [(2, "pending", 0)].
Proof. split; vm_compute; reflexivity. Qed.

(** C2, amended. A successful [add_to_upload_queue] leaves exactly one queue
    row for the pair, whether or not one existed: the new row, under a
    fresh rowid, with status 'pending', retry_count 0, no last_error and
    created_at set to the time of the call. INSERT OR REPLACE drops the old
    row and nothing of it is kept. *)
Theorem add_to_upload_queue_one_fresh_row now g s fi bucket url d d' :
  add_to_upload_queue now g s fi bucket url d = (d', None) →
  ∃ r, queue_rows d' g s = [(queue_seq d + 1, r)]
       ∧ r = queue_row_of now g s fi bucket url
       ∧ uq_status r = "pending"
       ∧ uq_retry_count r = 0
       ∧ uq_last_error r = None
       ∧ uq_created_at r = now.
Proof.
  intros ->%add_to_upload_queue_ok.
  exists (queue_row_of now g s fi bucket url). split; [|done].
  unfold queue_rows. cbn [upload_queue].
  rewrite filter_app, filter_one, decide_True by done.
  rewrite filter_none; [done|].
  intros row [Hc _]%list_elem_of_filter Hk. apply Hc. exact Hk.
Qed.

Lemma add_to_upload_queue_one_fresh_row_witness :
  ∃ r, queue_rows Examples.queued_again "A" "drive"
       = [(queue_seq Examples.failed_once + 1, r)]
       ∧ r = queue_row_of "2024-01-01T00:00:09" "A" "drive" Examples.info_a
               "files" None
       ∧ uq_status r = "pending"
       ∧ uq_retry_count r = 0
       ∧ uq_last_error r = None
       ∧ uq_created_at r = "2024-01-01T00:00:09".
Proof.
  apply (add_to_upload_queue_one_fresh_row "2024-01-01T00:00:09" "A" "drive"
           Examples.info_a "files" None Examples.failed_once).
  vm_compute; reflexivity.
Defined.

(** *** Ordering of the pending rows *)

Lemma string_compare_trans s1 : ∀ s2 s3,
  String.compare s1 s2 ≠ Gt → String.compare s2 s3 ≠ Gt →
  String.compare s1 s3 ≠ Gt.
Proof.
  induction s1 as [|a s1 IH]; intros [|b s2] [|c s3]; cbn; try done.
  unfold Ascii.compare.
  destruct (N.compare_spec (N_of_ascii a) (N_of_ascii b)) as [Hab|Hab|Hab];
    destruct (N.compare_spec (N_of_ascii b) (N_of_ascii c)) as [Hbc|Hbc|Hbc];
    destruct (N.compare_spec (N_of_ascii a) (N_of_ascii c)) as [Hac|Hac|Hac];
    try done; try lia.
  intros; by eapply IH.
Qed.

Lemma string_leb_trans s1 s2 s3 :
  String.leb s1 s2 = true → String.leb s2 s3 = true → String.leb s1 s3 = true.
Proof.
  unfold String.leb. intros H1 H2.
  pose proof (string_compare_trans s1 s2 s3) as H.
  destruct (String.compare s1 s2), (String.compare s2 s3),
    (String.compare s1 s3); try done; exfalso; by apply H.
Qed.

Lemma created_before_trans a b c :
  created_before a b → created_before b c → created_before a c.
Proof. unfold created_before, created_le. apply string_leb_trans. Qed.

Lemma created_before_total a b : created_le a b = false → created_before b a.
Proof.
  unfold created_before, created_le. intros H.
  destruct (String.leb_total (uq_created_at a.2) (uq_created_at b.2));
    congruence.
Qed.

Lemma insert_by_created_at_perm r l : insert_by_created_at r l ≡ₚ r :: l.
Proof.
  induction l as [|x l IH]; cbn; [done|].
  destruct (created_le r x); [done|]. rewrite IH. apply Permutation_swap.
Qed.

Lemma order_by_created_at_perm l : order_by_created_at l ≡ₚ l.
Proof.
  induction l as [|x l IH]; cbn; [done|].
  by rewrite insert_by_created_at_perm, IH.
Qed.

Lemma insert_by_created_at_sorted r l :
  StronglySorted created_before l →
  StronglySorted created_before (insert_by_created_at r l).
Proof.
  induction l as [|x l IH]; cbn; intros Hl; [repeat constructor|].
  apply StronglySorted_cons in Hl as [Hx Hl].
  destruct (created_le r x) eqn:Hrx.
  - apply StronglySorted_cons. split; [|by apply StronglySorted_cons].
    constructor; [exact Hrx|].
    eapply Forall_impl; [exact Hx|]. intros y Hy.
    by eapply created_before_trans.
  - apply StronglySorted_cons. split; [|by apply IH].
    rewrite insert_by_created_at_perm. constructor; [|done].
    by apply created_before_total.
Qed.

Lemma order_by_created_at_sorted l :
  StronglySorted created_before (order_by_created_at l).
Proof.
  induction l as [|x l IH]; cbn; [constructor|].
  by apply insert_by_created_at_sorted.
Qed.

Lemma sql_limit_sublist {A} limit (l : list A) : sql_limit limit l `sublist_of` l.
Proof. unfold sql_limit. case_decide; [done|apply sublist_take]. Qed.

Lemma sql_limit_sorted {A} (R : relation A) limit (l : list A) :
  StronglySorted R l → StronglySorted R (sql_limit limit l).
Proof.
  unfold sql_limit. case_decide; [done|]. intros Hl.
  rewrite <- (take_drop (Z.to_nat limit) l) in Hl.
  by apply StronglySorted_app_1_l in Hl.
Qed.

(** *** What the status update leaves alone *)

Lemma touch_id status err now q row : (touch status err now q row).1 = row.1.
Proof. unfold touch. by case_decide. Qed.

Lemma touch_created_at status err now q row :
  uq_created_at (touch status err now q row).2 = uq_created_at row.2.
Proof. unfold touch. by case_decide. Qed.

Lemma update_upload_status_plain now q status err silo d :
  bool_decide (status = "completed") && truthy silo = false →
  update_upload_status now q status err silo d
  = (Db (synced_files d) (synced_seq d)
        (touch status err now q <$> upload_queue d) (queue_seq d), None).
Proof.
  intros Hb. unfold update_upload_status, update_upload_status_events.
  rewrite Hb, call_single. done.
Qed.

Lemma insert_by_created_at_map (f : Z * queue_cols → Z * queue_cols) r l :
  (∀ x, uq_created_at (f x).2 = uq_created_at x.2) →
  insert_by_created_at (f r) (f <$> l) = f <$> insert_by_created_at r l.
Proof.
  intros Hf. induction l as [|x l IH]; cbn; [done|].
  unfold created_le. rewrite !Hf.
  destruct (String.leb _ _); cbn; [done|]. by rewrite IH.
Qed.

Lemma order_by_created_at_map (f : Z * queue_cols → Z * queue_cols) l :
  (∀ x, uq_created_at (f x).2 = uq_created_at x.2) →
  order_by_created_at (f <$> l) = f <$> order_by_created_at l.
Proof.
  intros Hf. induction l as [|x l IH]; cbn; [done|].
  unfold order_by_created_at in IH. rewrite IH.
  by apply insert_by_created_at_map.
Qed.

Lemma filter_map_stable {A} (P : A → Prop) `{∀ x, Decision (P x)}
    (f : A → A) (l : list A) :
  (∀ x, x ∈ l → P (f x) ↔ P x) →
  filter P (f <$> l) = f <$> filter P l.
Proof.
  induction l as [|x l IH]; intros Hl; [done|]. rewrite fmap_cons.
  assert (filter P (f <$> l) = f <$> filter P l) as IH'.
  { apply IH. intros y Hy. apply Hl. by right. }
  rewrite !filter_cons, IH'.
  destruct (decide (P x)) as [Hx|Hx].
  - rewrite decide_True by (apply Hl; [left|done]). done.
  - rewrite decide_False by (rewrite Hl; [done|left]). done.
Qed.

Lemma sql_limit_map {A B} (f : A → B) limit (l : list A) :
  sql_limit limit (f <$> l) = f <$> sql_limit limit l.
Proof. unfold sql_limit. case_decide; [done|]. symmetry. apply fmap_take. Qed.

(** C8, as stated, fails for a negative limit, which SQLite reads as
    "no limit": with one pending row, [get_pending_uploads(-1)] returns one
    row, more than [-1]. *)
Lemma get_pending_uploads_negative_limit :
  length (get_pending_uploads (-1) Examples.queued_once) = 1%nat
  ∧ ¬ (Z.of_nat (length (get_pending_uploads (-1) Examples.queued_once)) ≤ -1)%Z.
Proof. split; [vm_compute; reflexivity|]. vm_compute. by intros H. Qed.

(** C8, amended. For every queue state and every limit [0 ≤ L],
    [get_pending_uploads] returns rows of the queue whose status is
    'pending' or 'retrying', ordered by created_at ascending, at most [L] of
    them. A status update that is not a promotion leaves every row's
    created_at and rowid alone; when it sets 'pending' or 'retrying' on a row
    that was pending, the same rowids are returned in the same order. *)
Theorem get_pending_uploads_spec limit d :
  (0 ≤ limit)%Z →
  Forall is_pending (get_pending_uploads limit d)
  ∧ get_pending_uploads limit d ⊆ upload_queue d
  ∧ StronglySorted created_before (get_pending_uploads limit d)
  ∧ (Z.of_nat (length (get_pending_uploads limit d)) ≤ limit)%Z
  ∧ ∀ now q status err silo,
      bool_decide (status = "completed") && truthy silo = false →
      let d' := (update_upload_status now q status err silo d).1 in
      (λ row, (row.1, uq_created_at row.2)) <$> upload_queue d'
      = (λ row, (row.1, uq_created_at row.2)) <$> upload_queue d
      ∧ (status = "pending" ∨ status = "retrying" →
         (∀ row, row ∈ upload_queue d → row.1 = q → is_pending row) →
         (get_pending_uploads limit d').*1 = (get_pending_uploads limit d).*1).
Proof.
  intros Hlimit. unfold get_pending_uploads.
  set (pending := filter is_pending (upload_queue d)).
  assert (sql_limit limit (order_by_created_at pending) ⊆ pending) as Hsub.
  { intros row Hrow.
    apply (sublist_subseteq _ _ (sql_limit_sublist _ _)) in Hrow.
    by rewrite order_by_created_at_perm in Hrow. }
  split; [|split; [|split; [|split]]].
  - apply Forall_forall. intros row Hrow%Hsub.
    by apply list_elem_of_filter in Hrow as [? _].
  - intros row Hrow%Hsub. by apply list_elem_of_filter in Hrow as [_ ?].
  - apply sql_limit_sorted, order_by_created_at_sorted.
  - unfold sql_limit. rewrite decide_False by lia. rewrite length_take. lia.
  - intros now q status err silo Hplain.
    rewrite update_upload_status_plain by done. cbn [fst upload_queue].
    split.
    + rewrite <- list_fmap_compose. apply list_fmap_ext. intros _ row _. cbn.
      by rewrite touch_id, touch_created_at.
    + intros Hstatus Hq.
      rewrite filter_map_stable, order_by_created_at_map, sql_limit_map.
      * rewrite <- list_fmap_compose. apply list_fmap_ext.
        intros _ row _. apply touch_id.
      * intros row. apply touch_created_at.
      * intros row Hrow. unfold touch.
        destruct (decide (row.1 = q)) as [Hid|Hid]; [|tauto].
        split; [intros _; by apply Hq|].
        intros _. unfold is_pending. cbn. tauto.
Qed.

Lemma get_pending_uploads_spec_witness :
  Forall is_pending (get_pending_uploads 1 Examples.queued_two)
  ∧ get_pending_uploads 1 Examples.queued_two ⊆ upload_queue Examples.queued_two
  ∧ StronglySorted created_before (get_pending_uploads 1 Examples.queued_two)
  ∧ (Z.of_nat (length (get_pending_uploads 1 Examples.queued_two)) ≤ 1)%Z
  ∧ ∀ now q status err silo,
      bool_decide (status = "completed") && truthy silo = false →
      let d' := (update_upload_status now q status err silo
                   Examples.queued_two).1 in
      (λ row, (row.1, uq_created_at row.2)) <$> upload_queue d'
      = (λ row, (row.1, uq_created_at row.2))
          <$> upload_queue Examples.queued_two
      ∧ (status = "pending" ∨ status = "retrying" →
         (∀ row, row ∈ upload_queue Examples.queued_two → row.1 = q →
                 is_pending row) →
         (get_pending_uploads 1 d').*1
         = (get_pending_uploads 1 Examples.queued_two).*1).
Proof. apply (get_pending_uploads_spec 1 Examples.queued_two). lia. Defined.

(** *** The UNIQUE constraint of the queue is an invariant *)

Lemma NoDup_fmap_filter {A K} (f : A → K) (P : A → Prop)
    `{∀ x, Decision (P x)} (l : list A) :
  NoDup (f <$> l) → NoDup (f <$> filter P l).
Proof.
  intros Hl. eapply sublist_NoDup; [exact Hl|].
  apply fmap_sublist, sublist_filter.
Qed.

Lemma exec_queue_unique s d d' :
  queue_unique d → exec s d = Ok d' → queue_unique d'.
Proof.
  unfold queue_unique. intros Hu. destruct s as [r|r|q|status err at_ q].
  - intros ->%exec_insert_synced. exact Hu.
  - intros ->%exec_insert_queue. cbn [upload_queue].
    rewrite fmap_app. apply NoDup_app. split; [by apply NoDup_fmap_filter|].
    split; [|apply NoDup_singleton].
    intros key (row & -> & [Hc _]%list_elem_of_filter)%list_elem_of_fmap.
    intros [= Hg Hs]%list_elem_of_singleton. apply Hc. by split.
  - intros [= <-]. cbn [upload_queue]. by apply NoDup_fmap_filter.
  - intros [= <-]. cbn [upload_queue]. rewrite <- list_fmap_compose.
    erewrite list_fmap_ext; [exact Hu|].
    intros _ row _. cbn. unfold touch. by case_decide.
Qed.

Lemma run_queue_unique evs : ∀ s,
  queue_unique (durable s) →
  (∀ c w, txn s = Some (c, w) → queue_unique w) →
  queue_unique (durable (run evs s).1).
Proof.
  induction evs as [|ev evs IH]; intros s Hd Hw; [done|]. cbn [run].
  destruct (step ev s) as [s'|e] eqn:Hstep; [|done].
  apply IH; destruct ev as [c st|c|c], s as [dur [[c' w]|]];
    cbn in Hstep; unfold mbind, res_bind in Hstep;
    repeat case_match; simplify_eq; cbn in *;
    eauto using exec_queue_unique; try done;
    intros ? ? [= <- <-]; eauto using exec_queue_unique.
Qed.

(** Every operation and every crash leaves a queue that satisfies it. *)
Lemma crash_after_queue_unique k evs d :
  queue_unique d → queue_unique (crash_after k evs d).
Proof. intros Hu. unfold crash_after. by apply run_queue_unique. Qed.

Lemma call_queue_unique evs d : queue_unique d → queue_unique (call evs d).1.
Proof.
  intros Hu. unfold call.
  pose proof (run_queue_unique evs (Sys d None) Hu) as H.
  destruct (run evs _) as [s e]. by apply H.
Qed.

(** *** Promotion of a queue row *)

Lemma filter_unique_key {A K} (f : A → K) `{EqDecision K} (l : list A) x :
  NoDup (f <$> l) → x ∈ l → filter (λ y, f y = f x) l = [x].
Proof.
  induction l as [|a l IH]; rewrite ?fmap_cons; intros Hnd Hx; [by inversion Hx|].
  apply NoDup_cons in Hnd as [Ha Hnd].
  apply elem_of_cons in Hx as [->|Hx].
  - rewrite filter_cons_True by done. f_equal.
    apply filter_none. intros y Hy Hf. apply Ha. rewrite <- Hf.
    apply list_elem_of_fmap. by exists y.
  - rewrite filter_cons_False; [by apply IH|].
    intros Hf. apply Ha. rewrite Hf. apply list_elem_of_fmap. by exists x.
Qed.

Lemma select_queue_by_id_Some d q item :
  select_queue_by_id d q = Some item → item.1 = q ∧ item ∈ upload_queue d.
Proof.
  unfold select_queue_by_id. intros H.
  apply (list_elem_of_filter (λ row, row.1 = q)).
  destruct (filter _ _) as [|x l]; [done|]. injection H as ->. left.
Qed.

Lemma queue_rows_unique d item :
  queue_unique d → item ∈ upload_queue d →
  queue_rows d (uq_google_id item.2) (uq_service item.2) = [item].
Proof.
  intros Hu Hin. unfold queue_rows.
  rewrite <- (filter_unique_key
                (λ row, (uq_google_id row.2, uq_service row.2))
                (upload_queue d) item Hu Hin).
  apply list_filter_iff. intros row. unfold has_queue_key.
  split; [intros [-> ->]; done|intros [= -> ->]; done].
Qed.

Lemma promotion_events c now q err silo d item :
  select_queue_by_id d q = Some item → truthy silo = true →
  update_upload_status_events c now q "completed" err silo d
  = [ Exec (S c) (InsertOrReplaceSynced
                    (synced_row_of now (uq_google_id item.2) (uq_service item.2)
                       (default ∅ (uq_metadata item.2)) silo
                       (Some (uq_bucket item.2))));
      Commit (S c); Close (S c);
      Exec c (DeleteQueueById q); Commit c; Close c ].
Proof.
  intros Hsel Hsilo. unfold update_upload_status_events.
  rewrite Hsel, Hsilo. done.
Qed.

(** The database after each possible crash point of a promotion whose
    INSERT succeeds: the old one, then the one with the record written and
    the queue untouched, then the final one. *)
Lemma promotion_crash_states r q d d1 k :
  exec (InsertOrReplaceSynced r) d = Ok d1 →
  crash_after k
    [ Exec 1 (InsertOrReplaceSynced r); Commit 1; Close 1;
      Exec 0 (DeleteQueueById q); Commit 0; Close 0 ] d
  = if decide (k < 2)%nat then d
    else if decide (k < 5)%nat then d1
    else Db (synced_files d1) (synced_seq d1)
            (filter (λ row, row.1 ≠ q) (upload_queue d1)) (queue_seq d1).
Proof.
  intros Hexec. unfold crash_after.
  destruct k as [|[|[|[|[|[|k]]]]]];
    cbn [take run step txn durable fst]; unfold mbind, res_bind;
    rewrite ?Hexec; cbn [take run step txn durable fst decide]; try done.
  rewrite take_nil. done.
Qed.

Lemma promotion_call r q d :
  call [ Exec 1 (InsertOrReplaceSynced r); Commit 1; Close 1;
         Exec 0 (DeleteQueueById q); Commit 0; Close 0 ] d
  = match exec (InsertOrReplaceSynced r) d with
    | Ok d1 => (Db (synced_files d1) (synced_seq d1)
                   (filter (λ row, row.1 ≠ q) (upload_queue d1)) (queue_seq d1),
                None)
    | Raise e => (d, Some e)
    end.
Proof.
  unfold call. cbn [run step txn durable]. unfold mbind, res_bind.
  destruct (exec (InsertOrReplaceSynced r) d) as [d1|e]; cbn; done.
Qed.

(** C1, as stated, fails: the promotion is two transactions. In the queue
    of one pending item, completing row 1 runs six events; a crash after the
    second one (the commit inside [mark_file_synced]) finds the item both
    synced and still queued. *)
Lemma update_upload_status_not_atomic :
  length (update_upload_status_events 0 "2024-01-01T00:00:07" 1 "completed"
            None (Some "silo-1") Examples.queued_once) = 6%nat
  ∧ is_file_synced
      (crash_after 2
         (update_upload_status_events 0 "2024-01-01T00:00:07" 1 "completed"
            None (Some "silo-1") Examples.queued_once)
         Examples.queued_once) "A" "drive" = true
  ∧ queue_rows
      (crash_after 2
         (update_upload_status_events 0 "2024-01-01T00:00:07" 1 "completed"
            None (Some "silo-1") Examples.queued_once)
         Examples.queued_once) "A" "drive"
    = upload_queue Examples.queued_once
  ∧ length (upload_queue Examples.queued_once) = 1%nat.
Proof. repeat split; vm_compute; reflexivity. Qed.

(** C1, amended. For a queue row [q] of a queue that satisfies its UNIQUE
    constraint, [update_upload_status(q, 'completed', silo_file_id=X)] with a
    non-empty [X], when it returns, has written the SyncedRecord and removed
    the row: [is_file_synced] is true and no queue row of the pair is left.
    It does so in two transactions, the record first: a crash finds the
    database as it was, or with both the record and the queue row (from the
    first commit up to the second), or as the call leaves it; it never
    finds neither. *)
Theorem update_upload_status_promotes now q err silo d item d' :
  queue_unique d →
  select_queue_by_id d q = Some item →
  truthy silo = true →
  update_upload_status now q "completed" err silo d = (d', None) →
  let g := uq_google_id item.2 in
  let s := uq_service item.2 in
  let evs := update_upload_status_events 0 now q "completed" err silo d in
  is_file_synced d' g s = true
  ∧ queue_rows d' g s = []
  ∧ (is_file_synced (crash_after 2 evs d) g s = true
     ∧ queue_rows (crash_after 2 evs d) g s = [item])
  ∧ ∀ k, (crash_after k evs d = d
          ∨ crash_after k evs d = crash_after 2 evs d
          ∨ crash_after k evs d = d')
         ∧ (queue_rows (crash_after k evs d) g s = [] →
            is_file_synced (crash_after k evs d) g s = true).
Proof.
  intros Hu Hsel Hsilo Hcall g s evs.
  destruct (select_queue_by_id_Some _ _ _ Hsel) as [Hid Hin].
  pose proof (queue_rows_unique d item Hu Hin) as Hrows. fold g s in Hrows.
  unfold evs. unfold update_upload_status in Hcall.
  rewrite (promotion_events 0 now q err silo d item Hsel Hsilo) in Hcall |- *.
  fold g s in Hcall |- *.
  set (r := synced_row_of now g s (default ∅ (uq_metadata item.2)) silo
              (Some (uq_bucket item.2))) in *.
  rewrite promotion_call in Hcall.
  destruct (exec (InsertOrReplaceSynced r) d) as [d1|e] eqn:Hexec; [|done].
  assert (d' = Db (synced_files d1) (synced_seq d1)
                  (filter (λ row, row.1 ≠ q) (upload_queue d1)) (queue_seq d1))
    as Hd' by (by injection Hcall as <-).
  pose proof (exec_insert_synced _ _ _ Hexec) as Hd1.
  assert (is_file_synced d1 g s = true) as Hsynced1.
  { unfold is_file_synced, synced_count. rewrite Hd1. cbn [synced_files].
    rewrite filter_app, filter_one, decide_True by done.
    rewrite length_app. cbn. apply bool_decide_eq_true. lia. }
  assert (queue_rows d1 g s = [item]) as Hrows1.
  { unfold queue_rows. rewrite Hd1. exact Hrows. }
  assert (is_file_synced d' g s = true) as Hsynced'.
  { rewrite Hd'. exact Hsynced1. }
  assert (queue_rows d' g s = []) as Hrows'.
  { rewrite Hd'. unfold queue_rows. cbn [upload_queue].
    rewrite list_filter_filter.
    rewrite (list_filter_iff _ (λ row, row.1 ≠ q ∧ has_queue_key g s row))
      by tauto.
    rewrite <- list_filter_filter. fold (queue_rows d1 g s).
    rewrite Hrows1, filter_one, decide_False; [done|]. by intros []. }
  assert (∀ k, crash_after k
                 [ Exec 1 (InsertOrReplaceSynced r); Commit 1; Close 1;
                   Exec 0 (DeleteQueueById q); Commit 0; Close 0 ] d
               = if decide (k < 2)%nat then d
                 else if decide (k < 5)%nat then d1 else d') as Hcrash.
  { intros k. rewrite Hd'. by apply promotion_crash_states. }
  split; [done|]. split; [done|]. split.
  - rewrite (Hcrash 2%nat). cbn. done.
  - intros k. rewrite (Hcrash k), (Hcrash 2%nat). cbn [decide].
    repeat case_decide; try lia.
    + split; [by left|]. by rewrite Hrows.
    + split; [right; by left|done].
    + split; [right; by right|done].
Qed.

Lemma update_upload_status_promotes_witness :
  let d := Examples.queued_once in
  let d' := (update_upload_status "2024-01-01T00:00:07" 1 "completed" None
               (Some "silo-1") d).1 in
  let evs := update_upload_status_events 0 "2024-01-01T00:00:07" 1 "completed"
               None (Some "silo-1") d in
  is_file_synced d' "A" "drive" = true
  ∧ queue_rows d' "A" "drive" = []
  ∧ (is_file_synced (crash_after 2 evs d) "A" "drive" = true
     ∧ queue_rows (crash_after 2 evs d) "A" "drive"
       = [(1, queue_row_of "2024-01-01T00:00:00" "A" "drive" Examples.info_a
                "files" None)])
  ∧ ∀ k, (crash_after k evs d = d
          ∨ crash_after k evs d = crash_after 2 evs d
          ∨ crash_after k evs d = d')
         ∧ (queue_rows (crash_after k evs d) "A" "drive" = [] →
            is_file_synced (crash_after k evs d) "A" "drive" = true).
Proof.
  apply (update_upload_status_promotes "2024-01-01T00:00:07" 1 None
           (Some "silo-1") Examples.queued_once
           (1, queue_row_of "2024-01-01T00:00:00" "A" "drive" Examples.info_a
                 "files" None)).
  - vm_compute. repeat constructor. by intros ?%elem_of_nil.
  - vm_compute; reflexivity.
  - reflexivity.
  - vm_compute; reflexivity.
Defined.

End LedgerSpec.

(** * Properties of the upload client *)

Module ClientSpec.
Import Client.

#[local] Open Scope Q_scope.

(** *** Back-off *)

Lemma jittered_floor (b u : Q) : 1 # 10 <= Qmax (1 # 10) (b + b * (2 # 10) * (2 * u - 1)).
Proof. apply Q.le_max_l. Qed.














(** *** The retry loop *)

#[local] Open Scope Z_scope.

Lemma network_attempts_app tr1 tr2 :
  network_attempts (tr1 ++ tr2)%list
  = (network_attempts tr1 + network_attempts tr2)%nat.
Proof. unfold network_attempts. by rewrite filter_app, length_app. Qed.

Lemma network_attempts_sleep x : network_attempts [EvSleep x] = 0%nat.
Proof. reflexivity. Qed.

Lemma network_attempts_post : network_attempts [EvPost] = 1%nat.
Proof. reflexivity. Qed.

Lemma network_attempts_nil : network_attempts [] = 0%nat.
Proof. reflexivity. Qed.

Lemma wait_no_network st : network_attempts (_wait_if_rate_limited st).2 = 0%nat.
Proof. unfold _wait_if_rate_limited. by repeat case_match. Qed.

Ltac count_attempts :=
  rewrite ?network_attempts_app, ?network_attempts_sleep,
    ?network_attempts_post, ?network_attempts_nil.

(** A pass through the loop body makes at most one request, and when it
    ends in [continue] the counter has gone up by one and is still within
    the budget. *)
Lemma loop_body_step cfg name w rc st st' evs f :
  loop_body cfg name w rc st = (st', evs, f) →
  (network_attempts evs ≤ 1)%nat
  ∧ match f with
    | Continue rc' => rc' = rc + 1 ∧ rc' <= max_retries cfg
    | Return _ => True
    end.
Proof.
  unfold loop_body, try_body, except_clauses.
  pose proof (wait_no_network st) as Hw.
  destruct (_wait_if_rate_limited st) as [st1 wevs].
  change (network_attempts wevs = 0%nat) in Hw.
  repeat case_match; intros; simplify_eq;
    count_attempts; rewrite ?Hw; (split; [lia|]); try done;
    try (split; [done|lia]).
Qed.

Lemma wait_keeps_stats st : cstats (_wait_if_rate_limited st).1 = cstats st.
Proof. unfold _wait_if_rate_limited. by repeat case_match. Qed.

(** A retryable failure ends the pass in [continue] with the counter one
    higher while the budget lasts, and in a failed result once it is spent. *)
Lemma loop_body_retryable cfg name w rc st :
  retryable_failure w = true →
  ∃ st' evs f,
    loop_body cfg name w rc st = (st', evs, f)
    ∧ (rc + 1 <= max_retries cfg → f = Continue (rc + 1))
    ∧ (rc + 1 > max_retries cfg → ∃ r, f = Return r ∧ success r = false).
Proof.
  unfold retryable_failure, raised, loop_body, try_body, except_clauses.
  destruct (_wait_if_rate_limited st) as [st1 wevs].
  intros Hr.
  repeat (case_match; simplify_eq; try (cbn in Hr); try done);
    try (match goal with
         | E : status_code _ = 200 |- _ => rewrite E in Hr; by vm_compute in Hr
         end);
    try (rewrite bool_decide_eq_false_2 in Hr by done; cbn in Hr; congruence);
    eexists _, _, _; (split; [reflexivity|]); split; intros; try lia;
    try done; eexists; split; done.
Qed.

(** An exception that is neither a connection error nor a timeout ends the
    pass, and the call, at once. *)
Lemma loop_body_unexpected cfg name w rc st e :
  raised w = Some e →
  is_connection_error e = false → is_timeout e = false →
  ∃ st' evs,
    loop_body cfg name w rc st
    = (st', evs,
       Return (failed_result name ("Unexpected error: " +:+ exn_text e)
                 None None))
    ∧ cstats st' = bump_failed (cstats st)
    ∧ sleeps evs = (_wait_if_rate_limited st).2.
Proof.
  unfold raised, loop_body, try_body, except_clauses.
  pose proof (wait_keeps_stats st) as Hs.
  assert (sleeps (_wait_if_rate_limited st).2 = (_wait_if_rate_limited st).2)
    as Hsl by (unfold _wait_if_rate_limited; by repeat case_match).
  destruct (_wait_if_rate_limited st) as [st1 wevs]. cbn [fst snd] in *.
  intros Hr Hc Ht.
  repeat (case_match; simplify_eq; try done);
    rewrite ?Hc, ?Ht; eexists _, _; (split; [reflexivity|]);
    cbn; rewrite Hs; (split; [done|]);
    unfold sleeps in *; rewrite ?filter_app, ?Hsl; cbn;
    by rewrite ?app_nil_r.
Qed.

Lemma upload_loop_spec cfg name world : ∀ fuel i rc st tr,
  (Z.to_nat (max_retries cfg + 1 - rc) ≤ fuel)%nat →
  ∃ r st' tr',
    upload_loop fuel cfg name world i rc st tr = Some (r, st', (tr ++ tr')%list)
    ∧ Z.of_nat (network_attempts tr') <= Z.max 0 (max_retries cfg + 1 - rc)
    ∧ ((∀ j, (i ≤ j)%nat → retryable_failure (world j) = true) →
       success r = false).
Proof.
  induction fuel as [|fuel IH]; intros i rc st tr Hfuel; cbn [upload_loop].
  - rewrite decide_False by lia.
    eexists _, _, []. rewrite app_nil_r. split; [done|]. split; [cbn; lia|done].
  - destruct (decide (rc <= max_retries cfg)) as [Hrc|Hrc].
    2: { eexists _, _, []. rewrite app_nil_r.
         split; [done|]. split; [cbn; lia|done]. }
    destruct (loop_body cfg name (world i) rc st) as [[st' evs] f] eqn:Hbody.
    pose proof (loop_body_step _ _ _ _ _ _ _ _ Hbody) as [Hevs Hf].
    destruct f as [r|rc'].
    + eexists _, _, evs. split; [done|]. split; [lia|].
      intros Hall.
      destruct (loop_body_retryable cfg name (world i) rc st (Hall i (le_n i)))
        as (st2 & evs2 & f2 & Hbody2 & Hcont & Hret).
      rewrite Hbody in Hbody2. simplify_eq.
      destruct (decide (rc + 1 <= max_retries cfg)) as [Hle|Hgt].
      * by specialize (Hcont Hle).
      * destruct Hret as (r' & [= <-] & Hfail); [lia|done].
    + destruct Hf as [-> Hle].
      destruct (IH (S i) (rc + 1) st' (tr ++ evs)%list)
        as (r & st2 & tr' & Hloop & Hcount & Hfail); [lia|].
      exists r, st2, (evs ++ tr')%list. rewrite app_assoc.
      split; [done|]. split.
      * rewrite network_attempts_app. lia.
      * intros Hall. apply Hfail. intros j Hj. apply Hall. lia.
Qed.



(** *** Terminal failures *)

Lemma substring_0_length n s :
  (String.length (String.substring 0 n s) ≤ n)%nat.
Proof.
  revert s. induction n as [|n IH]; intros [|a s]; cbn; try lia.
  specialize (IH s). lia.
Qed.

Lemma substring_0_prefix n s :
  String.prefix (String.substring 0 n s) s = true.
Proof.
  revert s. induction n as [|n IH]; intros [|a s]; cbn; try done.
  destruct (Ascii.ascii_dec a a); [apply IH|done].
Qed.

(** C4. When the first request is answered with a status that is not 2xx,
    not 429 and not 500/502/503/504, [upload_file] returns a failed result
    after exactly one network attempt, whatever [max_retries ≥ 0] is: the
    message carries the first 200 characters of the response body and
    [status_code] is the status received. *)
Theorem upload_file_client_error cfg name world st resp :
  0 <= max_retries cfg →
  at_seek (world 0%nat) = None →
  at_post (world 0%nat) = inr resp →
  ¬ (200 <= status_code resp < 300) →
  status_code resp ≠ 429 →
  ¬ (status_code resp = 500 ∨ status_code resp = 502
     ∨ status_code resp = 503 ∨ status_code resp = 504) →
  ∃ st' tr,
    upload_file cfg name world st
    = Some (MkUploadResult false PNone (Some name)
              (Some ("Upload failed with status "
                     +:+ pretty (status_code resp) +:+ ": "
                     +:+ String.substring 0 200 (text resp)))
              (Some (status_code resp)) None,
            st', tr)
    ∧ network_attempts tr = 1%nat
    ∧ (String.length (String.substring 0 200 (text resp)) ≤ 200)%nat
    ∧ String.prefix (String.substring 0 200 (text resp)) (text resp) = true.
Proof.
  intros HM Hseek Hpost H2xx H429 H5xx.
  unfold upload_file.
  destruct (Z.to_nat (max_retries cfg + 1)) as [|fuel] eqn:Hfuel; [lia|].
  cbn [upload_loop]. rewrite decide_True by lia.
  unfold loop_body, try_body.
  pose proof (wait_no_network (with_stats bump_attempted st)) as Hw.
  destruct (_wait_if_rate_limited _) as [st1 wevs]. cbn [snd] in Hw.
  rewrite Hseek, Hpost.
  rewrite decide_False by lia. rewrite decide_False by done.
  unfold server_error. rewrite bool_decide_eq_false_2 by done.
  eexists _, _. split; [reflexivity|]. split; [|split].
  - cbn [app]. count_attempts. lia.
  - apply substring_0_length.
  - apply substring_0_prefix.
Qed.

Lemma upload_file_client_error_witness :
  ∃ st' tr,
    upload_file Examples.default_config "a.txt" (λ _, Examples.not_found)
      Examples.fresh_client
    = Some (MkUploadResult false PNone (Some "a.txt")
              (Some ("Upload failed with status " +:+ pretty 404 +:+ ": "
                     +:+ String.substring 0 200 "no such bucket"))
              (Some 404) None,
            st', tr)
    ∧ network_attempts tr = 1%nat
    ∧ (String.length (String.substring 0 200 "no such bucket") ≤ 200)%nat
    ∧ String.prefix (String.substring 0 200 "no such bucket") "no such bucket"
      = true.
Proof.
  apply (upload_file_client_error Examples.default_config "a.txt"
           (λ _, Examples.not_found) Examples.fresh_client
           (Response 404 None "no such bucket"));
    [simpl; lia | reflexivity | reflexivity | simpl; lia | simpl; lia
    | simpl; lia].
Defined.

(** C10. On any pass of the loop, an exception raised in the [try] block
    that is neither a connection error nor a timeout makes [upload_file]
    return at once a failed result whose message is "Unexpected error: "
    followed by the exception text, with no status code; the failure
    counter goes up by one, the retry counter is not touched and no
    back-off sleep is made. *)
Theorem upload_file_unexpected_exception cfg name world fuel i rc st tr e :
  rc <= max_retries cfg →
  raised (world i) = Some e →
  is_connection_error e = false →
  is_timeout e = false →
  ∃ st' evs,
    upload_loop (S fuel) cfg name world i rc st tr
    = Some (MkUploadResult false PNone (Some name)
              (Some ("Unexpected error: " +:+ exn_text e)) None None,
            st', (tr ++ evs)%list)
    ∧ cstats st' = bump_failed (cstats st)
    ∧ sleeps evs = (_wait_if_rate_limited st).2.
Proof.
  intros Hrc Hraised Hc Ht. cbn [upload_loop]. rewrite decide_True by done.
  destruct (loop_body_unexpected cfg name (world i) rc st e Hraised Hc Ht)
    as (st' & evs & -> & Hstats & Hsleeps).
  by exists st', evs.
Qed.

Lemma upload_file_unexpected_exception_witness :
  ∃ st' evs,
    upload_file Examples.default_config "a.txt" (λ _, Examples.unseekable)
      Examples.fresh_client
    = Some (MkUploadResult false PNone (Some "a.txt")
              (Some ("Unexpected error: "
                     +:+ "underlying stream is not seekable")) None None,
            st', ([] ++ evs)%list)
    ∧ cstats st'
      = bump_failed (cstats (with_stats bump_attempted Examples.fresh_client))
    ∧ sleeps evs
      = (_wait_if_rate_limited
           (with_stats bump_attempted Examples.fresh_client)).2.
Proof.
  apply (upload_file_unexpected_exception Examples.default_config "a.txt"
           (λ _, Examples.unseekable) 5 0 0
           (with_stats bump_attempted Examples.fresh_client) []
           (PyExn false false "underlying stream is not seekable"));
    [simpl; lia | reflexivity | reflexivity | reflexivity].
Defined.

(** The two examples of such exceptions: a stream that cannot seek, and a
    success response whose body is not valid JSON. *)
Lemma raised_seek w e : at_seek w = Some e → raised w = Some e.
Proof. unfold raised. by intros ->. Qed.

Lemma raised_invalid_json w resp e :
  at_seek w = None → at_post w = inr resp → status_code resp = 200 →
  at_json w = inl e → raised w = Some e.
Proof.
  unfold raised. intros -> -> Hcode ->. by rewrite decide_True.
Qed.

(** *** Rate limiting *)






End ClientSpec.

(** * More properties of the ledger *)

Module LedgerExtra.
Import Ledger LedgerMore.

(** *** The schema constraints are invariants *)

Lemma run_invariant (P : db → Prop) :
  (∀ s d d', P d → exec s d = Ok d' → P d') →
  ∀ evs s,
    P (durable s) → (∀ c w, txn s = Some (c, w) → P w) →
    P (durable (run evs s).1).
Proof.
  intros Hexec. induction evs as [|ev evs IH]; intros s Hd Hw; [done|].
  cbn [run]. destruct (step ev s) as [s'|e] eqn:Hstep; [|done].
  apply IH; destruct ev as [c st|c|c], s as [dur [[c' w]|]];
    cbn in Hstep; unfold mbind, res_bind in Hstep;
    repeat case_match; simplify_eq; cbn in *; eauto; try done;
    intros ? ? [= <- <-]; eauto.
Qed.

Lemma rowids_ok_filter {A} (P : Z * A → Prop) `{∀ x, Decision (P x)}
    (rows : list (Z * A)) seq :
  rowids_ok rows seq → rowids_ok (filter P rows) seq.
Proof.
  intros [Hnd Hle]. split.
  - eapply sublist_NoDup; [exact Hnd|]. apply fmap_sublist, sublist_filter.
  - apply Forall_forall. intros row [_ Hrow]%list_elem_of_filter.
    rewrite Forall_forall in Hle. by apply Hle.
Qed.

Lemma rowids_ok_weaken {A} (rows : list (Z * A)) seq seq' :
  seq <= seq' → rowids_ok rows seq → rowids_ok rows seq'.
Proof.
  intros Hseq [Hnd Hle]. split; [done|].
  eapply Forall_impl; [exact Hle|]. cbn. intros row Hrow. lia.
Qed.

Lemma rowids_ok_append {A} (rows : list (Z * A)) seq (r : A) :
  rowids_ok rows seq → rowids_ok (rows ++ [(seq + 1, r)]) (seq + 1).
Proof.
  intros [Hnd Hle]. split.
  - rewrite fmap_app. apply NoDup_app. split; [done|].
    split; [|apply NoDup_singleton].
    intros id (row & -> & Hrow)%list_elem_of_fmap.
    intros Hid%list_elem_of_singleton.
    eapply Forall_forall in Hle; [|exact Hrow]. cbn in Hid, Hle. lia.
  - apply Forall_app. split.
    + eapply Forall_impl; [exact Hle|]. cbn. intros row Hrow. lia.
    + repeat constructor. cbn. lia.
Qed.

Lemma rowids_ok_fmap {A} (f : Z * A → Z * A) (rows : list (Z * A)) seq :
  (∀ row, (f row).1 = row.1) →
  rowids_ok rows seq → rowids_ok (f <$> rows) seq.
Proof.
  intros Hf [Hnd Hle]. split.
  - rewrite <- list_fmap_compose.
    erewrite list_fmap_ext; [exact Hnd|]. intros _ row _. apply Hf.
  - apply Forall_fmap. eapply Forall_impl; [exact Hle|].
    intros row Hrow. cbn. by rewrite Hf.
Qed.

Lemma exec_synced_unique s d d' :
  synced_unique d → exec s d = Ok d' → synced_unique d'.
Proof.
  unfold synced_unique. intros Hu. destruct s as [r|r|q|status err at_ q].
  - intros ->%LedgerSpec.exec_insert_synced. cbn [synced_files].
    rewrite fmap_app. apply NoDup_app.
    split; [by apply LedgerSpec.NoDup_fmap_filter|].
    split; [|apply NoDup_singleton].
    intros key (row & -> & [Hc _]%list_elem_of_filter)%list_elem_of_fmap.
    intros Hg%list_elem_of_singleton. apply Hc. by left.
  - intros ->%LedgerSpec.exec_insert_queue. exact Hu.
  - intros [= <-]. exact Hu.
  - intros [= <-]. exact Hu.
Qed.

Lemma exec_rowids_ok s d d' :
  rowids_ok (upload_queue d) (queue_seq d)
  ∧ rowids_ok (synced_files d) (synced_seq d) →
  exec s d = Ok d' →
  rowids_ok (upload_queue d') (queue_seq d')
  ∧ rowids_ok (synced_files d') (synced_seq d').
Proof.
  intros [Hq Hs]. destruct s as [r|r|q|status err at_ q].
  - intros ->%LedgerSpec.exec_insert_synced. cbn. split; [done|].
    by apply rowids_ok_append, rowids_ok_filter.
  - intros ->%LedgerSpec.exec_insert_queue. cbn. split; [|done].
    by apply rowids_ok_append, rowids_ok_filter.
  - intros [= <-]. cbn. split; [|done]. by apply rowids_ok_filter.
  - intros [= <-]. cbn. split; [|done].
    apply rowids_ok_fmap; [|done]. intros row. apply LedgerSpec.touch_id.
Qed.

Lemma exec_constraints_hold s d d' :
  constraints_hold d → exec s d = Ok d' → constraints_hold d'.
Proof.
  intros (Hq & Hs & Hids) Hexec.
  split; [by eapply LedgerSpec.exec_queue_unique|].
  split; [by eapply exec_synced_unique|].
  by eapply exec_rowids_ok.
Qed.

(** X1. The constraints of the schema (UNIQUE on the queue pair, UNIQUE on
    the synced google_id, distinct rowids below the AUTOINCREMENT counter)
    are kept by every method of the ledger, whether it returns, raises or is
    cut short by a crash. *)
Theorem constraints_invariant evs d k :
  constraints_hold d →
  constraints_hold (call evs d).1 ∧ constraints_hold (crash_after k evs d).
Proof.
  intros Hd. split.
  - unfold call.
    pose proof (run_invariant constraints_hold exec_constraints_hold evs
                  (Sys d None) Hd) as H.
    destruct (run evs _) as [s e]. by apply H.
  - unfold crash_after.
    by apply (run_invariant constraints_hold exec_constraints_hold).
Qed.

Lemma constraints_invariant_witness :
  constraints_hold
    (call (add_to_upload_queue_events 0 "2024-01-01T00:00:00" "A" "drive"
             Examples.info_a "files" None) empty_db).1
  ∧ constraints_hold
      (crash_after 1
         (add_to_upload_queue_events 0 "2024-01-01T00:00:00" "A" "drive"
            Examples.info_a "files" None) empty_db).
Proof.
  apply (constraints_invariant
           (add_to_upload_queue_events 0 "2024-01-01T00:00:00" "A" "drive"
              Examples.info_a "files" None) empty_db 1).
  repeat split; simpl; constructor.
Defined.

(** *** Status updates that are not promotions *)

Lemma fmap_touch_absent status err now q (rows : list (Z * queue_cols)) :
  (∀ row, row ∈ rows → row.1 ≠ q) → touch status err now q <$> rows = rows.
Proof.
  intros Hq. induction rows as [|row rows IH]; [done|].
  rewrite fmap_cons, IH by (intros r Hr; apply Hq; by right).
  unfold touch. rewrite decide_False by (apply Hq; left). done.
Qed.

(** X2. [update_upload_status] for a queue id that no row has changes
    nothing and raises nothing, whatever the status and the file id. *)
Theorem update_upload_status_unknown_id now q status err silo d :
  (∀ row, row ∈ upload_queue d → row.1 ≠ q) →
  update_upload_status now q status err silo d = (d, None).
Proof.
  intros Hq.
  destruct (bool_decide (status = "completed") && truthy silo) eqn:Hb.
  - unfold update_upload_status, update_upload_status_events. rewrite Hb.
    destruct (select_queue_by_id d q) as [item|] eqn:Hsel.
    + apply LedgerSpec.select_queue_by_id_Some in Hsel as [Hid Hin].
      by apply Hq in Hin.
    + reflexivity.
  - rewrite LedgerSpec.update_upload_status_plain by done.
    rewrite fmap_touch_absent by done. by destruct d.
Qed.

Lemma update_upload_status_unknown_id_witness :
  update_upload_status "2024-01-01T00:00:07" 9 "completed" None (Some "silo-1")
    Examples.queued_once
  = (Examples.queued_once, None).
Proof.
  apply update_upload_status_unknown_id.
  intros row Hrow Hid. vm_compute in Hrow.
  apply list_elem_of_singleton in Hrow. by subst row.
Defined.

(** X3. A status update that is not a promotion ('failed', or 'completed'
    without a file id, or any other status) writes no synced record and
    removes no queue row: the rows keep their rowids and order, the rows of
    the given id get the new status, the error, the time of the attempt and
    one more retry; all other rows are untouched. *)
Theorem update_upload_status_no_promotion now q status err silo d :
  bool_decide (status = "completed") && truthy silo = false →
  let d' := (update_upload_status now q status err silo d).1 in
  (update_upload_status now q status err silo d).2 = None
  ∧ synced_files d' = synced_files d
  ∧ (∀ g s, is_file_synced d' g s = is_file_synced d g s)
  ∧ (upload_queue d').*1 = (upload_queue d).*1
  ∧ ∀ i row, upload_queue d !! i = Some row →
      ∃ row', upload_queue d' !! i = Some row'
        ∧ (row.1 ≠ q → row' = row)
        ∧ (row.1 = q →
           row'.1 = q
           ∧ uq_status row'.2 = status
           ∧ uq_last_error row'.2 = err
           ∧ uq_last_attempt_at row'.2 = Some now
           ∧ uq_retry_count row'.2 = uq_retry_count row.2 + 1
           ∧ uq_created_at row'.2 = uq_created_at row.2
           ∧ uq_google_id row'.2 = uq_google_id row.2
           ∧ uq_service row'.2 = uq_service row.2).
Proof.
  intros Hplain. rewrite LedgerSpec.update_upload_status_plain by done.
  cbn [fst snd synced_files upload_queue]. split; [done|]. split; [done|].
  split; [done|]. split.
  - rewrite <- list_fmap_compose. apply list_fmap_ext.
    intros _ row _. apply LedgerSpec.touch_id.
  - intros i row Hi. exists (touch status err now q row).
    rewrite list_lookup_fmap, Hi. split; [done|].
    unfold touch. destruct (decide (row.1 = q)) as [Hid|Hid].
    + split; [done|]. intros _. done.
    + split; [done|]. done.
Qed.

Lemma update_upload_status_no_promotion_witness :
  let d := Examples.queued_once in
  let d' := (update_upload_status "2024-01-01T00:00:07" 1 "completed" None None
               d).1 in
  (update_upload_status "2024-01-01T00:00:07" 1 "completed" None None d).2 = None
  ∧ synced_files d' = synced_files d
  ∧ (∀ g s, is_file_synced d' g s = is_file_synced d g s)
  ∧ (upload_queue d').*1 = (upload_queue d).*1
  ∧ ∀ i row, upload_queue d !! i = Some row →
      ∃ row', upload_queue d' !! i = Some row'
        ∧ (row.1 ≠ 1 → row' = row)
        ∧ (row.1 = 1 →
           row'.1 = 1
           ∧ uq_status row'.2 = "completed"
           ∧ uq_last_error row'.2 = None
           ∧ uq_last_attempt_at row'.2 = Some "2024-01-01T00:00:07"
           ∧ uq_retry_count row'.2 = uq_retry_count row.2 + 1
           ∧ uq_created_at row'.2 = uq_created_at row.2
           ∧ uq_google_id row'.2 = uq_google_id row.2
           ∧ uq_service row'.2 = uq_service row.2).
Proof.
  apply (update_upload_status_no_promotion "2024-01-01T00:00:07" 1 "completed"
           None None Examples.queued_once).
  reflexivity.
Defined.

(** X4. After a status update that is not a promotion and sets a status
    other than 'pending' and 'retrying' (the orchestrator sets 'failed'), no
    row of that id is returned by [get_pending_uploads] any more, whatever
    the limit. *)
Theorem update_upload_status_leaves_pending now q status err silo limit d :
  bool_decide (status = "completed") && truthy silo = false →
  status ≠ "pending" → status ≠ "retrying" →
  Forall (λ row, row.1 ≠ q)
    (get_pending_uploads limit (update_upload_status now q status err silo d).1).
Proof.
  intros Hplain Hp Hr. apply Forall_forall. intros row Hrow Hid.
  rewrite LedgerSpec.update_upload_status_plain in Hrow by done.
  unfold get_pending_uploads in Hrow. cbn [fst upload_queue] in Hrow.
  apply (sublist_subseteq _ _ (LedgerSpec.sql_limit_sublist _ _)) in Hrow.
  rewrite LedgerSpec.order_by_created_at_perm in Hrow.
  apply list_elem_of_filter in Hrow as [Hpending Hin].
  apply list_elem_of_fmap in Hin as (row0 & -> & Hin0).
  rewrite LedgerSpec.touch_id in Hid.
  unfold touch in Hpending. rewrite decide_True in Hpending by done.
  unfold is_pending in Hpending. cbn in Hpending. tauto.
Qed.

Lemma update_upload_status_leaves_pending_witness :
  Forall (λ row, row.1 ≠ 1) (get_pending_uploads 100 Examples.failed_once).
Proof.
  apply (update_upload_status_leaves_pending "2024-01-01T00:00:05" 1 "failed"
           (Some "boom") None 100 Examples.queued_once);
    [reflexivity | discriminate | discriminate].
Defined.

(** *** What the two upserts leave alone, and when they raise *)

(** X5. A [mark_file_synced] that returns leaves the upload queue and the
    records of every other google_id as they were, so the answer of
    [is_file_synced] changes for no other id; one that raises leaves the
    whole database as it was. *)
Theorem mark_file_synced_frame now g s fi silo bucket d :
  let d' := (mark_file_synced now g s fi silo bucket d).1 in
  upload_queue d' = upload_queue d
  ∧ filter (λ row, sf_google_id row.2 ≠ g) (synced_files d')
    = filter (λ row, sf_google_id row.2 ≠ g) (synced_files d)
  ∧ (∀ g' s', g' ≠ g → is_file_synced d' g' s' = is_file_synced d g' s')
  ∧ ((mark_file_synced now g s fi silo bucket d).2 ≠ None → d' = d).
Proof.
  destruct (mark_file_synced now g s fi silo bucket d) as [d' [e|]] eqn:Hcall;
    cbn [fst snd].
  - assert (d' = d) as ->.
    { unfold mark_file_synced, mark_file_synced_events in Hcall.
      rewrite LedgerSpec.call_single in Hcall.
      destruct (exec _ d); by simplify_eq. }
    done.
  - apply LedgerSpec.mark_file_synced_ok in Hcall as ->.
    cbn [upload_queue synced_files].
    assert (filter (λ row, sf_google_id row.2 ≠ g)
              (filter (λ row, ¬ synced_conflict
                                  (synced_row_of now g s fi silo bucket) row.2)
                 (synced_files d) ++
               [(synced_seq d + 1, synced_row_of now g s fi silo bucket)])%list
            = filter (λ row, sf_google_id row.2 ≠ g) (synced_files d)) as Hf.
    { rewrite filter_app, LedgerSpec.filter_one, decide_False
        by (cbn; tauto).
      rewrite app_nil_r, list_filter_filter. apply list_filter_iff.
      intros row. unfold synced_conflict. cbn. tauto. }
    split; [done|]. split; [exact Hf|]. split; [|done].
    intros g' s' Hne. unfold is_file_synced, synced_count.
    cbn [synced_files].
    assert (∀ rows : list (Z * synced_cols), filter (has_key g' s') rows
                    = filter (has_key g' s')
                        (filter (λ row, sf_google_id row.2 ≠ g) rows)) as Hk.
    { intros rows. rewrite list_filter_filter. apply list_filter_iff.
      intros row. unfold has_key. split; [|tauto].
      intros [Hg Hs]. split; [done|]. congruence. }
    rewrite (Hk (_ ++ _)%list), Hf, <- Hk. done.
Qed.

(** X6. [add_to_upload_queue] never writes a synced record, so it changes
    no answer of [is_file_synced]; one that returns leaves the queue rows of
    every other (google_id, service) pair as they were, one that raises
    leaves the whole database as it was. *)
Theorem add_to_upload_queue_frame now g s fi bucket url d :
  let d' := (add_to_upload_queue now g s fi bucket url d).1 in
  synced_files d' = synced_files d
  ∧ (∀ g' s', is_file_synced d' g' s' = is_file_synced d g' s')
  ∧ filter (λ row, ¬ has_queue_key g s row) (upload_queue d')
    = filter (λ row, ¬ has_queue_key g s row) (upload_queue d)
  ∧ ((add_to_upload_queue now g s fi bucket url d).2 ≠ None → d' = d).
Proof.
  destruct (add_to_upload_queue now g s fi bucket url d) as [d' [e|]] eqn:Hcall;
    cbn [fst snd].
  - assert (d' = d) as ->.
    { unfold add_to_upload_queue, add_to_upload_queue_events in Hcall.
      rewrite LedgerSpec.call_single in Hcall.
      destruct (exec _ d); by simplify_eq. }
    done.
  - apply LedgerSpec.add_to_upload_queue_ok in Hcall as ->.
    cbn [upload_queue synced_files]. split; [done|]. split; [done|].
    split; [|done].
    rewrite filter_app, LedgerSpec.filter_one, decide_False
      by (unfold has_queue_key; cbn; tauto).
    rewrite app_nil_r, list_filter_filter. apply list_filter_iff.
    intros row. unfold queue_conflict, has_queue_key. cbn. tauto.
Qed.



(** *** What [get_pending_uploads] returns and what it holds back *)

(** X8. [get_pending_uploads] returns the oldest pending rows: the rows it
    returns and the pending rows it holds back make up all pending rows,
    every returned row was created no later than every row held back, and
    with a limit [0 ≤ L] exactly [min(L, number of pending rows)] rows are
    returned; with a negative limit nothing is held back. *)
Theorem get_pending_uploads_oldest_first limit d :
  ∃ held_back,
    (get_pending_uploads limit d ++ held_back)%list
    ≡ₚ filter is_pending (upload_queue d)
    ∧ (∀ x y, x ∈ get_pending_uploads limit d → y ∈ held_back →
              created_before x y)
    ∧ (0 <= limit →
       length (get_pending_uploads limit d)
       = Nat.min (Z.to_nat limit)
           (length (filter is_pending (upload_queue d))))
    ∧ (limit < 0 → held_back = []).
Proof.
  unfold get_pending_uploads.
  set (sorted := order_by_created_at (filter is_pending (upload_queue d))).
  assert (sorted ≡ₚ filter is_pending (upload_queue d)) as Hperm
    by apply LedgerSpec.order_by_created_at_perm.
  pose proof (LedgerSpec.order_by_created_at_sorted
                (filter is_pending (upload_queue d))) as Hsorted.
  fold sorted in Hsorted. unfold sql_limit.
  destruct (decide (limit < 0)) as [Hneg|Hpos].
  - exists []. rewrite app_nil_r. split; [done|]. split.
    + intros x y _ Hy. by apply elem_of_nil in Hy.
    + split; [lia|done].
  - exists (drop (Z.to_nat limit) sorted). rewrite take_drop.
    split; [done|]. split.
    + intros x y Hx Hy.
      rewrite <- (take_drop (Z.to_nat limit) sorted) in Hsorted.
      by eapply StronglySorted_app_1_elem_of.
    + split; [|lia]. intros _. by rewrite length_take, Hperm.
Qed.

(** X9. An item that [add_to_upload_queue] has just queued is returned by
    [get_pending_uploads], under its new rowid and as queued, whenever the
    limit is negative or not below the number of pending rows. *)
Theorem add_to_upload_queue_then_pending now g s fi bucket url limit d d' :
  add_to_upload_queue now g s fi bucket url d = (d', None) →
  limit < 0
  ∨ Z.of_nat (length (filter is_pending (upload_queue d'))) <= limit →
  (queue_seq d + 1, queue_row_of now g s fi bucket url)
  ∈ get_pending_uploads limit d'.
Proof.
  intros Hadd Hlimit.
  assert ((queue_seq d + 1, queue_row_of now g s fi bucket url)
          ∈ filter is_pending (upload_queue d')) as Hin.
  { apply LedgerSpec.add_to_upload_queue_ok in Hadd as ->.
    cbn [upload_queue]. rewrite filter_app, elem_of_app. right.
    rewrite LedgerSpec.filter_one, decide_True by (by left). left. }
  unfold get_pending_uploads, sql_limit.
  destruct (decide (limit < 0)) as [Hneg|Hpos].
  - by rewrite LedgerSpec.order_by_created_at_perm.
  - rewrite take_ge.
    + by rewrite LedgerSpec.order_by_created_at_perm.
    + rewrite LedgerSpec.order_by_created_at_perm. lia.
Qed.

Lemma add_to_upload_queue_then_pending_witness :
  (queue_seq Examples.failed_once + 1,
   queue_row_of "2024-01-01T00:00:09" "A" "drive" Examples.info_a "files" None)
  ∈ get_pending_uploads 100 Examples.queued_again.
Proof.
  apply (add_to_upload_queue_then_pending "2024-01-01T00:00:09" "A" "drive"
           Examples.info_a "files" None 100 Examples.failed_once
           Examples.queued_again).
  - vm_compute; reflexivity.
  - right. vm_compute. discriminate.
Defined.

End LedgerExtra.

(** * Properties of sessions and statistics *)

Module SessionsExtra.
Import Ledger LedgerMore.

Lemma fmap_update_absent {A} (f : A → A) id (rows : list (Z * A)) :
  (∀ row, row ∈ rows → row.1 ≠ id) → update_where_id f id <$> rows = rows.
Proof.
  intros Hid. induction rows as [|row rows IH]; [done|].
  rewrite fmap_cons, IH by (intros r Hr; apply Hid; by right).
  unfold update_where_id. rewrite decide_False by (apply Hid; left). done.
Qed.

Lemma update_where_id_fst {A} (f : A → A) id (row : Z * A) :
  (update_where_id f id row).1 = row.1.
Proof. unfold update_where_id. by case_decide. Qed.

Lemma stats_bindable (stats : gmap string pyval) :
  Forall (λ key, stats !! key ≠ Some PNested)
    ["processed"; "uploaded"; "failed"; "bytes_uploaded"] →
  (check_bind "files_processed" (dict_get stats "processed" (PInt 0));;
   check_bind "files_uploaded" (dict_get stats "uploaded" (PInt 0));;
   check_bind "files_failed" (dict_get stats "failed" (PInt 0));;
   check_bind "bytes_uploaded" (dict_get stats "bytes_uploaded" (PInt 0)))
  = Ok tt.
Proof.
  intros Hn.
  assert (∀ key, stats !! key ≠ Some PNested →
                 unbindable (dict_get stats key (PInt 0)) = false) as Hb.
  { intros key Hkey. unfold dict_get.
    destruct (stats !! key) as [[]|]; done. }
  rewrite !Forall_cons in Hn. destruct Hn as (H1 & H2 & H3 & H4 & _).
  unfold check_bind, mbind, res_bind.
  by rewrite (Hb _ H1), (Hb _ H2), (Hb _ H3), (Hb _ H4).
Qed.

(** X10. [start_sync_session] returns an id that no session of the table
    has, appends the new session and leaves the others as they were;
    rowids stay distinct and below the counter. *)
Theorem start_sync_session_fresh now service t :
  rowids_ok (sync_sessions t) (sessions_seq t) →
  let t' := (start_sync_session now service t).1 in
  let id := (start_sync_session now service t).2 in
  (∀ row, row ∈ sync_sessions t → row.1 < id)
  ∧ (∃ r, sync_sessions t' = (sync_sessions t ++ [(id, r)])%list
          ∧ ss_service r = service ∧ ss_status r = "running"
          ∧ ss_started_at r = now ∧ ss_completed_at r = None)
  ∧ rowids_ok (sync_sessions t') (sessions_seq t').
Proof.
  intros Hok. cbn. split; [|split].
  - intros row Hrow. destruct Hok as [_ Hle].
    rewrite Forall_forall in Hle. specialize (Hle row Hrow). cbn in Hle. lia.
  - eexists. split; [reflexivity|done].
  - by apply LedgerExtra.rowids_ok_append.
Qed.

Lemma start_sync_session_fresh_witness :
  let t' := (start_sync_session "2024-01-01T00:00:00" "drive" no_sessions).1 in
  let id := (start_sync_session "2024-01-01T00:00:00" "drive" no_sessions).2 in
  (∀ row, row ∈ sync_sessions no_sessions → row.1 < id)
  ∧ (∃ r, sync_sessions t' = (sync_sessions no_sessions ++ [(id, r)])%list
          ∧ ss_service r = "drive" ∧ ss_status r = "running"
          ∧ ss_started_at r = "2024-01-01T00:00:00" ∧ ss_completed_at r = None)
  ∧ rowids_ok (sync_sessions t') (sessions_seq t').
Proof.
  apply (start_sync_session_fresh "2024-01-01T00:00:00" "drive" no_sessions).
  split; simpl; constructor.
Defined.

(** X11. Completing the session that [start_sync_session] has just opened
    stores the four counters of [stats] under the session, 0 for a counter
    that [stats] lacks, with status 'completed'; every other key of [stats]
    is ignored and every other session is left as it was. *)
Theorem complete_after_start now1 now2 service stats t :
  rowids_ok (sync_sessions t) (sessions_seq t) →
  Forall (λ key, stats !! key ≠ Some PNested)
    ["processed"; "uploaded"; "failed"; "bytes_uploaded"] →
  let t1 := (start_sync_session now1 service t).1 in
  let id := (start_sync_session now1 service t).2 in
  complete_sync_session now2 id stats t1
  = (Sessions
       (sync_sessions t ++
        [(id, SessionCols service now1 (Some now2) "completed"
                (default (PInt 0) (stats !! "processed"))
                (default (PInt 0) (stats !! "uploaded"))
                (default (PInt 0) (stats !! "failed"))
                (default (PInt 0) (stats !! "bytes_uploaded"))
                None)])%list
       id,
     None).
Proof.
  intros Hok Hbind. cbn [start_sync_session fst snd].
  unfold complete_sync_session.
  rewrite (stats_bindable stats) by done.
  cbn [sync_sessions sessions_seq]. f_equal. f_equal.
  rewrite fmap_app, fmap_update_absent.
  - cbn. unfold update_where_id. by rewrite decide_True.
  - intros row Hrow. destruct Hok as [_ Hle].
    rewrite Forall_forall in Hle. specialize (Hle row Hrow). cbn in Hle. lia.
Qed.

Lemma complete_after_start_witness :
  let t1 := (start_sync_session "2024-01-01T00:00:00" "drive" no_sessions).1 in
  let id := (start_sync_session "2024-01-01T00:00:00" "drive" no_sessions).2 in
  complete_sync_session "2024-01-01T00:10:00" id MoreExamples.pass_stats t1
  = (Sessions
       (sync_sessions no_sessions ++
        [(id, SessionCols "drive" "2024-01-01T00:00:00"
                (Some "2024-01-01T00:10:00") "completed"
                (default (PInt 0) (MoreExamples.pass_stats !! "processed"))
                (default (PInt 0) (MoreExamples.pass_stats !! "uploaded"))
                (default (PInt 0) (MoreExamples.pass_stats !! "failed"))
                (default (PInt 0) (MoreExamples.pass_stats !! "bytes_uploaded"))
                None)])%list
       id,
     None).
Proof.
  apply (complete_after_start "2024-01-01T00:00:00" "2024-01-01T00:10:00"
           "drive" MoreExamples.pass_stats no_sessions).
  - split; simpl; constructor.
  - repeat constructor; vm_compute; discriminate.
Defined.

(** X12. A session id that no session has makes [complete_sync_session]
    and [fail_sync_session] do nothing, without an error. *)
Theorem session_update_unknown_id now id stats msg t :
  (∀ row, row ∈ sync_sessions t → row.1 ≠ id) →
  Forall (λ key, stats !! key ≠ Some PNested)
    ["processed"; "uploaded"; "failed"; "bytes_uploaded"] →
  complete_sync_session now id stats t = (t, None)
  ∧ fail_sync_session now id msg t = t.
Proof.
  intros Hid Hbind. unfold complete_sync_session, fail_sync_session.
  rewrite (stats_bindable stats) by done.
  rewrite !fmap_update_absent by done. by destruct t.
Qed.

Lemma session_update_unknown_id_witness :
  complete_sync_session "2024-01-01T00:20:00" 7 MoreExamples.pass_stats
    MoreExamples.one_session
  = (MoreExamples.one_session, None)
  ∧ fail_sync_session "2024-01-01T00:20:00" 7 "boom" MoreExamples.one_session
    = MoreExamples.one_session.
Proof.
  apply (session_update_unknown_id "2024-01-01T00:20:00" 7
           MoreExamples.pass_stats "boom" MoreExamples.one_session).
  - intros row Hrow Hid. vm_compute in Hrow.
    apply list_elem_of_singleton in Hrow. by subst row.
  - repeat constructor; vm_compute; discriminate.
Defined.

(** X13. Neither update looks at the status of the session it rewrites: a
    completed session can still be failed, which keeps its counters and
    start time and sets the error; a failed session can still be completed,
    which keeps its error message. *)
Theorem session_rewritten_whatever_status now id stats msg t i row :
  sync_sessions t !! i = Some row → row.1 = id →
  Forall (λ key, stats !! key ≠ Some PNested)
    ["processed"; "uploaded"; "failed"; "bytes_uploaded"] →
  (∃ r, sync_sessions (fail_sync_session now id msg t) !! i = Some (id, r)
        ∧ ss_status r = "failed" ∧ ss_error_message r = Some msg
        ∧ ss_completed_at r = Some now
        ∧ ss_started_at r = ss_started_at row.2
        ∧ ss_files_processed r = ss_files_processed row.2
        ∧ ss_files_uploaded r = ss_files_uploaded row.2
        ∧ ss_files_failed r = ss_files_failed row.2
        ∧ ss_bytes_uploaded r = ss_bytes_uploaded row.2)
  ∧ (∃ r, sync_sessions (complete_sync_session now id stats t).1 !! i
          = Some (id, r)
          ∧ ss_status r = "completed"
          ∧ ss_error_message r = ss_error_message row.2
          ∧ ss_completed_at r = Some now
          ∧ ss_started_at r = ss_started_at row.2).
Proof.
  intros Hi Hid Hbind. split.
  - unfold fail_sync_session. cbn [sync_sessions].
    rewrite list_lookup_fmap, Hi. cbn. unfold update_where_id.
    rewrite decide_True by done. rewrite Hid. by eexists.
  - unfold complete_sync_session. rewrite (stats_bindable stats) by done.
    cbn [fst sync_sessions].
    rewrite list_lookup_fmap, Hi. cbn. unfold update_where_id.
    rewrite decide_True by done. rewrite Hid. by eexists.
Qed.

Lemma session_rewritten_whatever_status_witness :
  (∃ r, sync_sessions (fail_sync_session "2024-01-01T00:20:00" 1 "boom"
                         MoreExamples.one_session) !! 0%nat = Some (1, r)
        ∧ ss_status r = "failed" ∧ ss_error_message r = Some "boom"
        ∧ ss_completed_at r = Some "2024-01-01T00:20:00"
        ∧ ss_started_at r = "2024-01-01T00:00:00"
        ∧ ss_files_processed r = PInt 3
        ∧ ss_files_uploaded r = PInt 2
        ∧ ss_files_failed r = PInt 0
        ∧ ss_bytes_uploaded r = PInt 10)
  ∧ (∃ r, sync_sessions
            (complete_sync_session "2024-01-01T00:20:00" 1
               MoreExamples.pass_stats MoreExamples.one_session).1 !! 0%nat
          = Some (1, r)
          ∧ ss_status r = "completed"
          ∧ ss_error_message r = None
          ∧ ss_completed_at r = Some "2024-01-01T00:20:00"
          ∧ ss_started_at r = "2024-01-01T00:00:00").
Proof.
  apply (session_rewritten_whatever_status "2024-01-01T00:20:00" 1
           MoreExamples.pass_stats "boom" MoreExamples.one_session 0
           (1, SessionCols "drive" "2024-01-01T00:00:00"
                 (Some "2024-01-01T00:10:00") "completed" (PInt 3) (PInt 2)
                 (PInt 0) (PInt 10) None)).
  - vm_compute; reflexivity.
  - reflexivity.
  - repeat constructor; vm_compute; discriminate.
Defined.

End SessionsExtra.

(** * Properties of [get_sync_stats] *)

Module StatsExtra.
Import Ledger LedgerMore.

Lemma length_filter_or {A} (P Q : A → Prop) `{∀ x, Decision (P x)}
    `{∀ x, Decision (Q x)} (l : list A) :
  (∀ x, P x → Q x → False) →
  length (filter (λ x, P x ∨ Q x) l)
  = (length (filter P l) + length (filter Q l))%nat.
Proof.
  intros Hdisj. induction l as [|x l IH]; [done|].
  rewrite !filter_cons.
  destruct (decide (P x)) as [HP|HP], (decide (Q x)) as [HQ|HQ].
  - by destruct (Hdisj x).
  - rewrite decide_True by tauto. cbn. lia.
  - rewrite decide_True by tauto. cbn. lia.
  - rewrite decide_False by tauto. done.
Qed.

Lemma length_filter_and_le {A} (P Q : A → Prop) `{∀ x, Decision (P x)}
    `{∀ x, Decision (Q x)} (l : list A) :
  (length (filter (λ x, P x ∧ Q x) l) ≤ length (filter Q l))%nat.
Proof.
  rewrite <- (list_filter_filter P Q). apply length_filter.
Qed.

(** X14. The pending count of [get_sync_stats] counts status 'pending'
    only: what the next queue pass can pick up, [get_pending_uploads] with
    no limit, is that count plus the rows in status 'retrying'. The counts
    for one service never exceed the counts over all services, and pending
    and failed together never exceed the queue. *)
Theorem get_sync_stats_counts service d t :
  length (get_pending_uploads (-1) d)
  = (st_pending_uploads (get_sync_stats None d t)
     + length (filter (λ row, uq_status row.2 = "retrying") (upload_queue d)))%nat
  ∧ (st_synced_files (get_sync_stats service d t)
     ≤ st_synced_files (get_sync_stats None d t))%nat
  ∧ (st_pending_uploads (get_sync_stats service d t)
     ≤ st_pending_uploads (get_sync_stats None d t))%nat
  ∧ (st_failed_uploads (get_sync_stats service d t)
     ≤ st_failed_uploads (get_sync_stats None d t))%nat
  ∧ (st_pending_uploads (get_sync_stats None d t)
     + st_failed_uploads (get_sync_stats None d t)
     ≤ length (upload_queue d))%nat.
Proof.
  split; [|split; [|split; [|split]]].
  - unfold get_pending_uploads, sql_limit. rewrite decide_True by lia.
    rewrite LedgerSpec.order_by_created_at_perm. cbn.
    apply (length_filter_or (λ row : Z * queue_cols, uq_status row.2 = "pending")
             (λ row, uq_status row.2 = "retrying")).
    intros row ->. discriminate.
  - unfold get_sync_stats. destruct (truthy service); cbn; [|done].
    apply length_filter.
  - unfold get_sync_stats. destruct (truthy service); cbn; [|done].
    apply length_filter_and_le.
  - unfold get_sync_stats. destruct (truthy service); cbn; [|done].
    apply length_filter_and_le.
  - cbn.
    rewrite <- (length_filter_or
                  (λ row : Z * queue_cols, uq_status row.2 = "pending")
                  (λ row, uq_status row.2 = "failed")).
    + apply length_filter.
    + intros row ->. discriminate.
Qed.

(** *** Recent sessions *)

Lemma started_not_before_trans a b c :
  started_not_before a b → started_not_before b c → started_not_before a c.
Proof.
  unfold started_not_before, started_ge. intros Hab Hbc.
  by eapply LedgerSpec.string_leb_trans.
Qed.

Lemma started_not_before_total a b :
  started_ge a b = false → started_not_before b a.
Proof.
  unfold started_not_before, started_ge. intros H.
  destruct (String.leb_total (ss_started_at a.2) (ss_started_at b.2));
    congruence.
Qed.

Lemma insert_by_started_at_perm r l : insert_by_started_at r l ≡ₚ r :: l.
Proof.
  induction l as [|x l IH]; cbn; [done|].
  destruct (started_ge r x); [done|]. rewrite IH. apply Permutation_swap.
Qed.

Lemma order_by_started_at_desc_perm l : order_by_started_at_desc l ≡ₚ l.
Proof.
  induction l as [|x l IH]; cbn; [done|].
  by rewrite insert_by_started_at_perm, IH.
Qed.

Lemma insert_by_started_at_sorted r l :
  StronglySorted started_not_before l →
  StronglySorted started_not_before (insert_by_started_at r l).
Proof.
  induction l as [|x l IH]; cbn; intros Hl; [repeat constructor|].
  apply StronglySorted_cons in Hl as [Hx Hl].
  destruct (started_ge r x) eqn:Hrx.
  - apply StronglySorted_cons. split; [|by apply StronglySorted_cons].
    constructor; [exact Hrx|].
    eapply Forall_impl; [exact Hx|]. intros y Hy.
    by eapply started_not_before_trans.
  - apply StronglySorted_cons. split; [|by apply IH].
    rewrite insert_by_started_at_perm. constructor; [|done].
    by apply started_not_before_total.
Qed.

Lemma order_by_started_at_desc_sorted l :
  StronglySorted started_not_before (order_by_started_at_desc l).
Proof.
  induction l as [|x l IH]; cbn; [constructor|].
  by apply insert_by_started_at_sorted.
Qed.

(** X15. The recent sessions of [get_sync_stats] are at most five sessions
    of the table, the latest started first; with a service given they are
    sessions of that service, and no session of it that is left out started
    later than one that is listed. *)
Theorem get_sync_stats_recent_sessions service d t :
  let recent := st_recent_sessions (get_sync_stats service d t) in
  (length recent ≤ 5)%nat
  ∧ StronglySorted started_not_before recent
  ∧ recent ⊆ sync_sessions t
  ∧ (truthy service = true →
     ∀ row, row ∈ recent → Some (ss_service row.2) = service)
  ∧ ∀ row other,
      row ∈ recent → other ∈ sync_sessions t → other ∉ recent →
      (truthy service = true → Some (ss_service other.2) = service) →
      started_not_before row other.
Proof.
  assert (∀ rows : list (Z * session_cols),
            (length (sql_limit 5 (order_by_started_at_desc rows)) ≤ 5)%nat
            ∧ StronglySorted started_not_before
                (sql_limit 5 (order_by_started_at_desc rows))
            ∧ sql_limit 5 (order_by_started_at_desc rows) ⊆ rows
            ∧ ∀ row other,
                row ∈ sql_limit 5 (order_by_started_at_desc rows) →
                other ∈ rows →
                other ∉ sql_limit 5 (order_by_started_at_desc rows) →
                started_not_before row other) as Hgen.
  { intros rows. unfold sql_limit. rewrite decide_False by lia.
    change (Z.to_nat 5) with 5%nat.
    pose proof (order_by_started_at_desc_sorted rows) as Hsorted.
    rewrite <- (take_drop 5 (order_by_started_at_desc rows)) in Hsorted.
    split; [rewrite length_take; lia|].
    split; [by apply StronglySorted_app_1_l in Hsorted|].
    split.
    - intros row Hrow. apply (sublist_subseteq _ _ (sublist_take _ _)) in Hrow.
      by rewrite order_by_started_at_desc_perm in Hrow.
    - intros row other Hrow Hother Hnot.
      eapply StronglySorted_app_1_elem_of; [exact Hsorted|exact Hrow|].
      rewrite <- order_by_started_at_desc_perm in Hother.
      rewrite <- (take_drop 5 (order_by_started_at_desc rows)) in Hother.
      apply elem_of_app in Hother as [Hother|Hother]; [done|exact Hother]. }
  unfold get_sync_stats. destruct (truthy service) eqn:Htruthy;
    cbn [st_recent_sessions].
  - destruct service as [sv|]; [|done]. cbn [default].
    destruct (Hgen (filter (λ row, ss_service row.2 = sv) (sync_sessions t)))
      as (Hlen & Hsorted & Hsub & Hold).
    split; [done|]. split; [done|]. split; [|split].
    + intros row Hrow%Hsub. by apply list_elem_of_filter in Hrow as [_ ?].
    + intros _ row Hrow%Hsub. apply list_elem_of_filter in Hrow as [Hs _].
      by rewrite Hs.
    + intros row other Hrow Hother Hnot Hservice.
      apply Hold; [done| |done]. apply list_elem_of_filter. split; [|done].
      specialize (Hservice eq_refl). by injection Hservice.
  - destruct (Hgen (sync_sessions t)) as (Hlen & Hsorted & Hsub & Hold).
    split; [done|]. split; [done|]. split; [done|]. split; [done|].
    intros row other Hrow Hother Hnot _. by apply Hold.
Qed.

(** *** How the counts move *)

Lemma length_filter_key_NoDup {A K} `{EqDecision K} (f : A → K) (k : K)
    (l : list A) :
  NoDup (f <$> l) →
  length (filter (λ x, f x = k) l)
  = if decide (k ∈ f <$> l) then 1%nat else 0%nat.
Proof.
  induction l as [|x l IH]; intros Hnd; [done|].
  rewrite fmap_cons in Hnd. apply NoDup_cons in Hnd as [Hx Hnd].
  rewrite filter_cons, fmap_cons. specialize (IH Hnd).
  destruct (decide (f x = k)) as [<-|Hne].
  - rewrite decide_True by left. cbn. rewrite IH, decide_False by done. done.
  - rewrite IH. destruct (decide (k ∈ f <$> l)) as [Hin|Hin].
    + rewrite decide_True by (by right). done.
    + rewrite decide_False; [done|].
      intros [?|?]%elem_of_cons; [congruence|done].
Qed.

Lemma length_filter_complement {A} (P : A → Prop) `{∀ x, Decision (P x)}
    (l : list A) :
  length l = (length (filter P l) + length (filter (λ x, ¬ P x) l))%nat.
Proof. by rewrite <- length_app, filter_app_complement. Qed.

(** X16. With the UNIQUE constraint on google_id in force, a
    [mark_file_synced] that returns raises the number of synced files by
    one for a google_id the table did not have and leaves it unchanged for
    one it had, under whatever service that was. *)
Theorem mark_file_synced_count now g s fi silo bucket d d' t :
  synced_unique d →
  mark_file_synced now g s fi silo bucket d = (d', None) →
  st_synced_files (get_sync_stats None d' t)
  = if decide (g ∈ (λ row, sf_google_id row.2) <$> synced_files d)
    then st_synced_files (get_sync_stats None d t)
    else S (st_synced_files (get_sync_stats None d t)).
Proof.
  intros Hu ->%LedgerSpec.mark_file_synced_ok. cbn.
  rewrite length_app. cbn.
  rewrite (length_filter_complement (λ row, sf_google_id row.2 = g)
             (synced_files d)).
  rewrite (length_filter_key_NoDup (λ row : Z * synced_cols, sf_google_id row.2)
             g (synced_files d) Hu).
  assert (filter (λ row, ¬ synced_conflict
                             (synced_row_of now g s fi silo bucket) row.2)
            (synced_files d)
          = filter (λ row, ¬ sf_google_id row.2 = g) (synced_files d)) as ->.
  { apply list_filter_iff. intros row. unfold synced_conflict. cbn. tauto. }
  case_decide; lia.
Qed.

Lemma mark_file_synced_count_witness :
  st_synced_files (get_sync_stats None Examples.marked_photos no_sessions)
  = if decide ("A" ∈ (λ row, sf_google_id row.2)
                       <$> synced_files Examples.marked_once)
    then st_synced_files (get_sync_stats None Examples.marked_once no_sessions)
    else S (st_synced_files
              (get_sync_stats None Examples.marked_once no_sessions)).
Proof.
  apply (mark_file_synced_count "2024-01-01T00:00:03" "A" "photos"
           Examples.info_b (Some "s3") (Some "b3") Examples.marked_once
           Examples.marked_photos no_sessions).
  - vm_compute. repeat constructor. by intros ?%elem_of_nil.
  - vm_compute; reflexivity.
Defined.

End StatsExtra.

(** * More properties of the upload client *)

Module ClientExtra.
Import Client ClientMore.

#[local] Open Scope Z_scope.

(** *** Waiting out the rate limit *)

(** X17. [_wait_if_rate_limited] leaves the client outside the rate-limit
    window: afterwards [_is_rate_limited] is false. It sleeps at most once,
    for a positive time, exactly until the window closes, and does nothing
    when the window is not open; the window itself and the statistics are
    not touched. *)
Theorem wait_if_rate_limited_spec st :
  let st' := (_wait_if_rate_limited st).1 in
  let evs := (_wait_if_rate_limited st).2 in
  _is_rate_limited st' = false
  ∧ _rate_limit_until st' = _rate_limit_until st
  ∧ cstats st' = cstats st
  ∧ (_is_rate_limited st = false → st' = st ∧ evs = [])
  ∧ (_is_rate_limited st = true →
     ∃ wait_time, evs = [EvSleep wait_time]
       ∧ (0 < wait_time)%Q
       ∧ (clock st' == _rate_limit_until st)%Q).
Proof.
  unfold _wait_if_rate_limited, _is_rate_limited.
  destruct (bool_decide (clock st < _rate_limit_until st)%Q) eqn:Hlim.
  - apply bool_decide_eq_true in Hlim.
    assert (0 < Qmax 0 (_rate_limit_until st - clock st))%Q as Hpos.
    { eapply Qlt_le_trans; [|apply Q.le_max_r]. lra. }
    rewrite (bool_decide_eq_true_2 _ Hpos). cbn [fst snd].
    assert (clock (sleep (Qmax 0 (_rate_limit_until st - clock st)) st)
            == _rate_limit_until st)%Q as Hclock.
    { cbn. rewrite Q.max_r by lra. ring. }
    split.
    + apply bool_decide_eq_false. cbn [_rate_limit_until sleep].
      rewrite Hclock. apply Qlt_irrefl.
    + split; [done|]. split; [done|]. split; [done|].
      intros _. by eexists.
  - cbn [fst snd]. split; [exact Hlim|]. done.
Qed.

(** X18. Every pass through the loop starts with the rate-limit check, so a
    request is never sent inside the window that was open when the pass
    began: the events of the pass begin with those of
    [_wait_if_rate_limited], and when a request follows, the clock has
    reached [_rate_limit_until]. *)
Theorem no_request_inside_window cfg name w rc st :
  ∃ rest,
    (loop_body cfg name w rc st).1.2
    = ((_wait_if_rate_limited st).2 ++ rest)%list
    ∧ (_rate_limit_until st <= clock (_wait_if_rate_limited st).1)%Q
    ∧ (∀ ev, ev ∈ rest → ev = EvPost ∨ ∃ x, ev = EvSleep x ∧ (0 < x)%Q)
    ∧ (network_attempts rest ≤ 1)%nat.
Proof.
  assert (_rate_limit_until st <= clock (_wait_if_rate_limited st).1)%Q
    as Hclock.
  { unfold _wait_if_rate_limited, _is_rate_limited.
    destruct (bool_decide (clock st < _rate_limit_until st)%Q) eqn:Hlim.
    - apply bool_decide_eq_true in Hlim.
      rewrite bool_decide_eq_true_2
        by (eapply Qlt_le_trans; [|apply Q.le_max_r]; lra).
      cbn. rewrite Q.max_r by lra. lra.
    - apply bool_decide_eq_false in Hlim. cbn. by apply Qnot_lt_le. }
  assert (∀ n u, 0 < _calculate_backoff cfg n u)%Q as Hback.
  { intros n u. eapply Qlt_le_trans; [|apply ClientSpec.jittered_floor]. lra. }
  unfold loop_body, try_body, except_clauses.
  destruct (_wait_if_rate_limited st) as [st1 wevs]. cbn [fst snd] in *.
  repeat case_match; simplify_eq; cbn [fst snd];
    rewrite <- ?app_assoc; cbn [app];
    (eexists; split; [first [reflexivity | symmetry; apply app_nil_r]|]);
    (split; [exact Hclock|]);
    (split; [|by vm_compute; lia]);
    intros ev Hev; rewrite ?elem_of_cons, ?elem_of_nil in Hev;
    repeat (destruct Hev as [->|Hev]); try done;
    first [by left | right; eexists; split; [reflexivity|apply Hback]].
Qed.


(** *** Bookkeeping of a call *)

Lemma wait_events_positive st ev :
  ev ∈ (_wait_if_rate_limited st).2 → ∃ x, ev = EvSleep x ∧ (0 < x)%Q.
Proof.
  unfold _wait_if_rate_limited.
  destruct (_is_rate_limited st); [|by intros ?%elem_of_nil].
  destruct (bool_decide (0 < Qmax 0 (_rate_limit_until st - clock st))%Q)
    eqn:Hpos; [|by intros ?%elem_of_nil].
  apply bool_decide_eq_true in Hpos.
  intros ->%list_elem_of_singleton. by eexists.
Qed.

Lemma loop_body_sleeps_positive cfg name w rc st ev :
  ev ∈ (loop_body cfg name w rc st).1.2 →
  ev = EvPost ∨ ∃ x, ev = EvSleep x ∧ (0 < x)%Q.
Proof.
  assert (∀ n u, 0 < _calculate_backoff cfg n u)%Q as Hback.
  { intros n u. eapply Qlt_le_trans; [|apply ClientSpec.jittered_floor]. lra. }
  pose proof (wait_events_positive st) as Hwait.
  unfold loop_body, try_body, except_clauses.
  destruct (_wait_if_rate_limited st) as [st1 wevs]. cbn [fst snd] in *.
  repeat case_match; simplify_eq; cbn [fst snd];
    rewrite ?elem_of_app, ?elem_of_cons, ?elem_of_nil;
    intros Hev;
    repeat match goal with H : _ ∨ _ |- _ => destruct H as [H|H] end;
    subst; try done;
    first [right; by apply Hwait | by left
          | right; eexists; split; [reflexivity|apply Hback]].
Qed.

Lemma loop_body_stats cfg name w rc st st' evs f :
  loop_body cfg name w rc st = (st', evs, f) →
  uploads_attempted (cstats st') = uploads_attempted (cstats st)
  ∧ rate_limits_hit (cstats st) <= rate_limits_hit (cstats st')
  ∧ match f with
    | Continue _ =>
        uploads_succeeded (cstats st') = uploads_succeeded (cstats st)
        ∧ uploads_failed (cstats st') = uploads_failed (cstats st)
        ∧ bytes_uploaded (cstats st') = bytes_uploaded (cstats st)
    | Return r =>
        if success r
        then uploads_succeeded (cstats st') = uploads_succeeded (cstats st) + 1
             ∧ uploads_failed (cstats st') = uploads_failed (cstats st)
        else uploads_succeeded (cstats st') = uploads_succeeded (cstats st)
             ∧ uploads_failed (cstats st') = uploads_failed (cstats st) + 1
             ∧ bytes_uploaded (cstats st') = bytes_uploaded (cstats st)
    end.
Proof.
  unfold loop_body, try_body, except_clauses.
  pose proof (ClientSpec.wait_keeps_stats st) as Hs.
  destruct (_wait_if_rate_limited st) as [st1 wevs]. cbn [fst] in Hs.
  repeat case_match; intros; simplify_eq; cbn; rewrite Hs; cbn; lia.
Qed.

Lemma upload_loop_bookkeeping cfg name world : ∀ fuel i rc st tr r st' tr',
  upload_loop fuel cfg name world i rc st tr = Some (r, st', tr') →
  (∀ ev, ev ∈ tr → ev = EvPost ∨ ∃ x, ev = EvSleep x ∧ (0 < x)%Q) →
  uploads_attempted (cstats st') = uploads_attempted (cstats st)
  ∧ rate_limits_hit (cstats st) <= rate_limits_hit (cstats st')
  ∧ (if success r
     then uploads_succeeded (cstats st') = uploads_succeeded (cstats st) + 1
          ∧ uploads_failed (cstats st') = uploads_failed (cstats st)
     else uploads_succeeded (cstats st') = uploads_succeeded (cstats st)
          ∧ uploads_failed (cstats st') = uploads_failed (cstats st) + 1
          ∧ bytes_uploaded (cstats st') = bytes_uploaded (cstats st))
  ∧ (∀ ev, ev ∈ tr' → ev = EvPost ∨ ∃ x, ev = EvSleep x ∧ (0 < x)%Q).
Proof.
  induction fuel as [|fuel IH]; intros i rc st tr r st' tr'; cbn [upload_loop].
  - case_decide; [done|]. intros [= <- <- <-] Htr. cbn. split; [done|].
    split; [lia|]. split; [lia|done].
  - case_decide.
    2: { intros [= <- <- <-] Htr. cbn. split; [done|].
         split; [lia|]. split; [lia|done]. }
    destruct (loop_body cfg name (world i) rc st) as [[st1 evs] f] eqn:Hbody.
    pose proof (loop_body_stats _ _ _ _ _ _ _ _ Hbody) as (Ha & Hr & Hf).
    assert (∀ tr0, (∀ ev, ev ∈ tr0 →
                      ev = EvPost ∨ ∃ x, ev = EvSleep x ∧ (0 < x)%Q) →
                   ∀ ev, ev ∈ (tr0 ++ evs)%list →
                     ev = EvPost ∨ ∃ x, ev = EvSleep x ∧ (0 < x)%Q) as Hevs.
    { intros tr0 Htr0 ev [Hev|Hev]%elem_of_app; [by apply Htr0|].
      apply (loop_body_sleeps_positive cfg name (world i) rc st).
      by rewrite Hbody. }
    destruct f as [r0|rc'].
    + intros [= <- <- <-] Htr. split; [done|]. split; [done|].
      split; [exact Hf|]. by apply Hevs.
    + intros Hloop Htr.
      destruct (IH _ _ _ _ _ _ _ Hloop (Hevs tr Htr)) as (Ha' & Hr' & Hf' & Hp').
      destruct Hf as (Hs1 & Hf1 & Hb1).
      split; [congruence|]. split; [lia|]. split; [|done].
      rewrite <- Hs1, <- Hf1, <- Hb1. exact Hf'.
Qed.

Lemma upload_file_counts cfg name world st r st' tr :
  upload_file cfg name world st = Some (r, st', tr) →
  uploads_attempted (cstats st') = uploads_attempted (cstats st) + 1
  ∧ rate_limits_hit (cstats st) <= rate_limits_hit (cstats st')
  ∧ (if success r
     then uploads_succeeded (cstats st') = uploads_succeeded (cstats st) + 1
          ∧ uploads_failed (cstats st') = uploads_failed (cstats st)
     else uploads_succeeded (cstats st') = uploads_succeeded (cstats st)
          ∧ uploads_failed (cstats st') = uploads_failed (cstats st) + 1
          ∧ bytes_uploaded (cstats st') = bytes_uploaded (cstats st))
  ∧ (∀ ev, ev ∈ tr → ev = EvPost ∨ ∃ x, ev = EvSleep x ∧ (0 < x)%Q).
Proof.
  unfold upload_file. intros Hloop.
  destruct (upload_loop_bookkeeping _ _ _ _ _ _ _ _ _ _ _ Hloop)
    as (Ha & Hr & Hf & Hp); [by intros ev ?%elem_of_nil|].
  cbn in Ha, Hr, Hf. done.
Qed.

(** X19. A call of [upload_file] counts once as attempted and once as
    either succeeded or failed, in agreement with the result it returns; a
    failed call adds no bytes and the rate-limit counter never goes down.
    Every sleep of the call is for a positive time. *)
Theorem upload_file_bookkeeping cfg name world st r st' tr :
  upload_file cfg name world st = Some (r, st', tr) →
  uploads_attempted (cstats st') = uploads_attempted (cstats st) + 1
  ∧ uploads_succeeded (cstats st') + uploads_failed (cstats st')
    = uploads_succeeded (cstats st) + uploads_failed (cstats st) + 1
  ∧ (success r = true ↔
     uploads_succeeded (cstats st') = uploads_succeeded (cstats st) + 1)
  ∧ (success r = false → bytes_uploaded (cstats st') = bytes_uploaded (cstats st))
  ∧ rate_limits_hit (cstats st) <= rate_limits_hit (cstats st')
  ∧ ∀ x, EvSleep x ∈ tr → (0 < x)%Q.
Proof.
  intros (Ha & Hr & Hf & Hp)%upload_file_counts. split; [done|].
  destruct (success r).
  - destruct Hf as [Hs Hf]. split; [lia|]. split; [done|]. split; [done|].
    split; [done|]. intros x [[=]|(y & [= ->] & Hy)]%Hp. done.
  - destruct Hf as (Hs & Hf & Hb). split; [lia|]. split; [split; [done|lia]|].
    split; [done|]. split; [done|].
    intros x [[=]|(y & [= ->] & Hy)]%Hp. done.
Qed.

Lemma upload_file_bookkeeping_witness :
  ∃ r st' tr,
    upload_file Examples.default_config "a.txt" (λ _, Examples.slow_down)
      Examples.fresh_client = Some (r, st', tr)
    ∧ uploads_attempted (cstats st')
      = uploads_attempted (cstats Examples.fresh_client) + 1
    ∧ uploads_succeeded (cstats st') + uploads_failed (cstats st')
      = uploads_succeeded (cstats Examples.fresh_client)
        + uploads_failed (cstats Examples.fresh_client) + 1
    ∧ (success r = true ↔
       uploads_succeeded (cstats st')
       = uploads_succeeded (cstats Examples.fresh_client) + 1)
    ∧ (success r = false →
       bytes_uploaded (cstats st') = bytes_uploaded (cstats Examples.fresh_client))
    ∧ rate_limits_hit (cstats Examples.fresh_client)
      <= rate_limits_hit (cstats st')
    ∧ ∀ x, EvSleep x ∈ tr → (0 < x)%Q.
Proof.
  eexists _, _, _. split; [vm_compute; reflexivity|].
  apply (upload_file_bookkeeping Examples.default_config "a.txt"
           (λ _, Examples.slow_down) Examples.fresh_client).
  vm_compute; reflexivity.
Defined.

(** *** Success, and what does not count as one *)

Lemma upload_file_first_pass cfg name world st st1 evs r :
  0 <= max_retries cfg →
  loop_body cfg name (world 0%nat) 0 (with_stats bump_attempted st)
  = (st1, evs, Return r) →
  upload_file cfg name world st = Some (r, st1, evs).
Proof.
  intros HM Hbody. unfold upload_file.
  destruct (Z.to_nat (max_retries cfg + 1)) as [|fuel] eqn:Hfuel; [lia|].
  cbn [upload_loop]. rewrite decide_True by lia. by rewrite Hbody.
Qed.



(** X21. Only status 200 is a success: a first request answered with any
    other 2xx status (201 Created, 204 No Content, ...) makes [upload_file]
    return a failed result after that one request, with the status in
    [status_code] and no retry. *)
Theorem upload_file_other_2xx cfg name world st resp :
  0 <= max_retries cfg →
  at_seek (world 0%nat) = None →
  at_post (world 0%nat) = inr resp →
  200 < status_code resp < 300 →
  ∃ msg st' tr,
    upload_file cfg name world st
    = Some (MkUploadResult false PNone (Some name) (Some msg)
              (Some (status_code resp)) None, st', tr)
    ∧ network_attempts tr = 1%nat
    ∧ uploads_failed (cstats st') = uploads_failed (cstats st) + 1
    ∧ uploads_succeeded (cstats st') = uploads_succeeded (cstats st).
Proof.
  intros HM Hseek Hpost Hcode.
  pose proof (ClientSpec.wait_no_network (with_stats bump_attempted st)) as Hw.
  pose proof (ClientSpec.wait_keeps_stats (with_stats bump_attempted st)) as Hs.
  destruct (_wait_if_rate_limited (with_stats bump_attempted st))
    as [st1 wevs] eqn:Hwait. cbn [fst snd] in *.
  eexists _, _, _. split.
  - apply upload_file_first_pass; [done|].
    unfold loop_body, try_body. rewrite Hwait.
    rewrite Hseek, Hpost.
    rewrite decide_False by lia. rewrite decide_False by lia.
    unfold server_error. rewrite bool_decide_eq_false_2 by lia.
    reflexivity.
  - split; [rewrite ClientSpec.network_attempts_app, Hw; done|].
    cbn. rewrite Hs. cbn. done.
Qed.

Lemma upload_file_other_2xx_witness :
  ∃ msg st' tr,
    upload_file Examples.default_config "a.txt"
      (λ _, Examples.answered (Response 201 None "created"))
      Examples.fresh_client
    = Some (MkUploadResult false PNone (Some "a.txt") (Some msg)
              (Some 201) None, st', tr)
    ∧ network_attempts tr = 1%nat
    ∧ uploads_failed (cstats st')
      = uploads_failed (cstats Examples.fresh_client) + 1
    ∧ uploads_succeeded (cstats st')
      = uploads_succeeded (cstats Examples.fresh_client).
Proof.
  apply (upload_file_other_2xx Examples.default_config "a.txt"
           (λ _, Examples.answered (Response 201 None "created"))
           Examples.fresh_client (Response 201 None "created"));
    [simpl; lia | reflexivity | reflexivity | simpl; lia].
Defined.

(** *** Calls one after the other *)

Lemma upload_file_total cfg name world st :
  ∃ r st' tr, upload_file cfg name world st = Some (r, st', tr).
Proof.
  unfold upload_file.
  destruct (ClientSpec.upload_loop_spec cfg name world
              (Z.to_nat (max_retries cfg + 1)) 0 0
              (with_stats bump_attempted st) [])
    as (r & st' & tr & Hloop & _); [lia|].
  by exists r, st', ([] ++ tr)%list.
Qed.

Lemma upload_files_counts cfg : ∀ calls st,
  ∃ rs st',
    upload_files cfg calls st = Some (rs, st')
    ∧ length rs = length calls
    ∧ uploads_attempted (cstats st')
      = uploads_attempted (cstats st) + Z.of_nat (length calls)
    ∧ uploads_succeeded (cstats st')
      = uploads_succeeded (cstats st) + Z.of_nat (successes rs)
    ∧ uploads_failed (cstats st')
      = uploads_failed (cstats st) + Z.of_nat (length rs - successes rs).
Proof.
  induction calls as [|[name world] calls IH]; intros st.
  - exists [], st. cbn. repeat split; lia.
  - destruct (upload_file_total cfg name world st) as (r & st1 & tr & Hcall).
    destruct (IH st1) as (rs & st2 & Hrest & Hlen & Ha & Hs & Hf).
    exists (r :: rs), st2. cbn [upload_files]. rewrite Hcall, Hrest.
    split; [done|].
    destruct (upload_file_counts _ _ _ _ _ _ _ Hcall) as (Ha1 & _ & Hr & _).
    assert (successes rs ≤ length rs)%nat by apply length_filter.
    unfold successes in *. rewrite filter_cons. cbn [length].
    destruct (success r); [rewrite decide_True by done
                          |rewrite decide_False by done];
      cbn [length]; repeat split; lia.
Qed.

(** X22. On a client whose counters are zero, any number of calls of
    [upload_file] one after the other all return; afterwards the calls
    attempted are the calls made, succeeded and failed add up to them, and
    the success rate of [get_stats] is the share of successful results,
    between 0 and 1 (0 when no call was made). *)
Theorem get_stats_after_uploads cfg calls st :
  cstats st = Stats 0 0 0 0 0 →
  ∃ rs st',
    upload_files cfg calls st = Some (rs, st')
    ∧ length rs = length calls
    ∧ uploads_attempted (cstats st') = Z.of_nat (length calls)
    ∧ uploads_succeeded (cstats st') = Z.of_nat (successes rs)
    ∧ uploads_failed (cstats st') = Z.of_nat (length rs - successes rs)
    ∧ (0 <= success_rate (get_stats st') <= 1)%Q
    ∧ (success_rate (get_stats st') * inject_Z (Z.of_nat (length calls))
       == inject_Z (Z.of_nat (successes rs)))%Q
    ∧ (calls = [] → success_rate (get_stats st') = 0%Q).
Proof.
  intros Hzero.
  destruct (upload_files_counts cfg calls st)
    as (rs & st' & Hcalls & Hlen & Ha & Hs & Hf).
  rewrite Hzero in Ha, Hs, Hf.
  cbn [uploads_attempted uploads_succeeded uploads_failed] in Ha, Hs, Hf.
  rewrite Z.add_0_l in Ha, Hs, Hf.
  exists rs, st'. split; [done|]. split; [done|]. split; [done|].
  split; [done|]. split; [done|].
  assert (successes rs ≤ length calls)%nat as Hle
    by (rewrite <- Hlen; apply length_filter).
  unfold get_stats. cbn [success_rate]. rewrite Ha, Hs.
  destruct (decide (Z.of_nat (length calls) > 0)) as [Hpos|Hnone].
  - assert (0 < inject_Z (Z.of_nat (length calls)))%Q as Hq
      by (unfold Qlt; cbn; lia).
    assert (0 <= inject_Z (Z.of_nat (successes rs)))%Q as Hq0
      by (unfold Qle; cbn; lia).
    assert (inject_Z (Z.of_nat (successes rs))
            <= inject_Z (Z.of_nat (length calls)))%Q as Hq1
      by (unfold Qle; cbn; lia).
    split; [split|split].
    + apply Qle_shift_div_l; [done|]. lra.
    + apply Qle_shift_div_r; [done|]. lra.
    + field. lra.
    + intros ->. cbn in Hpos. lia.
  - assert (length calls = 0%nat) as Hnil by lia.
    assert (successes rs = 0%nat) as -> by lia. rewrite Hnil.
    split; [split; lra|]. split; [by vm_compute|done].
Qed.

Lemma get_stats_after_uploads_witness :
  ∃ rs st',
    upload_files Examples.default_config
      [("a.txt", λ _, Examples.not_found);
       ("b.txt", λ _, Examples.answered (Response 200 None "{}"))]
      Examples.fresh_client = Some (rs, st')
    ∧ length rs = 2%nat
    ∧ uploads_attempted (cstats st') = Z.of_nat 2
    ∧ uploads_succeeded (cstats st') = Z.of_nat (successes rs)
    ∧ uploads_failed (cstats st') = Z.of_nat (length rs - successes rs)
    ∧ (0 <= success_rate (get_stats st') <= 1)%Q
    ∧ (success_rate (get_stats st') * inject_Z (Z.of_nat 2)
       == inject_Z (Z.of_nat (successes rs)))%Q
    ∧ ([("a.txt", λ _ : nat, Examples.not_found);
        ("b.txt", λ _ : nat, Examples.answered (Response 200 None "{}"))] = [] →
       success_rate (get_stats st') = 0%Q).
Proof.
  apply (get_stats_after_uploads Examples.default_config
           [("a.txt", λ _, Examples.not_found);
            ("b.txt", λ _, Examples.answered (Response 200 None "{}"))]
           Examples.fresh_client).
  reflexivity.
Defined.

(** *** A call that meets nothing but transient failures *)

Lemma not_rate_limited_later st st' :
  _is_rate_limited st = false →
  _rate_limit_until st' = _rate_limit_until st →
  (clock st <= clock st')%Q →
  _is_rate_limited st' = false.
Proof.
  unfold _is_rate_limited. intros Hlim Huntil Hclock.
  apply bool_decide_eq_false in Hlim. apply bool_decide_eq_false.
  rewrite Huntil. intros H. apply Hlim. lra.
Qed.

Lemma transient_pass cfg name w rc st :
  transient_failure w →
  _is_rate_limited st = false →
  (0 <= at_elapsed w)%Q →
  ∃ st' f,
    loop_body cfg name w rc st
    = (st',
       if decide (rc + 1 > max_retries cfg) then [EvPost]
       else [EvPost; EvSleep (_calculate_backoff cfg rc (at_random w))],
       f)
    ∧ _is_rate_limited st' = false
    ∧ (if decide (rc + 1 > max_retries cfg)
       then ∃ r, f = Return r ∧ success r = false
       else f = Continue (rc + 1)).
Proof.
  intros [Hseek Hpost] Hlim Helapsed.
  assert (0 < _calculate_backoff cfg rc (at_random w))%Q as Hback.
  { eapply Qlt_le_trans; [|apply ClientSpec.jittered_floor]. lra. }
  assert (∀ st1, (clock st <= clock st1)%Q →
                 _rate_limit_until st1 = _rate_limit_until st →
                 _is_rate_limited st1 = false) as Hlater.
  { intros st1 Hc Hu. by eapply not_rate_limited_later. }
  unfold loop_body, try_body, except_clauses, _wait_if_rate_limited.
  rewrite Hlim, Hseek. cbn [app].
  destruct (at_post w) as [e|resp].
  - destruct (is_connection_error e) eqn:Hc;
      [|destruct (is_timeout e) eqn:Ht; [|done]];
      destruct (decide (rc + 1 > max_retries cfg));
      eexists _, _; (split; [reflexivity|]);
      (split; [apply Hlater; cbn; [lra|done] | eauto]).
  - unfold server_error in Hpost. apply bool_decide_eq_true in Hpost.
    rewrite decide_False by lia. rewrite decide_False by lia.
    unfold server_error. rewrite bool_decide_eq_true_2 by done.
    destruct (decide (rc + 1 > max_retries cfg));
      eexists _, _; (split; [reflexivity|]);
      (split; [apply Hlater; cbn; [lra|done] | eauto]).
Qed.

Lemma upload_loop_transient cfg name world :
  (∀ i, transient_failure (world i)) →
  (∀ i, 0 <= at_elapsed (world i))%Q →
  ∀ n i st tr,
    max_retries cfg = Z.of_nat (i + n) →
    _is_rate_limited st = false →
    ∃ r st',
      upload_loop (S n) cfg name world i (Z.of_nat i) st tr
      = Some (r, st',
              (tr ++ flat_map
                       (λ j, [EvPost;
                              EvSleep (_calculate_backoff cfg (Z.of_nat j)
                                         (at_random (world j)))])
                       (seq i n)
                  ++ [EvPost])%list)
      ∧ success r = false.
Proof.
  intros Hworld Helapsed.
  induction n as [|n IH]; intros i st tr HM Hlim; cbn [upload_loop].
  - rewrite decide_True by lia.
    destruct (transient_pass cfg name (world i) (Z.of_nat i) st
                (Hworld i) Hlim (Helapsed i))
      as (st' & f & Hbody & _ & Hf).
    rewrite Hbody.
    destruct (decide (Z.of_nat i + 1 > max_retries cfg)); [|lia].
    destruct Hf as (r & -> & Hr). exists r, st'. cbn. done.
  - rewrite decide_True by lia.
    destruct (transient_pass cfg name (world i) (Z.of_nat i) st
                (Hworld i) Hlim (Helapsed i))
      as (st' & f & Hbody & Hlim' & Hf).
    rewrite Hbody.
    destruct (decide (Z.of_nat i + 1 > max_retries cfg)); [lia|]. subst f.
    replace (Z.of_nat i + 1) with (Z.of_nat (S i)) by lia.
    destruct (IH (S i) st' (tr ++ [EvPost;
                 EvSleep (_calculate_backoff cfg (Z.of_nat i)
                            (at_random (world i)))])%list)
      as (r & st2 & Hloop & Hr); [lia|done|].
    exists r, st2. split; [|done].
    cbn [upload_loop] in Hloop. rewrite Hloop. cbn [seq flat_map].
    by rewrite <- !app_assoc.
Qed.

(** X23. A call that starts outside the rate-limit window and meets only
    server errors (500, 502, 503, 504), connection errors and timeouts
    makes exactly [max_retries + 1] requests and sleeps exactly
    [max_retries] times: after the request of pass [k], for
    [_calculate_backoff(k)], and not after the last one. It returns a
    failure. *)
Theorem upload_file_backoff_schedule cfg name world st :
  0 <= max_retries cfg →
  _is_rate_limited st = false →
  (∀ i, transient_failure (world i)) →
  (∀ i, 0 <= at_elapsed (world i))%Q →
  ∃ r st',
    upload_file cfg name world st
    = Some (r, st',
            backoff_schedule cfg world (Z.to_nat (max_retries cfg)))
    ∧ success r = false
    ∧ network_attempts (backoff_schedule cfg world (Z.to_nat (max_retries cfg)))
      = S (Z.to_nat (max_retries cfg))
    ∧ length (sleeps (backoff_schedule cfg world (Z.to_nat (max_retries cfg))))
      = Z.to_nat (max_retries cfg).
Proof.
  intros HM Hlim Hworld Helapsed. unfold upload_file.
  replace (Z.to_nat (max_retries cfg + 1))
    with (S (Z.to_nat (max_retries cfg))) by lia.
  destruct (upload_loop_transient cfg name world Hworld Helapsed
              (Z.to_nat (max_retries cfg)) 0 (with_stats bump_attempted st) [])
    as (r & st' & Hloop & Hr); [lia|done|].
  exists r, st'. split; [exact Hloop|]. split; [done|].
  assert (∀ n i,
            network_attempts
              (flat_map (λ j, [EvPost;
                               EvSleep (_calculate_backoff cfg (Z.of_nat j)
                                          (at_random (world j)))])
                 (seq i n)) = n
            ∧ length (sleeps
                (flat_map (λ j, [EvPost;
                                 EvSleep (_calculate_backoff cfg (Z.of_nat j)
                                            (at_random (world j)))])
                   (seq i n))) = n) as Hcount.
  { induction n as [|n IH]; intros i; [done|].
    destruct (IH (S i)) as [IH1 IH2]. cbn [seq flat_map].
    unfold network_attempts, sleeps in *. cbn [app].
    rewrite !filter_cons. rewrite decide_True by done.
    rewrite (decide_False (P := EvSleep _ = EvPost)) by done.
    rewrite (decide_False (P := EvPost ≠ EvPost)) by (by intros []).
    rewrite (decide_True (P := EvSleep _ ≠ EvPost)) by done.
    cbn [length]. by rewrite IH1, IH2. }
  destruct (Hcount (Z.to_nat (max_retries cfg)) 0%nat) as [H1 H2].
  unfold backoff_schedule. split.
  - rewrite ClientSpec.network_attempts_app, H1.
    rewrite ClientSpec.network_attempts_post. lia.
  - unfold sleeps in *. rewrite filter_app, length_app, H2.
    rewrite LedgerSpec.filter_one, decide_False by (by intros []). cbn. lia.
Qed.

Lemma upload_file_backoff_schedule_witness :
  ∃ r st',
    upload_file Examples.default_config "a.txt"
      (λ _, Examples.answered (Response 503 None "")) Examples.fresh_client
    = Some (r, st',
            backoff_schedule Examples.default_config
              (λ _, Examples.answered (Response 503 None ""))
              (Z.to_nat (max_retries Examples.default_config)))
    ∧ success r = false
    ∧ network_attempts
        (backoff_schedule Examples.default_config
           (λ _, Examples.answered (Response 503 None ""))
           (Z.to_nat (max_retries Examples.default_config)))
      = S (Z.to_nat (max_retries Examples.default_config))
    ∧ length (sleeps
        (backoff_schedule Examples.default_config
           (λ _, Examples.answered (Response 503 None ""))
           (Z.to_nat (max_retries Examples.default_config))))
      = Z.to_nat (max_retries Examples.default_config).
Proof.
  apply (upload_file_backoff_schedule Examples.default_config "a.txt"
           (λ _, Examples.answered (Response 503 None ""))
           Examples.fresh_client).
  - simpl; lia.
  - reflexivity.
  - intros i. split; reflexivity.
  - intros i. unfold Qle; simpl; lia.
Defined.

End ClientExtra.

(** * Properties of the queue pass *)

Module OrchestratorExtra.
Import Ledger Orchestrator.

(** What a status update can do to the queue: rewrite the rows of the id,
    remove them, or nothing. *)
Lemma update_upload_status_queue now q status err silo d :
  let r := update_upload_status now q status err silo d in
  (r.2 = None ∧ upload_queue r.1 = touch status err now q <$> upload_queue d)
  ∨ (r.2 = None ∧ upload_queue r.1 = filter (λ row, row.1 ≠ q) (upload_queue d))
  ∨ (r.1 = d ∧ (r.2 = None → ∀ row, row ∈ upload_queue d → row.1 ≠ q)).
Proof.
  destruct (bool_decide (status = "completed") && truthy silo) eqn:Hb.
  - apply andb_prop in Hb as [->%bool_decide_eq_true Hsilo].
    destruct (select_queue_by_id d q) as [item|] eqn:Hsel.
    + unfold update_upload_status.
      rewrite (LedgerSpec.promotion_events 0 now q err silo d item Hsel Hsilo).
      rewrite LedgerSpec.promotion_call.
      destruct (exec _ d) as [d1|e] eqn:Hexec; cbn.
      * right. left. split; [done|].
        by rewrite (LedgerSpec.exec_insert_synced _ _ _ Hexec).
      * right. right. split; [done|]. done.
    + right. right. unfold update_upload_status, update_upload_status_events.
      rewrite Hsilo, Hsel. cbn. split; [done|]. intros _ row Hrow Hid.
      unfold select_queue_by_id in Hsel.
      assert (row ∈ filter (λ row, row.1 = q) (upload_queue d)) as Hin
        by (by apply list_elem_of_filter).
      destruct (filter _ _); [by apply elem_of_nil in Hin|done].
  - left. by rewrite LedgerSpec.update_upload_status_plain.
Qed.

Lemma touch_settles status err now q (rows : list (Z * queue_cols)) :
  status ≠ "pending" → status ≠ "retrying" →
  Forall (λ row, row.1 = q → ¬ is_pending row) (touch status err now q <$> rows).
Proof.
  intros Hp Hr. apply Forall_fmap, Forall_forall. intros row _. cbn.
  rewrite LedgerSpec.touch_id. intros Hid. unfold touch.
  rewrite decide_True by done. unfold is_pending. cbn. tauto.
Qed.

Lemma update_settles now q status err silo d :
  status ≠ "pending" → status ≠ "retrying" →
  (update_upload_status now q status err silo d).2 = None →
  settled q (update_upload_status now q status err silo d).1.
Proof.
  intros Hp Hr Hok. unfold settled.
  destruct (update_upload_status_queue now q status err silo d)
    as [[_ ->]|[[_ ->]|[-> Hnone]]].
  - by apply touch_settles.
  - apply Forall_forall. intros row [Hid _]%list_elem_of_filter. done.
  - apply Forall_forall. intros row Hrow Hid. by destruct (Hnone Hok row Hrow).
Qed.

Lemma update_keeps_settled now q q0 status err silo d :
  status ≠ "pending" → status ≠ "retrying" →
  settled q0 d → settled q0 (update_upload_status now q status err silo d).1.
Proof.
  intros Hp Hr Hs. unfold settled in *.
  destruct (update_upload_status_queue now q status err silo d)
    as [[_ ->]|[[_ ->]|[-> _]]]; [| |done].
  - apply Forall_fmap. eapply Forall_impl; [exact Hs|].
    intros row Hrow. cbn. rewrite LedgerSpec.touch_id. intros Hid.
    unfold touch. destruct (decide (row.1 = q)) as [Hq|Hq]; [|by apply Hrow].
    unfold is_pending. cbn. tauto.
  - apply Forall_forall. intros row [_ Hrow]%list_elem_of_filter.
    rewrite Forall_forall in Hs. by apply Hs.
Qed.

Lemma update_other_rows now q status err silo d :
  filter (λ row, row.1 ≠ q)
    (upload_queue (update_upload_status now q status err silo d).1)
  = filter (λ row, row.1 ≠ q) (upload_queue d).
Proof.
  destruct (update_upload_status_queue now q status err silo d)
    as [[_ ->]|[[_ ->]|[-> _]]]; [| |done].
  - induction (upload_queue d) as [|row rows IH]; [done|].
    rewrite fmap_cons, !filter_cons, IH, LedgerSpec.touch_id.
    destruct (decide (row.1 ≠ q)) as [Hne|Heq]; [|done].
    unfold touch. by rewrite decide_False.
  - rewrite list_filter_filter. apply list_filter_iff. tauto.
Qed.

Section Pass.
Variable error_text : db_error → string.

Lemma process_item_settles env item d :
  known_service item → settled item.1 (process_item error_text env item d).
Proof.
  intros Hknown. unfold process_item. rewrite decide_True by done.
  destruct (ie_outcome env) as [[] file_id err|text].
  - destruct (update_upload_status (ie_now env) item.1 "completed" None
                file_id d) as [d' [e|]] eqn:Hupd.
    + apply update_settles; [done|done|].
      by rewrite LedgerSpec.update_upload_status_plain.
    + pose proof (update_settles (ie_now env) item.1 "completed" None file_id d)
        as H. rewrite Hupd in H. by apply H.
  - apply update_settles; [done|done|].
    by rewrite LedgerSpec.update_upload_status_plain.
  - apply update_settles; [done|done|].
    by rewrite LedgerSpec.update_upload_status_plain.
Qed.

Lemma process_item_keeps_settled env item q d :
  settled q d → settled q (process_item error_text env item d).
Proof.
  intros Hs. unfold process_item. destruct (decide (known_service item)) as [Hk|Hk]; [|done].
  destruct (ie_outcome env) as [[] file_id err|text].
  - pose proof (update_keeps_settled (ie_now env) item.1 q "completed" None
                  file_id d) as H.
    destruct (update_upload_status (ie_now env) item.1 "completed" None
                file_id d) as [d' [e|]]; cbn in H.
    + apply update_keeps_settled; [done|done|]. by apply H.
    + by apply H.
  - by apply update_keeps_settled.
  - by apply update_keeps_settled.
Qed.

Lemma process_item_other_rows env item d :
  filter (λ row, row.1 ≠ item.1)
    (upload_queue (process_item error_text env item d))
  = filter (λ row, row.1 ≠ item.1) (upload_queue d).
Proof.
  unfold process_item. destruct (decide (known_service item)) as [Hk|Hk]; [|done].
  destruct (ie_outcome env) as [[] file_id err|text].
  - pose proof (update_other_rows (ie_now env) item.1 "completed" None
                  file_id d) as H.
    destruct (update_upload_status (ie_now env) item.1 "completed" None
                file_id d) as [d' [e|]]; cbn in H.
    + by rewrite update_other_rows.
    + done.
  - apply update_other_rows.
  - apply update_other_rows.
Qed.

Lemma process_item_unknown_service env item d :
  ¬ known_service item → process_item error_text env item d = d.
Proof. intros H. unfold process_item. by rewrite decide_False. Qed.

Lemma process_items_keep_settled env : ∀ pending i q d,
  settled q d → settled q (process_items error_text env i pending d).
Proof.
  induction pending as [|item rest IH]; intros i q d Hs; cbn; [done|].
  destruct (ie_running (env i)); [|done].
  by apply IH, process_item_keeps_settled.
Qed.

(** X24. A queue pass that is not interrupted settles every item it lists
    whose service is 'drive' or 'photos': whatever the outcome of download
    and upload, afterwards no queue row of that rowid is in status 'pending'
    or 'retrying' (the row is promoted and gone, or marked 'failed', or
    marked 'completed' when the upload gave no file id), so a pass that
    follows at once does not list it again. *)
Theorem process_upload_queue_settles env d :
  (∀ i, ie_running (env i) = true) →
  Forall (λ item, known_service item →
                  settled item.1 (process_upload_queue error_text env d)
                  ∧ Forall (λ row, row.1 ≠ item.1)
                      (get_pending_uploads 100
                         (process_upload_queue error_text env d)))
    (get_pending_uploads 100 d).
Proof.
  intros Hrun. unfold process_upload_queue.
  generalize (get_pending_uploads 100 d) as pending.
  assert (∀ pending i d0,
            Forall (λ item, known_service item →
                      settled item.1 (process_items error_text env i pending d0))
              pending) as Hall.
  { induction pending as [|item rest IH]; intros i d0; [constructor|].
    cbn [process_items]. rewrite Hrun. constructor; [|apply IH].
    intros Hknown. by apply process_items_keep_settled, process_item_settles. }
  intros pending. eapply Forall_impl; [apply (Hall pending 0%nat d)|].
  intros item Hitem Hknown. specialize (Hitem Hknown). split; [done|].
  apply Forall_forall. intros row Hrow Hid.
  unfold get_pending_uploads in Hrow.
  apply (sublist_subseteq _ _ (LedgerSpec.sql_limit_sublist _ _)) in Hrow.
  rewrite LedgerSpec.order_by_created_at_perm in Hrow.
  apply list_elem_of_filter in Hrow as [Hpending Hin].
  unfold settled in Hitem. rewrite Forall_forall in Hitem.
  by apply (Hitem row Hin).
Qed.

(** X25. A queue pass, interrupted or not, touches no queue row but those
    of the rowids it has listed with service 'drive' or 'photos': all other
    rows, among them those of an unknown service and those beyond the 100
    oldest, are in the queue afterwards as they were, in the same order. *)
Theorem process_upload_queue_frame env d :
  let listed := (filter known_service (get_pending_uploads 100 d)).*1 in
  filter (λ row, row.1 ∉ listed)
    (upload_queue (process_upload_queue error_text env d))
  = filter (λ row, row.1 ∉ listed) (upload_queue d).
Proof.
  cbn zeta. unfold process_upload_queue.
  remember (get_pending_uploads 100 d) as pending eqn:Hpending.
  clear Hpending. generalize 0%nat as i. revert d.
  induction pending as [|item rest IH]; intros d i; [done|].
  cbn [process_items]. destruct (ie_running (env i)); [|done].
  rewrite filter_cons. destruct (decide (known_service item)) as [Hk|Hk].
  - rewrite fmap_cons.
    assert (∀ rows : list (Z * queue_cols),
              filter (λ row, row.1 ∉ item.1 :: (filter known_service rest).*1)
                rows
              = filter (λ row, row.1 ≠ item.1)
                  (filter (λ row, row.1 ∉ (filter known_service rest).*1) rows))
      as Hsplit.
    { intros rows. rewrite list_filter_filter. apply list_filter_iff.
      intros row. rewrite not_elem_of_cons. tauto. }
    rewrite !Hsplit, IH. rewrite <- !Hsplit.
    assert (∀ rows : list (Z * queue_cols),
              filter (λ row, row.1 ∉ item.1 :: (filter known_service rest).*1)
                rows
              = filter (λ row, row.1 ∉ (filter known_service rest).*1)
                  (filter (λ row, row.1 ≠ item.1) rows)) as Hsplit'.
    { intros rows. rewrite list_filter_filter. apply list_filter_iff.
      intros row. rewrite not_elem_of_cons. tauto. }
    by rewrite !Hsplit', process_item_other_rows.
  - rewrite IH. by rewrite process_item_unknown_service.
Qed.

End Pass.

Lemma process_upload_queue_settles_witness :
  Forall (λ item, known_service item →
            settled item.1
              (process_upload_queue PassExamples.error_text
                 PassExamples.first_uploaded Examples.queued_two)
            ∧ Forall (λ row, row.1 ≠ item.1)
                (get_pending_uploads 100
                   (process_upload_queue PassExamples.error_text
                      PassExamples.first_uploaded Examples.queued_two)))
    (get_pending_uploads 100 Examples.queued_two).
Proof.
  apply (process_upload_queue_settles PassExamples.error_text
           PassExamples.first_uploaded Examples.queued_two).
  intros i. reflexivity.
Defined.

End OrchestratorExtra.

(** * Properties of the rate-limit table *)

Module RateLimitExtra.
Import RateLimit.

Lemma filter_conflict_after_replace endpoint other (rows : list (Z * rate_cols)) :
  filter (endpoint_conflict other)
    (filter (λ row, ¬ endpoint_conflict endpoint row) rows)
  = if decide (other = endpoint) then []
    else filter (endpoint_conflict other) rows.
Proof.
  destruct (decide (other = endpoint)) as [->|Hne].
  - apply LedgerSpec.filter_none.
    by intros row [Hrow _]%list_elem_of_filter.
  - rewrite list_filter_filter. apply list_filter_iff. intros row.
    unfold endpoint_conflict. split; [tauto|]. intros H. split; [done|].
    congruence.
Qed.

(** X26. With a local time zone whose offset does not change over the
    back-off, an endpoint is rate limited after [set_rate_limit_backoff]
    exactly at the times before the first clock reading of the call plus
    the back-off, whatever the table said about the endpoint before: the
    last call wins, also when it shortens the period, and a back-off that is
    not positive lifts the limit.  The other endpoints answer as before, and
    endpoints stay unique in the table. *)
Theorem set_rate_limit_backoff_window timestamp fromtimestamp
    utcnow utcnow' endpoint backoff_seconds t later :
  fromtimestamp (timestamp utcnow + 1000000 * backoff_seconds)%Z
  = (utcnow + 1000000 * backoff_seconds)%Z →
  let t' := set_rate_limit_backoff timestamp fromtimestamp utcnow utcnow'
              endpoint backoff_seconds t in
  is_rate_limited later endpoint t'
  = bool_decide (later < utcnow + 1000000 * backoff_seconds)%Z
  ∧ (∀ other, other ≠ endpoint →
       is_rate_limited later other t' = is_rate_limited later other t)
  ∧ (endpoint_unique t → endpoint_unique t').
Proof.
  intros Hzone. cbn. split; [|split].
  - unfold is_rate_limited, set_rate_limit_backoff. cbn.
    rewrite filter_app, filter_conflict_after_replace, decide_True by done.
    rewrite filter_cons, decide_True by done. cbn. by rewrite Hzone.
  - intros other Hne. unfold is_rate_limited, set_rate_limit_backoff. cbn.
    rewrite filter_app, filter_conflict_after_replace, decide_False by done.
    rewrite filter_cons, decide_False by (unfold endpoint_conflict; cbn; congruence).
    by rewrite filter_nil, app_nil_r.
  - unfold endpoint_unique, set_rate_limit_backoff. cbn. intros Huniq.
    rewrite fmap_app. apply NoDup_app. split; [|split].
    + by apply LedgerSpec.NoDup_fmap_filter.
    + intros e Hin. cbn. rewrite elem_of_cons, elem_of_nil. intros [->|[]].
      apply list_elem_of_fmap in Hin as (row & Heq & [Hrow _]%list_elem_of_filter).
      apply Hrow. unfold endpoint_conflict. by rewrite Heq.
    + cbn. apply NoDup_singleton.
Qed.

Lemma set_rate_limit_backoff_window_witness :
  let t' := set_rate_limit_backoff (λ naive, naive) (λ posix, posix)
              1000 1003 "upload" 7
              (set_rate_limit_backoff (λ naive, naive) (λ posix, posix)
                 0 1 "upload" 3600 no_limits) in
  is_rate_limited 5000000 "upload" t'
  = bool_decide (5000000 < 1000 + 1000000 * 7)%Z
  ∧ (∀ other, other ≠ "upload" →
       is_rate_limited 5000000 other t'
       = is_rate_limited 5000000 other
           (set_rate_limit_backoff (λ naive, naive) (λ posix, posix)
              0 1 "upload" 3600 no_limits))
  ∧ (endpoint_unique
       (set_rate_limit_backoff (λ naive, naive) (λ posix, posix)
          0 1 "upload" 3600 no_limits) → endpoint_unique t').
Proof.
  apply (set_rate_limit_backoff_window (λ naive, naive) (λ posix, posix)
           1000 1003 "upload" 7
           (set_rate_limit_backoff (λ naive, naive) (λ posix, posix)
              0 1 "upload" 3600 no_limits) 5000000).
  reflexivity.
Defined.

End RateLimitExtra.

(** * Properties of Drive paths *)

Module DriveExtra.
Import Drive.

Section Service.
Variable files_get : nat → string → option drive_file.

Lemma walk_spec : ∀ left call current_file path_parts,
  let r := walk files_get left call current_file path_parts in
  (length r.2 ≤ left)%nat
  ∧ match r.1 with
    | WDone parts =>
        ∃ names, parts = (names ++ path_parts)%list ∧ length names = length r.2
    | _ => True
    end
  ∧ ((∃ k id, r.2 !! k = Some id ∧ files_get (call + k) id = None) →
     r.1 = WHttpError).
Proof.
  induction left as [|left IH]; intros call current_file path_parts; cbn.
  - destruct (df_parents current_file); cbn.
    all: split; [lia|]; split; [by exists []|].
    all: by intros (k & id & Hk & _).
  - destruct (df_parents current_file) as [[|parent_id others]|]; cbn.
    + split; [lia|]. split; [done|]. by intros (k & id & Hk & _).
    + destruct (files_get call parent_id) as [parent|] eqn:Hget; cbn.
      * destruct (IH (S call) parent
                    (default "Unknown" (df_name parent) :: path_parts))
          as (Hlen & Hparts & Hfail).
        split; [lia|]. split.
        -- destruct (walk _ _ _ _ _).1; [done|done|].
           destruct Hparts as (names & -> & Hn).
           exists (names ++ [default "Unknown" (df_name parent)])%list.
           rewrite <- app_assoc, length_app. cbn. split; [done|lia].
        -- intros ([|k] & id & Hk & Hnone).
           ++ cbn in Hk. injection Hk as <-.
              rewrite Nat.add_0_r in Hnone. congruence.
           ++ apply Hfail. exists k, id. split; [done|].
              by replace (S call + k)%nat with (call + S k)%nat by lia.
      * split; [lia|]. split; [done|]. done.
    + split; [lia|]. split; [by exists []|]. by intros (k & id & Hk & _).
Qed.

(** X27. [get_file_path] asks the service at most eleven times, first for
    the file itself.  Unless 'parents' is an empty list somewhere (then the
    IndexError leaves the function), it returns the file name alone or the
    names of between one and ten folders and the file name, joined by '/',
    with one request for the file and one for each folder.  An HttpError
    on any request discards the folders found so far: the file name alone
    is returned. *)
Theorem get_file_path_bounded file_id file_name :
  let r := get_file_path files_get file_id file_name in
  (length r.2 ≤ 11)%nat
  ∧ head r.2 = Some file_id
  ∧ (r.1 = IndexError
     ∨ r.1 = Returned file_name
     ∨ ∃ names, (1 ≤ length names ≤ 10)%nat
         ∧ length r.2 = S (length names)
         ∧ r.1 = Returned (String.concat "/" (names ++ [file_name])))
  ∧ ((∃ k id, r.2 !! k = Some id ∧ files_get k id = None) →
     r.1 = Returned file_name).
Proof.
  unfold get_file_path. destruct (files_get 0 file_id) as [current_file|] eqn:Hget.
  - destruct (walk_spec max_depth 1 current_file [file_name])
      as (Hlen & Hparts & Hfail).
    cbn -[walk max_depth]. unfold max_depth in *.
    split; [lia|]. split; [done|]. split.
    + destruct (walk _ _ _ _ _).1 as [| |parts]; [by right; left|by left|].
      destruct Hparts as ([|name names] & -> & Hn).
      * right. left. done.
      * right. right. exists (name :: names).
        split; [cbn in *; lia|]. split; [by rewrite Hn|done].
    + intros ([|k] & id & Hk & Hnone).
      * cbn in Hk. injection Hk as <-. congruence.
      * rewrite Hfail; [done|]. by exists k, id.
  - cbn. split; [lia|]. split; [done|]. split; [by right; left|done].
Qed.

End Service.

Lemma walk_ancestors drive : ∀ left call current_file names path_parts,
  ancestors drive current_file names →
  let r := walk (λ _, drive) left call current_file path_parts in
  r.1 = WDone (rev (take left names) ++ path_parts)
  ∧ length r.2 = (left `min` length names)%nat.
Proof.
  induction left as [|left IH]; intros call current_file names path_parts Hanc.
  - cbn. by destruct (df_parents current_file).
  - destruct Hanc as [current_file Htop|current_file parent_id others parent
                                          names Hparents Hparent Hanc].
    + cbn. by rewrite Htop.
    + cbn -[Nat.min]. rewrite Hparents, Hparent. cbn -[Nat.min].
      destruct (IH (S call) parent names
                  (default "Unknown" (df_name parent) :: path_parts) Hanc)
        as [-> ->].
      split; [|lia]. by rewrite <- app_assoc.
Qed.

(** X28. In a Drive that does not change and answers every request, the
    path of a file is made of the names of the folders above it, outermost
    first, and the file name; a folder without 'name' counts as 'Unknown'.
    Only the ten nearest folders are taken: for a file nested deeper the
    path starts at the tenth folder above it, not at the root.  The call
    makes one request for the file and one for each folder taken. *)
Theorem get_file_path_of_ancestors drive file_id file_name current_file names :
  drive file_id = Some current_file →
  ancestors drive current_file names →
  let r := get_file_path (λ _, drive) file_id file_name in
  r.1 = Returned (String.concat "/" (rev (take 10 names) ++ [file_name]))
  ∧ length r.2 = S (10 `min` length names).
Proof.
  intros Hfile Hanc. unfold get_file_path. rewrite Hfile.
  destruct (walk_ancestors drive max_depth 1 current_file names [file_name] Hanc)
    as [Hr Hlen].
  cbn -[walk max_depth Nat.min]. rewrite Hr, Hlen. done.
Qed.

Lemma get_file_path_of_ancestors_witness :
  let r := get_file_path (λ _, DriveExamples.small_drive) "f" "a.txt" in
  r.1 = Returned (String.concat "/"
                    (rev (take 10 ["docs"; "My Drive"]) ++ ["a.txt"]))
  ∧ length r.2 = S (10 `min` length ["docs"; "My Drive"]).
Proof.
  apply (get_file_path_of_ancestors DriveExamples.small_drive "f" "a.txt"
           (DriveFile (Some "a.txt") (Some ["d"])) ["docs"; "My Drive"]).
  - reflexivity.
  - apply (ancestors_up _ _ "d" [] (DriveFile (Some "docs") (Some ["r"])));
      [reflexivity|reflexivity|].
    apply (ancestors_up _ _ "r" [] (DriveFile (Some "My Drive") None));
      [reflexivity|reflexivity|].
    by apply ancestors_top.
Defined.

End DriveExtra.

(** * Properties of the Drive pass *)

Module DrivePassExtra.
Import Ledger LedgerMore DrivePass.

Lemma is_file_synced_Exists d g s :
  is_file_synced d g s = true ↔ Exists (has_key g s) (synced_files d).
Proof.
  unfold is_file_synced, synced_count. rewrite bool_decide_eq_true.
  induction (synced_files d) as [|row rows IH].
  - cbn. split; [lia|]. by intros ?%Exists_nil.
  - rewrite filter_cons, Exists_cons.
    destruct (decide (has_key g s row)); cbn; [split; [by left|lia]|].
    rewrite IH. tauto.
Qed.

Lemma mark_file_synced_keeps now g fi silo b d :
  let r := mark_file_synced now g "drive" fi silo b d in
  (∀ g', kept d g' → kept r.1 g') ∧ (r.2 = None → kept r.1 g).
Proof.
  unfold mark_file_synced, mark_file_synced_events.
  rewrite LedgerSpec.call_single.
  destruct (exec _ d) as [d'|e] eqn:Hexec; cbn; [|done].
  apply LedgerSpec.exec_insert_synced in Hexec as ->.
  assert (Exists (has_key g "drive")
            [((synced_seq d + 1)%Z, synced_row_of now g "drive" fi silo b)])
    as Hnew by (apply Exists_cons; by left).
  split.
  - intros g' [Hs|Hq]; [left|by right].
    rewrite is_file_synced_Exists in *. cbn. rewrite Exists_app.
    destruct (decide (g' = g)) as [->|Hne]; [by right|left].
    apply Exists_exists in Hs as (row & Hin & Hkey). apply Exists_exists.
    exists row. split; [|done]. apply list_elem_of_filter. split; [|done].
    destruct Hkey as [Hk _]. intros [Hc|[Hc _]]; cbn in Hc; congruence.
  - intros _. left. rewrite is_file_synced_Exists. cbn. rewrite Exists_app.
    by right.
Qed.

Lemma add_to_upload_queue_keeps now g fi b url d :
  let r := add_to_upload_queue now g "drive" fi b url d in
  (∀ g', kept d g' → kept r.1 g') ∧ (r.2 = None → kept r.1 g).
Proof.
  unfold add_to_upload_queue, add_to_upload_queue_events.
  rewrite LedgerSpec.call_single.
  destruct (exec _ d) as [d'|e] eqn:Hexec; cbn; [|done].
  apply LedgerSpec.exec_insert_queue in Hexec as ->.
  assert (Exists (λ row, has_queue_key g "drive" row
                         ∧ uq_status row.2 = "pending")
            [((queue_seq d + 1)%Z, queue_row_of now g "drive" fi b url)])
    as Hnew by (apply Exists_cons; by left).
  split.
  - intros g' [Hs|Hq]; [by left|right]. cbn. rewrite Exists_app.
    destruct (decide (g' = g)) as [->|Hne]; [by right|left].
    apply Exists_exists in Hq as (row & Hin & Hkey & Hst). apply Exists_exists.
    exists row. split; [|done]. apply list_elem_of_filter. split; [|done].
    destruct Hkey as [Hk _]. intros [Hc _]; cbn in Hc; congruence.
  - intros _. right. cbn. rewrite Exists_app. by right.
Qed.

Section Pass.
Variable error_text : db_error → string.
Variable attribute_error : pyval → string.
Variable bucket : string.

Lemma queue_for_retry_keeps env file_id file c d :
  let r := queue_for_retry error_text bucket env file_id file c d in
  (∀ g', kept d g' → kept r.1.2 g') ∧ (r.2 = None → kept r.1.2 file_id).
Proof.
  unfold queue_for_retry.
  pose proof (add_to_upload_queue_keeps (fe_now_handler env) file_id file
                bucket None d) as H.
  destruct (add_to_upload_queue _ _ _ _ _ _ d) as [d' [e|]]; cbn in *.
  - split; [apply H|done].
  - split; [apply H|]. intros _. by apply H.
Qed.

Lemma sync_regular_keeps env file_id file c d :
  let r := sync_regular error_text bucket env file_id file c d in
  (∀ g', kept d g' → kept r.1.2 g') ∧ (r.2 = None → kept r.1.2 file_id).
Proof.
  unfold sync_regular.
  destruct (fe_path env) as [file_path|]; [|apply queue_for_retry_keeps].
  destruct (fe_download env); [|apply queue_for_retry_keeps].
  destruct (fe_upload env) as [[[] silo_file_id]|];
    [| |apply queue_for_retry_keeps].
  - destruct (fe_tell env) as [size|]; [|apply queue_for_retry_keeps].
    pose proof (mark_file_synced_keeps (fe_now env) file_id
                  (<["path" := PStr file_path]> file) silo_file_id
                  (Some bucket) d) as [Hall Hnew].
    destruct (mark_file_synced _ _ _ _ _ _ d) as [d' [e|]]; cbn in *;
      [|by split; [|intros _; apply Hnew]].
    match goal with
    | |- context [queue_for_retry _ _ _ _ ?f ?c' d'] =>
        destruct (queue_for_retry_keeps env file_id f c' d') as [Hall' Hnew']
    end.
    split; [|done]. intros g' Hg. by apply Hall', Hall.
  - pose proof (add_to_upload_queue_keeps (fe_now env) file_id
                  (<["path" := PStr file_path]> file) bucket None d)
      as [Hall Hnew].
    destruct (add_to_upload_queue _ _ _ _ _ _ d) as [d' [e|]]; cbn in *;
      [|by split; [|intros _; apply Hnew]].
    match goal with
    | |- context [queue_for_retry _ _ _ _ ?f ?c' d'] =>
        destruct (queue_for_retry_keeps env file_id f c' d') as [Hall' Hnew']
    end.
    split; [|done]. intros g' Hg. by apply Hall', Hall.
Qed.

Lemma sync_workspace_keeps export env file_id file mime_type c d :
  let r := sync_workspace bucket export env file_id file mime_type c d in
  r.2 = None ∧ ∀ g', kept d g' → kept r.1.2 g'.
Proof.
  unfold sync_workspace.
  destruct (export && can_export mime_type); [|done].
  destruct (fe_export env); [|done].
  destruct (fe_upload env) as [[[] silo_file_id]|]; [|done|done].
  pose proof (mark_file_synced_keeps (fe_now env) file_id file silo_file_id
                (Some bucket) d) as [Hall _].
  by destruct (mark_file_synced _ _ _ _ _ _ d) as [d' [e|]].
Qed.

Lemma sync_workspace_processed export env file_id file mime_type c d :
  c_processed (sync_workspace bucket export env file_id file mime_type c d).1.1
  = c_processed c.
Proof.
  unfold sync_workspace. repeat case_match; done.
Qed.

Lemma sync_regular_processed env file_id file c d :
  c_processed (sync_regular error_text bucket env file_id file c d).1.1
  = c_processed c.
Proof.
  unfold sync_regular, queue_for_retry. repeat case_match; done.
Qed.

Lemma process_file_keeps export env item c d :
  let r := process_file error_text attribute_error bucket export env item c d in
  (∀ g', kept d g' → kept r.1.2 g')
  ∧ (r.2 = None → is_workspace item.2 = false → kept r.1.2 item.1)
  ∧ c_processed r.1.1 = (c_processed c + 1)%Z.
Proof.
  unfold process_file, is_workspace.
  destruct (is_file_synced d item.1 "drive") eqn:Hsynced.
  { cbn. split; [done|]. split; [|done]. intros _ _. by left. }
  destruct (dict_get item.2 "mimeType" PNone) as [| |mime_type|]; [done..| |done].
  destruct (String.prefix workspace_prefix mime_type).
  - destruct (sync_workspace_keeps export env item.1 item.2 mime_type
                (bump_processed c) d) as [_ Hall].
    split; [done|]. split; [done|]. by rewrite sync_workspace_processed.
  - destruct (sync_regular_keeps env item.1 item.2 (bump_processed c) d)
      as [Hall Hnew].
    split; [done|]. split; [by intros ? _; apply Hnew|].
    by rewrite sync_regular_processed.
Qed.

Lemma sync_files_keeps export env : ∀ files i listing_raises c d,
  let r := sync_files error_text attribute_error bucket export env i files
             listing_raises c d in
  (∀ g', kept d g' → kept r.1.2 g')
  ∧ ∃ k, (k ≤ length files)%nat
      ∧ (c_processed r.1.1 = c_processed c + Z.of_nat k)%Z
      ∧ (r.2 = None →
         Forall (λ item, is_workspace item.2 = false → kept r.1.2 item.1)
           (take k files)
         ∧ ((∀ j, fe_running (env j) = true) → k = length files)).
Proof.
  induction files as [|item rest IH]; intros i listing_raises c d.
  - cbn. split; [done|]. exists 0%nat. split; [done|]. split; [lia|].
    intros _. split; [constructor|done].
  - cbn [sync_files]. destruct (fe_running (env i)) eqn:Hrun.
    + destruct (process_file_keeps export (env i) item c d)
        as (Hall & Hnew & Hcount).
      destruct (process_file _ _ _ _ _ item c d) as [s [text|]] eqn:Hfile.
      * cbn in *. split; [done|]. exists 1%nat. split; [lia|].
        split; [lia|]. done.
      * cbn in Hall, Hnew, Hcount.
        destruct (IH (S i) listing_raises s.1 s.2) as (Hall' & k & Hk & Hc & Hok).
        split; [by intros g' Hg; apply Hall', Hall|].
        exists (S k). cbn [length]. split; [lia|]. split; [lia|].
        intros Hnone. destruct (Hok Hnone) as [Hkept Hfull].
        split; [|by intros Hr; rewrite (Hfull Hr)].
        cbn [take]. constructor; [|done].
        intros Hw. by apply Hall', Hnew.
    + cbn. split; [done|]. exists 0%nat. split; [lia|]. split; [lia|].
      intros _. split; [constructor|]. intros Hr. by rewrite Hr in Hrun.
Qed.

(** X29. A Drive pass that returns loses no regular file.  Its 'processed'
    counter is the number of listed files it handled, all of them when it
    was not interrupted, and each of these that is not a Workspace file is
    afterwards synced in the ledger or in the upload queue in status
    'pending': whenever download, upload or the ledger write of a regular
    file fails, the file is queued, and if queueing fails too the pass
    raises.  What the ledger held as synced or queued before is still
    there. *)
Theorem sync_google_drive_keeps_files export now_start now_end now_fail env
    files listing_raises d t :
  let r := sync_google_drive error_text attribute_error bucket export
             now_start now_end now_fail env files listing_raises d t in
  pr_raised r = None →
  (0 ≤ c_processed (pr_stats r) ≤ Z.of_nat (length files))%Z
  ∧ Forall (λ item, is_workspace item.2 = false → kept (pr_db r) item.1)
      (take (Z.to_nat (c_processed (pr_stats r))) files)
  ∧ ((∀ i, fe_running (env i) = true) →
     c_processed (pr_stats r) = Z.of_nat (length files))
  ∧ (∀ file_id, kept d file_id → kept (pr_db r) file_id).
Proof.
  unfold sync_google_drive.
  destruct (sync_files_keeps export env files 0%nat listing_raises no_counts d)
    as (Hall & k & Hk & Hcount & Hok).
  destruct (sync_files _ _ _ _ _ _ files _ _ d) as [[c d'] [text|]];
    [done|].
  destruct (complete_sync_session _ _ _ _) as [t' [e|]]; [done|].
  cbn in *. intros _. destruct (Hok eq_refl) as [Hkept Hfull].
  rewrite Z.add_0_l in Hcount. rewrite Hcount, Nat2Z.id.
  split; [lia|]. split; [done|]. split; [|done].
  intros Hr. by rewrite (Hfull Hr).
Qed.

End Pass.

Lemma sync_google_drive_keeps_files_witness :
  let files := [("p1", DrivePassExamples.photo);
                ("s1", DrivePassExamples.sheet);
                ("n1", DrivePassExamples.notes)] in
  let r := sync_google_drive PassExamples.error_text
             DrivePassExamples.attribute_error "files" false
             "2024-01-01T00:00:00" "2024-01-01T00:01:00" "2024-01-01T00:01:01"
             DrivePassExamples.first_goes_through files None empty_db
             no_sessions in
  (0 ≤ c_processed (pr_stats r) ≤ Z.of_nat (length files))%Z
  ∧ Forall (λ item, is_workspace item.2 = false → kept (pr_db r) item.1)
      (take (Z.to_nat (c_processed (pr_stats r))) files)
  ∧ ((∀ i, fe_running (DrivePassExamples.first_goes_through i) = true) →
     c_processed (pr_stats r) = Z.of_nat (length files))
  ∧ (∀ file_id, kept empty_db file_id → kept (pr_db r) file_id).
Proof.
  apply (sync_google_drive_keeps_files PassExamples.error_text
           DrivePassExamples.attribute_error "files" false
           "2024-01-01T00:00:00" "2024-01-01T00:01:00" "2024-01-01T00:01:01"
           DrivePassExamples.first_goes_through
           [("p1", DrivePassExamples.photo);
            ("s1", DrivePassExamples.sheet);
            ("n1", DrivePassExamples.notes)] None empty_db no_sessions).
  vm_compute. reflexivity.
Defined.

Section Listing.
Variable attribute_error : pyval → string.
Variable files_list : nat → option string → string + page.

Lemma yield_files_not_workspace files :
  Forall (λ file, is_workspace file = false)
    (yield_files attribute_error files).1.
Proof.
  induction files as [|file rest IH]; cbn; [constructor|].
  unfold is_workspace, dict_get in *.
  destruct (file !! "mimeType") as [[| |mime_type|]|] eqn:Hmime; cbn;
    try constructor.
  - destruct (String.prefix workspace_prefix mime_type) eqn:Hprefix; [done|].
    cbn. constructor; [|done]. by rewrite Hmime; cbn.
  - by rewrite Hmime.
  - done.
Qed.

Lemma list_all_files_not_workspace : ∀ fuel call page_token,
  Forall (λ file, is_workspace file = false)
    (list_all_files attribute_error files_list fuel call page_token).1.
Proof.
  induction fuel as [|fuel IH]; intros call page_token; cbn; [constructor|].
  destruct (files_list call page_token) as [text|results]; [constructor|].
  pose proof (yield_files_not_workspace (pg_files results)) as Hy.
  destruct (yield_files _ _).2; [done|].
  destruct (truthy _); [|done]. cbn. apply Forall_app. split; [done|apply IH].
Qed.

End Listing.

Lemma process_file_export_flag error_text attribute_error bucket env item c d :
  is_workspace item.2 = false →
  process_file error_text attribute_error bucket true env item c d
  = process_file error_text attribute_error bucket false env item c d.
Proof.
  unfold process_file, is_workspace. intros Hw.
  destruct (is_file_synced d item.1 "drive"); [done|].
  destruct (dict_get item.2 "mimeType" PNone); [done..| |done].
  by rewrite Hw.
Qed.

Lemma sync_files_export_flag error_text attribute_error bucket env :
  ∀ files i listing_raises c d,
  Forall (λ item, is_workspace item.2 = false) files →
  sync_files error_text attribute_error bucket true env i files
    listing_raises c d
  = sync_files error_text attribute_error bucket false env i files
      listing_raises c d.
Proof.
  induction files as [|item rest IH]; intros i listing_raises c d Hfiles;
    [done|].
  apply Forall_cons in Hfiles as [Hitem Hrest]. cbn [sync_files].
  rewrite process_file_export_flag by done.
  destruct (fe_running (env i)); [|done].
  destruct (process_file _ _ _ false _ item c d) as [s [text|]]; [done|].
  by apply IH.
Qed.

(** X30. Exporting Workspace files is switched on without effect: the
    listing yields no file whose 'mimeType' starts with
    'application/vnd.google-apps.', so a Drive pass over what
    [list_all_files] yields never enters its export branch, and with
    [export_workspace_files] set it leaves the same ledger, session and
    counters, and raises the same, as without. *)
Theorem export_workspace_files_without_effect error_text attribute_error
    attribute_error' files_list fuel call page_token bucket
    now_start now_end now_fail env files listing_raises d t :
  files.*2 = (list_all_files attribute_error' files_list fuel call
                page_token).1 →
  Forall (λ item, is_workspace item.2 = false) files
  ∧ sync_google_drive error_text attribute_error bucket true
      now_start now_end now_fail env files listing_raises d t
    = sync_google_drive error_text attribute_error bucket false
        now_start now_end now_fail env files listing_raises d t.
Proof.
  intros Hfiles.
  assert (Forall (λ item, is_workspace item.2 = false) files) as Hnone.
  { pose proof (list_all_files_not_workspace attribute_error' files_list fuel
                  call page_token) as H.
    rewrite <- Hfiles in H. by apply Forall_fmap in H. }
  split; [done|]. unfold sync_google_drive.
  by rewrite sync_files_export_flag.
Qed.

Lemma export_workspace_files_without_effect_witness :
  let files := [("p1", DrivePassExamples.photo);
                ("n1", DrivePassExamples.notes)] in
  Forall (λ item, is_workspace item.2 = false) files
  ∧ sync_google_drive PassExamples.error_text
      DrivePassExamples.attribute_error "files" true
      "2024-01-01T00:00:00" "2024-01-01T00:01:00" "2024-01-01T00:01:01"
      DrivePassExamples.first_goes_through files None empty_db no_sessions
    = sync_google_drive PassExamples.error_text
        DrivePassExamples.attribute_error "files" false
        "2024-01-01T00:00:00" "2024-01-01T00:01:00" "2024-01-01T00:01:01"
        DrivePassExamples.first_goes_through files None empty_db no_sessions.
Proof.
  apply (export_workspace_files_without_effect PassExamples.error_text
           DrivePassExamples.attribute_error DrivePassExamples.attribute_error
           DrivePassExamples.one_page 1 0 None "files"
           "2024-01-01T00:00:00" "2024-01-01T00:01:00" "2024-01-01T00:01:01"
           DrivePassExamples.first_goes_through
           [("p1", DrivePassExamples.photo); ("n1", DrivePassExamples.notes)]
           None empty_db no_sessions).
  vm_compute. reflexivity.
Defined.

End DrivePassExtra.
